(** * BattleID backend: a shallow embedding of the Express handlers and of the
      SQL they send, with the properties of the roster service.

    The repository has two deployments of one service:
    - the schema-rich server ([initTables], twelve routes, CORS allow-list);
    - the legacy server ([ensureIdSequence], four routes on [battle_ids]).

    A handler is a JavaScript [async] function whose whole body is a
    [try { ... } catch (err) { ... }]; it is embedded in a state-and-exception
    monad over the database.  Every SQL text of the source is a constructor
    of [Stmt] and gets its PostgreSQL meaning in [exec]. *)

From Stdlib Require Import ZArith String Ascii DecimalString.
From Stdlib Require DecimalZ DecimalPos.
From stdpp Require Import base option numbers list sorting strings gmap.

Local Open Scope string_scope.
Local Open Scope list_scope.
Local Open Scope Z_scope.

(** ** JavaScript values carried by a JSON body

    The scalar values of JSON, with integers for numbers.  Objects, arrays
    and fractions as field values are outside the model, and so is a body
    that [express.json()] cannot parse (it answers 400 before any route). *)

Inductive JsVal :=
| JUndefined
| JNull
| JBool (b : bool)
| JNum (z : Z)
| JStr (s : string).

(** [ToBoolean]: the test behind [a || b] and [!a]. *)
Definition truthy (v : JsVal) : bool :=
  match v with
  | JUndefined | JNull => false
  | JBool b => b
  | JNum z => negb (z =? 0)
  | JStr s => negb (String.eqb s "")
  end.

(** [a || b]. *)
Definition js_or (a b : JsVal) : JsVal := if truthy a then a else b.

(** A JavaScript object read by destructuring: a missing key is [undefined]. *)
Definition field (o : gmap string JsVal) (k : string) : JsVal :=
  default JUndefined (o !! k).

Definition decimal (z : Z) : string := NilZero.string_of_int (Z.to_int z).

(** What node-postgres puts on the wire for a query argument:
    [undefined] and [null] become SQL NULL, everything else its text, a
    number with all its digits (as JavaScript writes the integers that are
    exact in a double; from 10^21 on it writes an exponent). *)
Definition prepareValue (v : JsVal) : option string :=
  match v with
  | JUndefined | JNull => None
  | JBool b => Some (if b then "true" else "false")
  | JNum z => Some (decimal z)
  | JStr s => Some s
  end.

(** ** PostgreSQL errors and input functions *)

Inductive PgError :=
| ConnectionFailure (msg : string)
| InvalidTextRepresentation (type text : string)
| ValueOutOfRange (text type : string)
| NumericValueOutOfRange (type : string)
| NotNullViolation (relation column : string)
| CheckViolation (relation constraint : string)
| UniqueViolation (constraint : string)
| ForeignKeyViolation (relation constraint : string)
| SequenceExhausted (sequence : string) (maxvalue : Z)
| UndefinedTable (relation : string)
| UndefinedColumn (relation column : string)
| UndefinedReferencedColumn (column : string)
| InvalidForeignKey (relation : string)
| ReferencedNotATable (relation : string)
| CannotOpenRelation (relation : string)
| WrongObjectType (relation : string)
| InvalidSequenceBound (clause : string) (value : Z) (side : string) (bound : Z)
| ProtocolViolation (supplied required : nat).

(** An identifier or a text as a message shows it, between double quotes. *)
Definition quoted (s : string) : string :=
  String "034" (s +:+ String "034" "").

(** [err.message], with the texts of PostgreSQL 15 and later.  The text of a
    lost connection is whatever the driver reports. *)
Definition message (e : PgError) : string :=
  match e with
  | ConnectionFailure msg => msg
  | InvalidTextRepresentation ty txt =>
      "invalid input syntax for type " +:+ ty +:+ ": " +:+ quoted txt
  | ValueOutOfRange txt ty =>
      "value " +:+ quoted txt +:+ " is out of range for type " +:+ ty
  | NumericValueOutOfRange ty => ty +:+ " out of range"
  | NotNullViolation rel col =>
      "null value in column " +:+ quoted col +:+ " of relation " +:+ quoted rel
      +:+ " violates not-null constraint"
  | CheckViolation rel c =>
      "new row for relation " +:+ quoted rel
      +:+ " violates check constraint " +:+ quoted c
  | UniqueViolation c =>
      "duplicate key value violates unique constraint " +:+ quoted c
  | ForeignKeyViolation rel c =>
      "insert or update on table " +:+ quoted rel
      +:+ " violates foreign key constraint " +:+ quoted c
  | SequenceExhausted sq max =>
      "nextval: reached maximum value of sequence " +:+ quoted sq
      +:+ " (" +:+ decimal max +:+ ")"
  | UndefinedTable rel => "relation " +:+ quoted rel +:+ " does not exist"
  | UndefinedColumn _ col => "column " +:+ quoted col +:+ " does not exist"
  | UndefinedReferencedColumn col =>
      "column " +:+ quoted col
      +:+ " referenced in foreign key constraint does not exist"
  | InvalidForeignKey rel =>
      "there is no unique constraint matching given keys for referenced table "
      +:+ quoted rel
  | ReferencedNotATable rel =>
      "referenced relation " +:+ quoted rel +:+ " is not a table"
  | CannotOpenRelation rel => "cannot open relation " +:+ quoted rel
  | WrongObjectType rel => quoted rel +:+ " is not a sequence"
  | InvalidSequenceBound opt v side bound =>
      opt +:+ " value (" +:+ decimal v +:+ ") cannot be " +:+ side
      +:+ " (" +:+ decimal bound +:+ ")"
  | ProtocolViolation supplied required =>
      "bind message supplies " +:+ decimal (Z.of_nat supplied)
      +:+ " parameters, but prepared statement " +:+ quoted ""
      +:+ " requires " +:+ decimal (Z.of_nat required)
  end.

Definition INT2_MAX : Z := 32767.
Definition INT2_MIN : Z := -32768.
Definition INT4_MAX : Z := 2147483647.
Definition INT4_MIN : Z := -2147483648.
Definition INT8_MAX : Z := 9223372036854775807.

Definition is_space (c : ascii) : bool :=
  let n := nat_of_ascii c in
  orb (Nat.eqb n 32) (andb (Nat.leb 9 n) (Nat.leb n 13)).

Definition digit_of (c : ascii) : option Z :=
  let n := Z.of_nat (nat_of_ascii c) in
  if (48 <=? n) && (n <=? 57) then Some (n - 48) else None.

Fixpoint skip_spaces (s : string) : string :=
  match s with
  | String c s' => if is_space c then skip_spaces s' else s
  | EmptyString => s
  end.

(** Digits, then only white space. *)
Fixpoint digits_value (acc : Z) (s : string) : option Z :=
  match s with
  | EmptyString => Some acc
  | String c s' =>
      match digit_of c with
      | Some d => digits_value (10 * acc + d) s'
      | None => if String.eqb (skip_spaces s) "" then Some acc else None
      end
  end.

Definition starts_with_digit (s : string) : bool :=
  match s with
  | String c _ => bool_decide (is_Some (digit_of c))
  | EmptyString => false
  end.

(** The decimal integer syntax of the integer input functions:
    white space, an optional sign, at least one digit, white space.
    (Servers from version 16 on also read hexadecimal, octal and binary
    forms and underscores between digits; the statements below that rest
    on a text being refused for its syntax take a text with no digit in
    it, which every version refuses.) *)
Definition integer_syntax (s : string) : option Z :=
  match skip_spaces s with
  | String "-" s' =>
      if starts_with_digit s' then Z.opp <$> digits_value 0 s' else None
  | String "+" s' =>
      if starts_with_digit s' then digits_value 0 s' else None
  | s' => if starts_with_digit s' then digits_value 0 s' else None
  end.

Definition int_in (type : string) (lo hi : Z) (s : string) : PgError + Z :=
  match integer_syntax s with
  | None => inl (InvalidTextRepresentation type s)
  | Some z =>
      if (lo <=? z) && (z <=? hi) then inr z
      else inl (ValueOutOfRange s type)
  end.

Definition int4_in : string → PgError + Z := int_in "integer" INT4_MIN INT4_MAX.
Definition int2_in : string → PgError + Z := int_in "smallint" INT2_MIN INT2_MAX.

(** A nullable parameter through an input function. *)
Definition nullable {A} (inp : string → PgError + A) (p : option string)
  : PgError + option A :=
  match p with
  | None => inr None
  | Some s => match inp s with inl e => inl e | inr a => inr (Some a) end
  end.

(** ** The five tables of [initTables]

    One record per [CREATE TABLE]; a nullable column is an [option].
    Dates are day numbers, timestamps are microsecond counts. *)

Module battle_ids.
Record row := {
  id : Z;
  name : string;
  callsign : option string;
  role : option string;
  rank : option string;
  specialty : option string;
  ethnicity : option string;
  dob : option Z;
  strikes_level : option string;
  commendations_count : option Z;
  notes : option string;
  avatar : option string;
  status : option string;
  created_at : option Z }.
End battle_ids.

Module commendations.
Record row := {
  id : Z;
  battle_id : Z;
  level : Z;
  notes : option string;
  created_at : option Z }.
End commendations.

Module rank_changes.
Record row := {
  id : Z;
  battle_id : Z;
  change_type : string;
  from_rank : option string;
  to_rank : option string;
  reason : option string;
  created_at : option Z }.
End rank_changes.

Module awards_catalog.
Record row := {
  id : Z;
  code : option string;
  name : string;
  description : option string;
  icon_url : option string }.
End awards_catalog.

Module awards.
Record row := {
  id : Z;
  battle_id : Z;
  award_id : Z;
  notes : option string;
  granted_at : option Z }.
End awards.

(** The database: the rows of each table in insertion order and the next
    value of the sequence behind each [SERIAL] column. *)
Record Store := {
  battle_ids : list battle_ids.row;
  battle_ids_id_seq : Z;
  commendations : list commendations.row;
  commendations_id_seq : Z;
  rank_changes : list rank_changes.row;
  rank_changes_id_seq : Z;
  awards_catalog : list awards_catalog.row;
  awards_catalog_id_seq : Z;
  awards : list awards.row;
  awards_id_seq : Z }.

Definition set_battle_ids (s : Store) (l : list battle_ids.row) (n : Z) : Store :=
  {| battle_ids := l; battle_ids_id_seq := n;
     commendations := commendations s;
     commendations_id_seq := commendations_id_seq s;
     rank_changes := rank_changes s;
     rank_changes_id_seq := rank_changes_id_seq s;
     awards_catalog := awards_catalog s;
     awards_catalog_id_seq := awards_catalog_id_seq s;
     awards := awards s; awards_id_seq := awards_id_seq s |}.

Definition set_commendations (s : Store) (l : list commendations.row) (n : Z)
  : Store :=
  {| battle_ids := battle_ids s; battle_ids_id_seq := battle_ids_id_seq s;
     commendations := l; commendations_id_seq := n;
     rank_changes := rank_changes s;
     rank_changes_id_seq := rank_changes_id_seq s;
     awards_catalog := awards_catalog s;
     awards_catalog_id_seq := awards_catalog_id_seq s;
     awards := awards s; awards_id_seq := awards_id_seq s |}.

Definition set_rank_changes (s : Store) (l : list rank_changes.row) (n : Z)
  : Store :=
  {| battle_ids := battle_ids s; battle_ids_id_seq := battle_ids_id_seq s;
     commendations := commendations s;
     commendations_id_seq := commendations_id_seq s;
     rank_changes := l; rank_changes_id_seq := n;
     awards_catalog := awards_catalog s;
     awards_catalog_id_seq := awards_catalog_id_seq s;
     awards := awards s; awards_id_seq := awards_id_seq s |}.

Definition set_awards_catalog (s : Store) (l : list awards_catalog.row) (n : Z)
  : Store :=
  {| battle_ids := battle_ids s; battle_ids_id_seq := battle_ids_id_seq s;
     commendations := commendations s;
     commendations_id_seq := commendations_id_seq s;
     rank_changes := rank_changes s;
     rank_changes_id_seq := rank_changes_id_seq s;
     awards_catalog := l; awards_catalog_id_seq := n;
     awards := awards s; awards_id_seq := awards_id_seq s |}.

Definition set_awards (s : Store) (l : list awards.row) (n : Z) : Store :=
  {| battle_ids := battle_ids s; battle_ids_id_seq := battle_ids_id_seq s;
     commendations := commendations s;
     commendations_id_seq := commendations_id_seq s;
     rank_changes := rank_changes s;
     rank_changes_id_seq := rank_changes_id_seq s;
     awards_catalog := awards_catalog s;
     awards_catalog_id_seq := awards_catalog_id_seq s;
     awards := l; awards_id_seq := n |}.

(** A row of a result set. *)
Inductive Row :=
| BattleRow (r : battle_ids.row)
| CommendationRow (r : commendations.row)
| RankChangeRow (r : rank_changes.row)
| CatalogRow (r : awards_catalog.row)
| AwardRow (r : awards.row)
| AwardWithCatalog (a : awards.row) (award_name : string)
    (icon_url : option string)
| NowRow (now : Z).

(** ** Ordering of [ORDER BY]

    PostgreSQL sorts NULL as larger than every value: last in [ASC], first
    in [DESC]. *)
Definition null_le (a b : option Z) : Prop :=
  match a, b with
  | _, None => True
  | None, Some _ => False
  | Some x, Some y => x ≤ y
  end.

#[global] Instance null_le_dec a b : Decision (null_le a b).
Proof. destruct a, b; simpl; apply _. Defined.

(** [ORDER BY key ASC] and [ORDER BY key DESC] as relations on rows. *)
Definition asc_by {A} (key : A → option Z) : relation A :=
  λ x y, null_le (key x) (key y).
Definition desc_by {A} (key : A → option Z) : relation A :=
  λ x y, null_le (key y) (key x).

#[global] Instance asc_by_dec {A} (key : A → option Z) x y :
  Decision (asc_by key x y).
Proof. unfold asc_by; apply _. Defined.

#[global] Instance desc_by_dec {A} (key : A → option Z) x y :
  Decision (desc_by key x y).
Proof. unfold desc_by; apply _. Defined.

Definition order_by_asc {A} (key : A → option Z) : list A → list A :=
  merge_sort (asc_by key).
Definition order_by_desc {A} (key : A → option Z) : list A → list A :=
  merge_sort (desc_by key).

(** ** The SQL statements of the schema-rich server

    One constructor per SQL text sent by [pool.query], named after the
    route that sends it. *)
Inductive Stmt :=
| SelectNow                 (* SELECT NOW() *)
| SelectBattleIds           (* SELECT * FROM battle_ids ORDER BY created_at DESC *)
| SelectBattleId            (* SELECT * FROM battle_ids WHERE id = $1 *)
| InsertBattleId            (* INSERT INTO battle_ids (...) VALUES ($1..$11) RETURNING * *)
| UpdateBattleId            (* UPDATE battle_ids SET ... WHERE id=$12 RETURNING * *)
| DeleteBattleId            (* DELETE FROM battle_ids WHERE id = $1 *)
| SelectAwardsCatalog       (* SELECT * FROM awards_catalog ORDER BY id ASC *)
| InsertAwardsCatalog       (* INSERT INTO awards_catalog (...) VALUES ($1..$4) RETURNING * *)
| InsertAward               (* INSERT INTO awards (...) VALUES ($1,$2,$3) RETURNING * *)
| SelectAwards              (* SELECT a.*, c.name AS award_name, c.icon_url FROM awards a JOIN ... *)
| InsertRankChange          (* INSERT INTO rank_changes (...) VALUES ($1..$5) RETURNING * *)
| InsertCommendation        (* INSERT INTO commendations (...) VALUES ($1,$2,$3) RETURNING * *)
| UpdateCommendationsCount. (* UPDATE battle_ids SET commendations_count = commendations_count + 1 WHERE id=$1 *)

Notation "'let?' x := e 'in' k" :=
  (match e with inl err => inl err | inr x => k end)
  (at level 10, x pattern, e at level 100, k at level 200, only parsing).

Definition require (b : bool) (e : PgError) : PgError + unit :=
  if b then inr tt else inl e.

(** [NOT NULL]. *)
Definition not_null {A} (relation column : string) (v : option A) : PgError + A :=
  match v with
  | Some a => inr a
  | None => inl (NotNullViolation relation column)
  end.

(** [CHECK (column IN (...))]: satisfied by NULL. *)
Definition check_in {A} `{EqDecision A} (relation constraint : string)
    (allowed : list A) (v : option A) : PgError + unit :=
  match v with
  | None => inr tt
  | Some a => require (bool_decide (a ∈ allowed)) (CheckViolation relation constraint)
  end.

(** [nextval] of the sequence behind a [SERIAL] column, an [integer]. *)
Definition nextval (sequence : string) (next : Z) : PgError + Z :=
  if next <=? INT4_MAX then inr next
  else inl (SequenceExhausted sequence INT4_MAX).

Definition strikes_levels : list string := ["0"; "1"; "2"; "3"; "exterminato"].
Definition commendation_levels : list Z := [1; 2; 3].
Definition change_types : list string := ["promotion"; "demotion"].

(** The outcome of a statement: the database after it and its result set
    or error.  A statement that fails changes no table; the value it took
    from a sequence stays consumed. *)
Definition Exec : Type := Store * (PgError + list Row).

(** [UPDATE t SET ... WHERE p]: the new table and the rows changed, or the
    first constraint error. *)
Fixpoint update_where {A} (p : A → bool) (f : A → PgError + A) (l : list A)
  : PgError + (list A * list A) :=
  match l with
  | [] => inr ([], [])
  | x :: l' =>
      if p x then
        let? y := f x in
        let? r := update_where p f l' in
        inr (y :: r.1, y :: r.2)
      else
        let? r := update_where p f l' in
        inr (x :: r.1, r.2)
  end.

Section Database.

(** The input function of type [date]: the day number of a date text the
    server accepts under its [DateStyle], [None] for any other text. *)
Variable date_in : string → option Z.

Definition pg_date_in (s : string) : PgError + Z :=
  match date_in s with
  | Some d => inr d
  | None => inl (InvalidTextRepresentation "date" s)
  end.

Definition select_now (now : Z) (s : Store) : Exec :=
  (s, inr [NowRow now]).

Definition select_battle_ids (s : Store) : Exec :=
  (s, inr (BattleRow <$> order_by_desc battle_ids.created_at (battle_ids s))).

Definition has_id (z : option Z) (r : battle_ids.row) : bool :=
  bool_decide (z = Some (battle_ids.id r)).

Definition select_battle_id (ps : list (option string)) (s : Store) : Exec :=
  match ps with
  | [id] =>
      match nullable int4_in id with
      | inl e => (s, inl e)
      | inr id => (s, inr (BattleRow <$> filter (λ r, has_id id r) (battle_ids s)))
      end
  | _ => (s, inl (ProtocolViolation (length ps) 1))
  end.

Definition insert_battle_id (ps : list (option string)) (now : Z) (s : Store)
  : Exec :=
  match ps with
  | [name; callsign; role; rank; specialty; ethnicity; dob; strikes_level;
     notes; avatar; status] =>
      match nullable pg_date_in dob with
      | inl e => (s, inl e)
      | inr dob =>
          match nextval "battle_ids_id_seq" (battle_ids_id_seq s) with
          | inl e => (s, inl e)
          | inr id =>
              match
                (let? name := not_null "battle_ids" "name" name in
                 let? _ := check_in "battle_ids" "battle_ids_strikes_level_check"
                             strikes_levels strikes_level in
                 let? _ := require
                             (bool_decide (id ∉ battle_ids.id <$> battle_ids s))
                             (UniqueViolation "battle_ids_pkey") in
                 inr {| battle_ids.id := id;
                        battle_ids.name := name;
                        battle_ids.callsign := callsign;
                        battle_ids.role := role;
                        battle_ids.rank := rank;
                        battle_ids.specialty := specialty;
                        battle_ids.ethnicity := ethnicity;
                        battle_ids.dob := dob;
                        battle_ids.strikes_level := strikes_level;
                        battle_ids.commendations_count := Some 0;
                        battle_ids.notes := notes;
                        battle_ids.avatar := avatar;
                        battle_ids.status := status;
                        battle_ids.created_at := Some now |})
              with
              | inl e => (set_battle_ids s (battle_ids s) (id + 1), inl e)
              | inr r =>
                  (set_battle_ids s (battle_ids s ++ [r]) (id + 1),
                   inr [BattleRow r])
              end
          end
      end
  | _ => (s, inl (ProtocolViolation (length ps) 11))
  end.

Definition update_battle_id (ps : list (option string)) (s : Store) : Exec :=
  match ps with
  | [name; callsign; role; rank; specialty; ethnicity; dob; strikes_level;
     notes; avatar; status; id] =>
      match
        (let? dob := nullable pg_date_in dob in
         let? id := nullable int4_in id in
         update_where (has_id id)
           (λ r,
              let? name := not_null "battle_ids" "name" name in
              let? _ := check_in "battle_ids" "battle_ids_strikes_level_check"
                          strikes_levels strikes_level in
              inr {| battle_ids.id := battle_ids.id r;
                     battle_ids.name := name;
                     battle_ids.callsign := callsign;
                     battle_ids.role := role;
                     battle_ids.rank := rank;
                     battle_ids.specialty := specialty;
                     battle_ids.ethnicity := ethnicity;
                     battle_ids.dob := dob;
                     battle_ids.strikes_level := strikes_level;
                     battle_ids.commendations_count :=
                       battle_ids.commendations_count r;
                     battle_ids.notes := notes;
                     battle_ids.avatar := avatar;
                     battle_ids.status := status;
                     battle_ids.created_at := battle_ids.created_at r |})
           (battle_ids s))
      with
      | inl e => (s, inl e)
      | inr (table, changed) =>
          (set_battle_ids s table (battle_ids_id_seq s), inr (BattleRow <$> changed))
      end
  | _ => (s, inl (ProtocolViolation (length ps) 12))
  end.

(** [ON DELETE CASCADE]: the rows of the three dependent tables that
    reference a deleted operative go with it. *)
Definition delete_battle_id (ps : list (option string)) (s : Store) : Exec :=
  match ps with
  | [id] =>
      match nullable int4_in id with
      | inl e => (s, inl e)
      | inr id =>
          let gone (b : Z) : bool :=
            bool_decide (id = Some b ∧ b ∈ battle_ids.id <$> battle_ids s) in
          ({| battle_ids := filter (λ r, negb (has_id id r)) (battle_ids s);
              battle_ids_id_seq := battle_ids_id_seq s;
              commendations :=
                filter (λ r, negb (gone (commendations.battle_id r)))
                  (commendations s);
              commendations_id_seq := commendations_id_seq s;
              rank_changes :=
                filter (λ r, negb (gone (rank_changes.battle_id r)))
                  (rank_changes s);
              rank_changes_id_seq := rank_changes_id_seq s;
              awards_catalog := awards_catalog s;
              awards_catalog_id_seq := awards_catalog_id_seq s;
              awards :=
                filter (λ r, negb (gone (awards.battle_id r))) (awards s);
              awards_id_seq := awards_id_seq s |},
           inr [])
      end
  | _ => (s, inl (ProtocolViolation (length ps) 1))
  end.

Definition select_awards_catalog (s : Store) : Exec :=
  (s, inr (CatalogRow <$>
             order_by_asc (λ r, Some (awards_catalog.id r)) (awards_catalog s))).

Definition insert_awards_catalog (ps : list (option string)) (s : Store) : Exec :=
  match ps with
  | [code; name; description; icon_url] =>
      match nextval "awards_catalog_id_seq" (awards_catalog_id_seq s) with
      | inl e => (s, inl e)
      | inr id =>
          match
            (let? name := not_null "awards_catalog" "name" name in
             let? _ := require
                         (bool_decide
                            (id ∉ awards_catalog.id <$> awards_catalog s))
                         (UniqueViolation "awards_catalog_pkey") in
             let? _ := require
                         (bool_decide
                            (code = None ∨
                             code ∉ awards_catalog.code <$> awards_catalog s))
                         (UniqueViolation "awards_catalog_code_key") in
             inr {| awards_catalog.id := id;
                    awards_catalog.code := code;
                    awards_catalog.name := name;
                    awards_catalog.description := description;
                    awards_catalog.icon_url := icon_url |})
          with
          | inl e => (set_awards_catalog s (awards_catalog s) (id + 1), inl e)
          | inr r =>
              (set_awards_catalog s (awards_catalog s ++ [r]) (id + 1),
               inr [CatalogRow r])
          end
      end
  | _ => (s, inl (ProtocolViolation (length ps) 4))
  end.

(** [REFERENCES battle_ids(id)]. *)
Definition references_battle_ids (relation constraint : string) (b : Z)
    (s : Store) : PgError + unit :=
  require (bool_decide (b ∈ battle_ids.id <$> battle_ids s))
    (ForeignKeyViolation relation constraint).

Definition insert_award (ps : list (option string)) (now : Z) (s : Store)
  : Exec :=
  match ps with
  | [battle_id; award_id; notes] =>
      match
        (let? battle_id := nullable int4_in battle_id in
         let? award_id := nullable int4_in award_id in
         inr (battle_id, award_id))
      with
      | inl e => (s, inl e)
      | inr (battle_id, award_id) =>
          match nextval "awards_id_seq" (awards_id_seq s) with
          | inl e => (s, inl e)
          | inr id =>
              match
                (let? battle_id := not_null "awards" "battle_id" battle_id in
                 let? award_id := not_null "awards" "award_id" award_id in
                 let? _ := require (bool_decide (id ∉ awards.id <$> awards s))
                             (UniqueViolation "awards_pkey") in
                 let? _ := references_battle_ids "awards"
                             "awards_battle_id_fkey" battle_id s in
                 let? _ := require
                             (bool_decide
                                (award_id ∈ awards_catalog.id <$> awards_catalog s))
                             (ForeignKeyViolation "awards" "awards_award_id_fkey") in
                 inr {| awards.id := id;
                        awards.battle_id := battle_id;
                        awards.award_id := award_id;
                        awards.notes := notes;
                        awards.granted_at := Some now |})
              with
              | inl e => (set_awards s (awards s) (id + 1), inl e)
              | inr r => (set_awards s (awards s ++ [r]) (id + 1), inr [AwardRow r])
              end
          end
      end
  | _ => (s, inl (ProtocolViolation (length ps) 3))
  end.

(** [FROM awards a JOIN awards_catalog c ON a.award_id = c.id]. *)
Definition awards_join_catalog (s : Store)
  : list (awards.row * awards_catalog.row) :=
  a ← awards s;
  (λ c, (a, c)) <$>
    filter (λ c, bool_decide (awards.award_id a = awards_catalog.id c))
      (awards_catalog s).

(** [SELECT a.*, c.name AS award_name, c.icon_url]. *)
Definition award_with_catalog (ac : awards.row * awards_catalog.row) : Row :=
  AwardWithCatalog ac.1 (awards_catalog.name ac.2) (awards_catalog.icon_url ac.2).

Definition select_awards (ps : list (option string)) (s : Store) : Exec :=
  match ps with
  | [battle_id] =>
      match nullable int4_in battle_id with
      | inl e => (s, inl e)
      | inr battle_id =>
          (s,
           inr (award_with_catalog <$>
                  order_by_desc (λ ac, awards.granted_at ac.1)
                    (filter
                       (λ ac, bool_decide
                                (battle_id = Some (awards.battle_id ac.1)))
                       (awards_join_catalog s))))
      end
  | _ => (s, inl (ProtocolViolation (length ps) 1))
  end.

Definition insert_rank_change (ps : list (option string)) (now : Z) (s : Store)
  : Exec :=
  match ps with
  | [id; change_type; from_rank; to_rank; reason] =>
      match nullable int4_in id with
      | inl e => (s, inl e)
      | inr battle_id =>
          match nextval "rank_changes_id_seq" (rank_changes_id_seq s) with
          | inl e => (s, inl e)
          | inr id =>
              match
                (let? battle_id := not_null "rank_changes" "battle_id" battle_id in
                 let? change_type :=
                   not_null "rank_changes" "change_type" change_type in
                 let? _ := check_in "rank_changes" "rank_changes_change_type_check"
                             change_types (Some change_type) in
                 let? _ := require
                             (bool_decide (id ∉ rank_changes.id <$> rank_changes s))
                             (UniqueViolation "rank_changes_pkey") in
                 let? _ := references_battle_ids "rank_changes"
                             "rank_changes_battle_id_fkey" battle_id s in
                 inr {| rank_changes.id := id;
                        rank_changes.battle_id := battle_id;
                        rank_changes.change_type := change_type;
                        rank_changes.from_rank := from_rank;
                        rank_changes.to_rank := to_rank;
                        rank_changes.reason := reason;
                        rank_changes.created_at := Some now |})
              with
              | inl e => (set_rank_changes s (rank_changes s) (id + 1), inl e)
              | inr r =>
                  (set_rank_changes s (rank_changes s ++ [r]) (id + 1),
                   inr [RankChangeRow r])
              end
          end
      end
  | _ => (s, inl (ProtocolViolation (length ps) 5))
  end.

Definition insert_commendation (ps : list (option string)) (now : Z)
    (s : Store) : Exec :=
  match ps with
  | [id; level; notes] =>
      match
        (let? battle_id := nullable int4_in id in
         let? level := nullable int2_in level in
         inr (battle_id, level))
      with
      | inl e => (s, inl e)
      | inr (battle_id, level) =>
          match nextval "commendations_id_seq" (commendations_id_seq s) with
          | inl e => (s, inl e)
          | inr id =>
              match
                (let? battle_id := not_null "commendations" "battle_id" battle_id in
                 let? level := not_null "commendations" "level" level in
                 let? _ := check_in "commendations" "commendations_level_check"
                             commendation_levels (Some level) in
                 let? _ := require
                             (bool_decide
                                (id ∉ commendations.id <$> commendations s))
                             (UniqueViolation "commendations_pkey") in
                 let? _ := references_battle_ids "commendations"
                             "commendations_battle_id_fkey" battle_id s in
                 inr {| commendations.id := id;
                        commendations.battle_id := battle_id;
                        commendations.level := level;
                        commendations.notes := notes;
                        commendations.created_at := Some now |})
              with
              | inl e => (set_commendations s (commendations s) (id + 1), inl e)
              | inr r =>
                  (set_commendations s (commendations s ++ [r]) (id + 1),
                   inr [CommendationRow r])
              end
          end
      end
  | _ => (s, inl (ProtocolViolation (length ps) 3))
  end.

(** [commendations_count + 1] assigned to a [SMALLINT] column: NULL stays
    NULL, a sum above 32767 is an error. *)
Definition bump_commendations_count (r : battle_ids.row)
  : PgError + battle_ids.row :=
  let? count :=
    match battle_ids.commendations_count r with
    | None => inr None
    | Some c =>
        if c + 1 <=? INT2_MAX then inr (Some (c + 1))
        else inl (NumericValueOutOfRange "smallint")
    end in
  inr {| battle_ids.id := battle_ids.id r;
         battle_ids.name := battle_ids.name r;
         battle_ids.callsign := battle_ids.callsign r;
         battle_ids.role := battle_ids.role r;
         battle_ids.rank := battle_ids.rank r;
         battle_ids.specialty := battle_ids.specialty r;
         battle_ids.ethnicity := battle_ids.ethnicity r;
         battle_ids.dob := battle_ids.dob r;
         battle_ids.strikes_level := battle_ids.strikes_level r;
         battle_ids.commendations_count := count;
         battle_ids.notes := battle_ids.notes r;
         battle_ids.avatar := battle_ids.avatar r;
         battle_ids.status := battle_ids.status r;
         battle_ids.created_at := battle_ids.created_at r |}.

Definition update_commendations_count (ps : list (option string)) (s : Store)
  : Exec :=
  match ps with
  | [id] =>
      match
        (let? id := nullable int4_in id in
         update_where (has_id id) bump_commendations_count (battle_ids s))
      with
      | inl e => (s, inl e)
      | inr (table, _) => (set_battle_ids s table (battle_ids_id_seq s), inr [])
      end
  | _ => (s, inl (ProtocolViolation (length ps) 1))
  end.

(** The meaning of a statement with its parameters at server time [now].
    Every text is taken as a parameter and as a key of an index here; the
    server refuses a parameter that holds U+0000 and an index key too long
    for a b-tree entry: [sendable] and [fits_index_entry] below say which
    texts are neither. *)
Definition exec (q : Stmt) (ps : list (option string)) (now : Z) (s : Store)
  : Exec :=
  match q with
  | SelectNow => select_now now s
  | SelectBattleIds => select_battle_ids s
  | SelectBattleId => select_battle_id ps s
  | InsertBattleId => insert_battle_id ps now s
  | UpdateBattleId => update_battle_id ps s
  | DeleteBattleId => delete_battle_id ps s
  | SelectAwardsCatalog => select_awards_catalog s
  | InsertAwardsCatalog => insert_awards_catalog ps s
  | InsertAward => insert_award ps now s
  | SelectAwards => select_awards ps s
  | InsertRankChange => insert_rank_change ps now s
  | InsertCommendation => insert_commendation ps now s
  | UpdateCommendationsCount => update_commendations_count ps s
  end.

End Database.

(** ** Requests, responses and the handler monad *)

Record Request := {
  origin : JsVal;                 (* req.headers.origin *)
  params : gmap string string;    (* req.params *)
  body : gmap string JsVal }.     (* req.body after express.json() *)

(** [req.params.k] as a query argument. *)
Definition param (req : Request) (k : string) : JsVal :=
  match params req !! k with
  | Some v => JStr v
  | None => JUndefined
  end.

(** The argument of [res.json], over the type [R] of result rows. *)
Inductive Json (R : Type) :=
| JsonRows (rows : list R)                 (* result.rows *)
| JsonRow (row : option R)                 (* result.rows[0], maybe undefined *)
| JsonSuccess (success : bool)             (* { success: true } *)
| JsonError (error : string)               (* { error: ... } *)
| JsonStatus (status : string) (db : bool)
| JsonUp (status : string) (db : bool) (time : Z)
| JsonDown (status : string) (db : bool) (error : string).
Arguments JsonRows {R} rows.
Arguments JsonRow {R} row.
Arguments JsonSuccess {R} success.
Arguments JsonError {R} error.
Arguments JsonStatus {R} status db.
Arguments JsonUp {R} status db time.
Arguments JsonDown {R} status db error.

Record Response (R : Type) := { status : Z; json : Json R }.
Arguments status {R} r.
Arguments json {R} r.

Inductive JsError :=
| DatabaseError (e : PgError)
| TypeError (msg : string)
| Error (msg : string).

(** [err.message]. *)
Definition js_message (err : JsError) : string :=
  match err with
  | DatabaseError e => message e
  | TypeError msg => msg
  | Error msg => msg
  end.

(** What one statement meets when it is sent: a failure of the client or
    of the connection, and the server clock read by [NOW()].  A failure
    here is one that keeps the statement from running.  A connection lost
    after the store ran the statement, which rejects the promise over a
    database already changed, is not in [Env]: a statement about what a
    failed request left behind takes the connection to hold. *)
Record Env := { fault : option string; now : Z }.

(** An [async] function body over a world [W]: it returns or throws. *)
Inductive Outcome (A : Type) :=
| Normal (a : A)
| Throw (err : JsError).
Arguments Normal {A} a.
Arguments Throw {A} err.

Definition M (W A : Type) : Type := W → Outcome A * W.

Definition ret {W A} (a : A) : M W A := λ w, (Normal a, w).

Definition bind {W A B} (m : M W A) (k : A → M W B) : M W B :=
  λ w, match m w with
       | (Normal a, w') => k a w'
       | (Throw err, w') => (Throw err, w')
       end.

Definition throw {W A} (err : JsError) : M W A := λ w, (Throw err, w).

(** [try { body } catch (err) { handler }]. *)
Definition try_catch {W A} (body : M W A) (handler : JsError → M W A) : M W A :=
  λ w, match body w with
       | (Normal a, w') => (Normal a, w')
       | (Throw err, w') => handler err w'
       end.

Notation "x <~ m ;; k" := (bind m (λ x, k))
  (at level 100, m at next level, k at level 200, right associativity).
Notation "'try' b 'catch' err => h" := (try_catch b (λ err, h))
  (at level 10, b at level 200, err name, h at level 200).

(** [res.json(j)] and [res.status(code).json(j)]. *)
Definition res_json {W R} (j : Json R) : M W (Response R) :=
  ret {| status := 200; json := j |}.
Definition res_status_json {W R} (code : Z) (j : Json R) : M W (Response R) :=
  ret {| status := code; json := j |}.

(** A statement the process has sent, with the error it met if any. *)
Record Sent := {
  text : Stmt;
  values : list (option string);
  failure : option PgError }.

(** The error of the first statement that failed. *)
Fixpoint first_failure (l : list Sent) : option PgError :=
  match l with
  | [] => None
  | st :: l' =>
      match failure st with
      | Some err => Some err
      | None => first_failure l'
      end
  end.

(** The world of the schema-rich server: the database and the record of
    the statements sent so far, oldest first. *)
Record World := { db : Store; sent : list Sent }.

Section Server.

Variable date_in : string → option Z.

(** The environment of the [k]-th statement the process sends. *)
Variable env : nat → Env.

(** [await pool.query(text, values)]. *)
Definition pool_query (q : Stmt) (values : list JsVal) : M World (list Row) :=
  λ w,
    let e := env (length (sent w)) in
    let ps := prepareValue <$> values in
    match fault e with
    | Some msg =>
        let err := ConnectionFailure msg in
        (Throw (DatabaseError err),
         {| db := db w;
            sent := sent w ++ [{| text := q; values := ps; failure := Some err |}] |})
    | None =>
        match exec date_in q ps (now e) (db w) with
        | (s, inl err) =>
            (Throw (DatabaseError err),
             {| db := s;
                sent := sent w
                        ++ [{| text := q; values := ps; failure := Some err |}] |})
        | (s, inr rows) =>
            (Normal rows,
             {| db := s;
                sent := sent w
                        ++ [{| text := q; values := ps; failure := None |}] |})
        end
    end.

(** [GET /]. *)
Definition get_root (req : Request) : M World (Response Row) :=
  try
    (result <~ pool_query SelectNow [] ;;
     match head result with
     | Some (NowRow time) =>
         res_json (JsonUp "✅ RRC BattleID API běží" true time)
     | _ => throw (TypeError "Cannot read properties of undefined (reading 'now')")
     end)
  catch err =>
    res_json (JsonDown "❌ DB not connected" false (js_message err)).

(** [GET /api/battle]. *)
Definition get_api_battle (req : Request) : M World (Response Row) :=
  try
    (result <~ pool_query SelectBattleIds [] ;;
     res_json (JsonRows result))
  catch err => res_status_json 500 (JsonError (js_message err)).

(** [GET /api/battle/:id]. *)
Definition get_api_battle_id (req : Request) : M World (Response Row) :=
  try
    (result <~ pool_query SelectBattleId [param req "id"] ;;
     res_json (JsonRow (head result)))
  catch err => res_status_json 500 (JsonError (js_message err)).

(** [POST /api/battle]. *)
Definition post_api_battle (req : Request) : M World (Response Row) :=
  try
    (let name := field (body req) "name" in
     let callsign := field (body req) "callsign" in
     let role := field (body req) "role" in
     let rank := field (body req) "rank" in
     let specialty := field (body req) "specialty" in
     let ethnicity := field (body req) "ethnicity" in
     let dob := field (body req) "dob" in
     let strikes_level := field (body req) "strikes_level" in
     let notes := field (body req) "notes" in
     let avatar := field (body req) "avatar" in
     let status := field (body req) "status" in
     result <~ pool_query InsertBattleId
                 [name; callsign; role; rank; specialty; ethnicity; dob;
                  js_or strikes_level (JStr "0"); notes; avatar;
                  js_or status (JStr "active")] ;;
     res_json (JsonRow (head result)))
  catch err => res_status_json 500 (JsonError (js_message err)).

(** [PUT /api/battle/:id]. *)
Definition put_api_battle_id (req : Request) : M World (Response Row) :=
  try
    (let id := param req "id" in
     let name := field (body req) "name" in
     let callsign := field (body req) "callsign" in
     let role := field (body req) "role" in
     let rank := field (body req) "rank" in
     let specialty := field (body req) "specialty" in
     let ethnicity := field (body req) "ethnicity" in
     let dob := field (body req) "dob" in
     let strikes_level := field (body req) "strikes_level" in
     let notes := field (body req) "notes" in
     let avatar := field (body req) "avatar" in
     let status := field (body req) "status" in
     result <~ pool_query UpdateBattleId
                 [name; callsign; role; rank; specialty; ethnicity; dob;
                  strikes_level; notes; avatar; status; id] ;;
     res_json (JsonRow (head result)))
  catch err => res_status_json 500 (JsonError (js_message err)).

(** [DELETE /api/battle/:id]. *)
Definition delete_api_battle_id (req : Request) : M World (Response Row) :=
  try
    (_ <~ pool_query DeleteBattleId [param req "id"] ;;
     res_json (JsonSuccess true))
  catch err => res_status_json 500 (JsonError (js_message err)).

(** [GET /api/awards/catalog]. *)
Definition get_api_awards_catalog (req : Request) : M World (Response Row) :=
  try
    (result <~ pool_query SelectAwardsCatalog [] ;;
     res_json (JsonRows result))
  catch err => res_status_json 500 (JsonError (js_message err)).

(** [POST /api/awards/catalog]. *)
Definition post_api_awards_catalog (req : Request) : M World (Response Row) :=
  try
    (let code := field (body req) "code" in
     let name := field (body req) "name" in
     let description := field (body req) "description" in
     let icon_url := field (body req) "icon_url" in
     result <~ pool_query InsertAwardsCatalog [code; name; description; icon_url] ;;
     res_json (JsonRow (head result)))
  catch err => res_status_json 500 (JsonError (js_message err)).

(** [POST /api/awards/:battle_id]. *)
Definition post_api_awards_battle_id (req : Request) : M World (Response Row) :=
  try
    (let battle_id := param req "battle_id" in
     let award_id := field (body req) "award_id" in
     let notes := field (body req) "notes" in
     result <~ pool_query InsertAward [battle_id; award_id; notes] ;;
     res_json (JsonRow (head result)))
  catch err => res_status_json 500 (JsonError (js_message err)).

(** [GET /api/awards/:battle_id]. *)
Definition get_api_awards_battle_id (req : Request) : M World (Response Row) :=
  try
    (let battle_id := param req "battle_id" in
     result <~ pool_query SelectAwards [battle_id] ;;
     res_json (JsonRows result))
  catch err => res_status_json 500 (JsonError (js_message err)).

(** [POST /api/battle/:id/rank-change]. *)
Definition post_api_battle_id_rank_change (req : Request) : M World (Response Row) :=
  try
    (let id := param req "id" in
     let change_type := field (body req) "change_type" in
     let from_rank := field (body req) "from_rank" in
     let to_rank := field (body req) "to_rank" in
     let reason := field (body req) "reason" in
     result <~ pool_query InsertRankChange
                 [id; change_type; from_rank; to_rank; reason] ;;
     res_json (JsonRow (head result)))
  catch err => res_status_json 500 (JsonError (js_message err)).

(** [POST /api/battle/:id/commendation]. *)
Definition post_api_battle_id_commendation (req : Request) : M World (Response Row) :=
  try
    (let id := param req "id" in
     let level := field (body req) "level" in
     let notes := field (body req) "notes" in
     result <~ pool_query InsertCommendation [id; level; notes] ;;
     _ <~ pool_query UpdateCommendationsCount [id] ;;
     res_json (JsonRow (head result)))
  catch err => res_status_json 500 (JsonError (js_message err)).

(** The commendation grant invoked once per request, in order. *)
Fixpoint grants (reqs : list Request) : M World (list (Response Row)) :=
  match reqs with
  | [] => ret []
  | req :: reqs' =>
      res <~ post_api_battle_id_commendation req ;;
      rest <~ grants reqs' ;;
      ret (res :: rest)
  end.

(** The route table of [app]. *)
Inductive Route :=
| GET_root
| GET_api_battle
| GET_api_battle_id
| POST_api_battle
| PUT_api_battle_id
| DELETE_api_battle_id
| GET_api_awards_catalog
| POST_api_awards_catalog
| POST_api_awards_battle_id
| GET_api_awards_battle_id
| POST_api_battle_id_rank_change
| POST_api_battle_id_commendation.

Definition handler (r : Route) : Request → M World (Response Row) :=
  match r with
  | GET_root => get_root
  | GET_api_battle => get_api_battle
  | GET_api_battle_id => get_api_battle_id
  | POST_api_battle => post_api_battle
  | PUT_api_battle_id => put_api_battle_id
  | DELETE_api_battle_id => delete_api_battle_id
  | GET_api_awards_catalog => get_api_awards_catalog
  | POST_api_awards_catalog => post_api_awards_catalog
  | POST_api_awards_battle_id => post_api_awards_battle_id
  | GET_api_awards_battle_id => get_api_awards_battle_id
  | POST_api_battle_id_rank_change => post_api_battle_id_rank_change
  | POST_api_battle_id_commendation => post_api_battle_id_commendation
  end.


(** ** Cross-origin policy *)

(** The tokens of an array literal of strings. *)
Inductive Token :=
| LBracket
| RBracket
| Comma
| Str (s : string).

(** The elements of an array literal from the token after [[] on: a comma
    with no element before it leaves a hole, a comma may end the list, and
    two elements with no comma between them are a syntax error, as is
    anything after the closing bracket. *)
Fixpoint element_list (after_element : bool) (ts : list Token)
  : option (list JsVal) :=
  match ts with
  | [RBracket] => Some []
  | Str s :: ts' =>
      if after_element then None
      else cons (JStr s) <$> element_list true ts'
  | Comma :: ts' =>
      if after_element then element_list false ts'
      else cons JUndefined <$> element_list false ts'
  | _ => None
  end.

(** The value of an array literal, [None] when it does not parse. *)
Definition array_literal (ts : list Token) : option (list JsVal) :=
  match ts with
  | LBracket :: ts' => element_list false ts'
  | _ => None
  end.

(** The initializer of [allowedOrigins] as the source has it: no comma
    stands between its second and its third string. *)
Definition allowedOrigins_literal : list Token :=
  [LBracket;
   Str "https://redroofcomp.up.railway.app"; Comma;
   Str "http://localhost:3000";
   Str "database4-production.up.railway.app";
   RBracket].

(** The three strings the initializer lists, in source order: the array it
    denotes once the comma it lacks is put between the second and the
    third.  As the source stands the literal does not parse and the module
    does not load; everything below about the schema-rich server is about
    the module with that comma in place. *)
Definition allowedOrigins : list string :=
  ["https://redroofcomp.up.railway.app";
   "http://localhost:3000";
   "database4-production.up.railway.app"].

(** [allowedOrigins.includes(origin)]. *)
Definition includes (l : list string) (v : JsVal) : bool :=
  match v with
  | JStr s => bool_decide (s ∈ l)
  | _ => false
  end.

(** The text of a value in a string concatenation. *)
Definition to_string (v : JsVal) : string :=
  match v with
  | JUndefined => "undefined"
  | JNull => "null"
  | JBool b => if b then "true" else "false"
  | JNum z => decimal z
  | JStr s => s
  end.

(** The [origin] function of the options given to [cors]: the two
    arguments of its call to [callback], an error or the decision. *)
Definition cors_origin (origin : JsVal) : JsError + bool :=
  if negb (truthy origin) || includes allowedOrigins origin then inr true
  else inl (Error ("CORS blokován pro origin: " +:+ to_string origin)).

(** [credentials: true]. *)
Definition cors_credentials : bool := true.

(** What the client gets back: the answer of a handler under the headers
    set by the CORS middleware, or the answer of Express's error handler
    when a middleware passed an error to [next]. *)
Inductive Reply :=
| Replied (allow_origin : JsVal) (allow_credentials : bool)
    (res : Response Row)
| Failed (status : Z) (err : JsError).

(** The middleware chain in front of the routes: [cors(options)], then the
    handler of the route.  When the callback allows the request the
    middleware reflects the request's origin in
    [Access-Control-Allow-Origin], a header it sets only for a truthy
    value, and sets [Access-Control-Allow-Credentials]; when the callback
    gives [false] it sets no header at all. *)
Definition app (r : Route) (req : Request) : M World Reply :=
  match cors_origin (origin req) with
  | inl err => ret (Failed 500 err)
  | inr allow =>
      res <~ handler r req ;;
      ret (if allow
           then Replied (if truthy (origin req) then origin req else JUndefined)
                  cors_credentials res
           else Replied JUndefined false res)
  end.

(** The server process: an exception that leaves a handler is an unhandled
    rejection, which ends the process. *)
Inductive Process :=
| Running (w : World)
| Crashed (err : JsError).

Definition deliver (p : Process) (r : Route) (req : Request)
  : Process * option Reply :=
  match p with
  | Crashed err => (Crashed err, None)
  | Running w =>
      match app r req w with
      | (Normal reply, w') => (Running w', Some reply)
      | (Throw err, _) => (Crashed err, None)
      end
  end.

Fixpoint serve (p : Process) (reqs : list (Route * Request))
  : Process * list (option Reply) :=
  match reqs with
  | [] => (p, [])
  | (r, req) :: reqs' =>
      let '(p', reply) := deliver p r req in
      let '(p'', replies) := serve p' reqs' in
      (p'', reply :: replies)
  end.

(** [emitter.emit('error', err)]: the listeners run in order; with no
    listener registered the emitter throws [err]. *)
Definition emit_error {W} (listeners : list (JsError → W → W)) (err : JsError)
  : M W unit :=
  match listeners with
  | [] => throw err
  | _ => λ w, (Normal tt, foldl (λ w' listener, listener err w') w listeners)
  end.

(** The listeners the module registers on [pool] for ['error']: none, the
    source never calls [pool.on]. *)
Definition pool_error_listeners : list (JsError → World → World) := [].

(** What happens to the running server: a request arrives, or a connection
    that lies idle in the pool is lost, which the pool reports by emitting
    ['error'] outside any request. *)
Inductive Occurrence :=
| Arrives (r : Route) (req : Request)
| IdleClientError (err : PgError).

Definition is_arrival (o : Occurrence) : bool :=
  match o with
  | Arrives _ _ => true
  | IdleClientError _ => false
  end.

(** An exception nobody catches ends the process, whether it leaves a
    handler or an emitter. *)
Definition occur (p : Process) (o : Occurrence) : Process * option Reply :=
  match o with
  | Arrives r req => deliver p r req
  | IdleClientError err =>
      match p with
      | Crashed e => (Crashed e, None)
      | Running w =>
          match emit_error pool_error_listeners (DatabaseError err) w with
          | (Normal _, w') => (Running w', None)
          | (Throw e, _) => (Crashed e, None)
          end
      end
  end.

Fixpoint live (p : Process) (os : list Occurrence)
  : Process * list (option Reply) :=
  match os with
  | [] => (p, [])
  | o :: os' =>
      let '(p', reply) := occur p o in
      let '(p'', replies) := live p' os' in
      (p'', reply :: replies)
  end.

End Server.

(** ** The legacy server

    Its table [battle_ids] is created outside the repository: the row type,
    its [id] column and the meaning of the three writing statements on that
    schema are parameters.  [SELECT * ... ORDER BY id DESC] needs the [id]
    column only. *)
Module Legacy.

Inductive Stmt :=
| SelectBattleIds   (* SELECT * FROM battle_ids ORDER BY id DESC *)
| InsertBattleId    (* INSERT INTO battle_ids (...) VALUES ($1..$7) RETURNING * *)
| UpdateBattleId    (* UPDATE battle_ids SET ... WHERE id=$8 RETURNING * *)
| DeleteBattleId.   (* DELETE FROM battle_ids WHERE id=$1 *)

Section Server.

Variable row : Type.
Variable id : row → Z.
Variable dml : Stmt → list (option string) → list row
               → list row * (PgError + list row).

(** [process.env.DATABASE_URL]. *)
Variable DATABASE_URL : JsVal.

Variable env : nat → Env.

Record Sent := {
  text : Stmt;
  values : list (option string);
  failure : option PgError }.

Fixpoint first_failure (l : list Sent) : option PgError :=
  match l with
  | [] => None
  | st :: l' =>
      match failure st with
      | Some err => Some err
      | None => first_failure l'
      end
  end.

Record World := {
  battle_ids : list row;
  sent : list Sent;
  console : list (string * JsError) }.

Definition exec (q : Stmt) (ps : list (option string)) (rows : list row)
  : list row * (PgError + list row) :=
  match q with
  | SelectBattleIds => (rows, inr (order_by_desc (λ r, Some (id r)) rows))
  | _ => dml q ps rows
  end.

(** [await pool.query(text, values)]. *)
Definition pool_query (q : Stmt) (values : list JsVal) : M World (list row) :=
  λ w,
    let e := env (length (sent w)) in
    let ps := prepareValue <$> values in
    match fault e with
    | Some msg =>
        let err := ConnectionFailure msg in
        (Throw (DatabaseError err),
         {| battle_ids := battle_ids w;
            sent := sent w ++ [{| text := q; values := ps; failure := Some err |}];
            console := console w |})
    | None =>
        match exec q ps (battle_ids w) with
        | (rows, inl err) =>
            (Throw (DatabaseError err),
             {| battle_ids := rows;
                sent := sent w
                        ++ [{| text := q; values := ps; failure := Some err |}];
                console := console w |})
        | (rows, inr result) =>
            (Normal result,
             {| battle_ids := rows;
                sent := sent w
                        ++ [{| text := q; values := ps; failure := None |}];
                console := console w |})
        end
    end.

(** [console.error(label, err)]. *)
Definition console_error (label : string) (err : JsError) : M World unit :=
  λ w, (Normal tt,
        {| battle_ids := battle_ids w; sent := sent w;
           console := console w ++ [(label, err)] |}).

(** [GET /]. *)
Definition get_root (req : Request) : M World (Response row) :=
  res_json (JsonStatus "✅ BattleIDs API running" (truthy DATABASE_URL)).

(** [GET /api/battle]. *)
Definition get_api_battle (req : Request) : M World (Response row) :=
  try
    (rows <~ pool_query SelectBattleIds [] ;;
     res_json (JsonRows rows))
  catch err =>
    (_ <~ console_error "❌ Chyba SELECT:" err ;;
     res_status_json 500 (JsonError "Chyba při načítání dat")).

(** [POST /api/battle]. *)
Definition post_api_battle (req : Request) : M World (Response row) :=
  try
    (let name := field (body req) "name" in
     let callsign := field (body req) "callsign" in
     let role := field (body req) "role" in
     let status := field (body req) "status" in
     let strikes := field (body req) "strikes" in
     let avatar := field (body req) "avatar" in
     let notes := field (body req) "notes" in
     rows <~ pool_query InsertBattleId
               [name; callsign; role; status; js_or strikes (JNum 0); avatar;
                notes] ;;
     res_json (JsonRow (head rows)))
  catch err =>
    (_ <~ console_error "❌ Chyba INSERT:" err ;;
     res_status_json 500 (JsonError "Chyba při ukládání operativce")).

(** [PUT /api/battle/:id]. *)
Definition put_api_battle_id (req : Request) : M World (Response row) :=
  try
    (let id := param req "id" in
     let name := field (body req) "name" in
     let callsign := field (body req) "callsign" in
     let role := field (body req) "role" in
     let status := field (body req) "status" in
     let strikes := field (body req) "strikes" in
     let avatar := field (body req) "avatar" in
     let notes := field (body req) "notes" in
     rows <~ pool_query UpdateBattleId
               [name; callsign; role; status; strikes; avatar; notes; id] ;;
     res_json (JsonRow (head rows)))
  catch err =>
    (_ <~ console_error "❌ Chyba UPDATE:" err ;;
     res_status_json 500 (JsonError "Chyba při úpravě operativce")).

(** [DELETE /api/battle/:id]. *)
Definition delete_api_battle_id (req : Request) : M World (Response row) :=
  try
    (_ <~ pool_query DeleteBattleId [param req "id"] ;;
     res_json (JsonSuccess true))
  catch err =>
    (_ <~ console_error "❌ Chyba DELETE:" err ;;
     res_status_json 500 (JsonError "Chyba při mazání operativce")).

Inductive Route :=
| GET_root
| GET_api_battle
| POST_api_battle
| PUT_api_battle_id
| DELETE_api_battle_id.

Definition handler (r : Route) : Request → M World (Response row) :=
  match r with
  | GET_root => get_root
  | GET_api_battle => get_api_battle
  | POST_api_battle => post_api_battle
  | PUT_api_battle_id => put_api_battle_id
  | DELETE_api_battle_id => delete_api_battle_id
  end.

(** The text each [catch] block answers with. *)
Definition error_text (r : Route) : string :=
  match r with
  | GET_root => ""
  | GET_api_battle => "Chyba při načítání dat"
  | POST_api_battle => "Chyba při ukládání operativce"
  | PUT_api_battle_id => "Chyba při úpravě operativce"
  | DELETE_api_battle_id => "Chyba při mazání operativce"
  end.

End Server.

End Legacy.

(** ** The bootstrap routines over the system catalog

    [initTables] and [ensureIdSequence] change the schema: the catalog
    [pg_class] of relations by name, with the definition of each table and
    the state of each sequence. *)
Module Schema.

Inductive column_type := SERIAL | TEXT | DATE | SMALLINT | INTEGER | TIMESTAMP.

Inductive default_expr :=
| DefaultText (text : string)
| DefaultNumber (z : Z)
| DefaultNow
| DefaultNextval (sequence : string).

Inductive on_delete := CASCADE | RESTRICT.

Record column := {
  col_name : string;
  col_type : column_type;
  primary_key : bool;
  not_null : bool;
  unique : bool;
  check_in : list string;
  col_default : option default_expr;
  references : option (string * string * on_delete) }.

(** A sequence: the value the next [nextval] returns and its bounds. *)
Record sequence := { next : Z; minvalue : Z; maxvalue : Z }.

Inductive pg_relation :=
| Table (columns : list column)
| Sequence (sq : sequence)
| Index (table : string).

Record Database := {
  pg_class : gmap string pg_relation;
  battle_ids : list Z }.      (* the [id] of each row of [battle_ids] *)

(** Column definitions as the DDL writes them. *)
Definition col (name : string) (type : column_type) : column :=
  {| col_name := name; col_type := type; primary_key := false;
     not_null := false; unique := false; check_in := [];
     col_default := None; references := None |}.

Definition PRIMARY_KEY (c : column) : column :=
  {| col_name := col_name c; col_type := col_type c; primary_key := true;
     not_null := true; unique := unique c; check_in := check_in c;
     col_default := col_default c; references := references c |}.

Definition NOT_NULL (c : column) : column :=
  {| col_name := col_name c; col_type := col_type c;
     primary_key := primary_key c; not_null := true; unique := unique c;
     check_in := check_in c; col_default := col_default c;
     references := references c |}.

Definition UNIQUE (c : column) : column :=
  {| col_name := col_name c; col_type := col_type c;
     primary_key := primary_key c; not_null := not_null c; unique := true;
     check_in := check_in c; col_default := col_default c;
     references := references c |}.

Definition CHECK_IN (allowed : list string) (c : column) : column :=
  {| col_name := col_name c; col_type := col_type c;
     primary_key := primary_key c; not_null := not_null c; unique := unique c;
     check_in := allowed; col_default := col_default c;
     references := references c |}.

Definition DEFAULT (d : default_expr) (c : column) : column :=
  {| col_name := col_name c; col_type := col_type c;
     primary_key := primary_key c; not_null := not_null c; unique := unique c;
     check_in := check_in c; col_default := Some d;
     references := references c |}.

Definition REFERENCES (table key : string) (od : on_delete) (c : column)
  : column :=
  {| col_name := col_name c; col_type := col_type c;
     primary_key := primary_key c; not_null := not_null c; unique := unique c;
     check_in := check_in c; col_default := col_default c;
     references := Some (table, key, od) |}.

(** The five [CREATE TABLE IF NOT EXISTS] of [initTables]. *)
Definition battle_ids_ddl : list column :=
  [ PRIMARY_KEY (col "id" SERIAL);
    NOT_NULL (col "name" TEXT);
    col "callsign" TEXT;
    col "role" TEXT;
    col "rank" TEXT;
    col "specialty" TEXT;
    col "ethnicity" TEXT;
    col "dob" DATE;
    DEFAULT (DefaultText "0")
      (CHECK_IN ["0"; "1"; "2"; "3"; "exterminato"] (col "strikes_level" TEXT));
    DEFAULT (DefaultNumber 0) (col "commendations_count" SMALLINT);
    col "notes" TEXT;
    col "avatar" TEXT;
    DEFAULT (DefaultText "active") (col "status" TEXT);
    DEFAULT DefaultNow (col "created_at" TIMESTAMP) ].

Definition commendations_ddl : list column :=
  [ PRIMARY_KEY (col "id" SERIAL);
    REFERENCES "battle_ids" "id" CASCADE (NOT_NULL (col "battle_id" INTEGER));
    CHECK_IN ["1"; "2"; "3"] (NOT_NULL (col "level" SMALLINT));
    col "notes" TEXT;
    DEFAULT DefaultNow (col "created_at" TIMESTAMP) ].

Definition rank_changes_ddl : list column :=
  [ PRIMARY_KEY (col "id" SERIAL);
    REFERENCES "battle_ids" "id" CASCADE (NOT_NULL (col "battle_id" INTEGER));
    CHECK_IN ["promotion"; "demotion"] (NOT_NULL (col "change_type" TEXT));
    col "from_rank" TEXT;
    col "to_rank" TEXT;
    col "reason" TEXT;
    DEFAULT DefaultNow (col "created_at" TIMESTAMP) ].

Definition awards_catalog_ddl : list column :=
  [ PRIMARY_KEY (col "id" SERIAL);
    UNIQUE (col "code" TEXT);
    NOT_NULL (col "name" TEXT);
    col "description" TEXT;
    col "icon_url" TEXT ].

Definition awards_ddl : list column :=
  [ PRIMARY_KEY (col "id" SERIAL);
    REFERENCES "battle_ids" "id" CASCADE (NOT_NULL (col "battle_id" INTEGER));
    REFERENCES "awards_catalog" "id" RESTRICT (NOT_NULL (col "award_id" INTEGER));
    col "notes" TEXT;
    DEFAULT DefaultNow (col "granted_at" TIMESTAMP) ].

Definition is_free (pg : gmap string pg_relation) (name : string) : bool :=
  match pg !! name with
  | None => true
  | Some _ => false
  end.

(** The name PostgreSQL gives an implicit sequence or index: the wanted
    name, or the first of name1, name2, ... that is free. *)
Fixpoint choose_relname_from (fuel : nat) (pass : Z) (name : string)
    (pg : gmap string pg_relation) : string :=
  match fuel with
  | O => name +:+ decimal pass
  | S fuel' =>
      if is_free pg (name +:+ decimal pass) then name +:+ decimal pass
      else choose_relname_from fuel' (pass + 1) name pg
  end.

Definition choose_relname (name : string) (pg : gmap string pg_relation)
  : string :=
  if is_free pg name then name else choose_relname_from (size pg) 1 name pg.

Definition has_column (cols : list column) (name : string) : bool :=
  bool_decide (Exists (λ c, col_name c = name) cols).

(** A foreign key needs a table with that column under a unique index. *)
Definition referenced_ok (pg : gmap string pg_relation) (c : column)
  : PgError + unit :=
  match references c with
  | None => inr tt
  | Some (table, key, _) =>
      match pg !! table with
      | Some (Table cols) =>
          let? _ := require (has_column cols key)
                      (UndefinedReferencedColumn key) in
          require
            (bool_decide
               (Exists (λ k, col_name k = key
                             ∧ (primary_key k = true ∨ unique k = true)) cols))
            (InvalidForeignKey table)
      | Some _ => inl (ReferencedNotATable table)
      | None => inl (UndefinedTable table)
      end
  end.

Fixpoint all_referenced_ok (pg : gmap string pg_relation) (cols : list column)
  : PgError + unit :=
  match cols with
  | [] => inr tt
  | c :: cols' =>
      let? _ := referenced_ok pg c in
      all_referenced_ok pg cols'
  end.

(** The relations a column brings with it, and the column as stored: a
    [SERIAL] column is an [INTEGER NOT NULL] whose default is [nextval] of
    a new sequence; a primary key or unique column gets an index. *)
Definition add_column (table : string)
    (acc : gmap string pg_relation * list column) (c : column)
  : gmap string pg_relation * list column :=
  let '(pg, cols) := acc in
  let '(pg, c) :=
    match col_type c with
    | SERIAL =>
        let sq := choose_relname (table +:+ "_" +:+ col_name c +:+ "_seq") pg in
        (<[sq := Sequence {| next := 1; minvalue := 1; maxvalue := INT4_MAX |}]> pg,
         {| col_name := col_name c; col_type := INTEGER;
            primary_key := primary_key c; not_null := true;
            unique := unique c; check_in := check_in c;
            col_default := Some (DefaultNextval sq);
            references := references c |})
    | _ => (pg, c)
    end in
  let pg :=
    if primary_key c
    then <[choose_relname (table +:+ "_pkey") pg := Index table]> pg
    else if unique c
    then <[choose_relname (table +:+ "_" +:+ col_name c +:+ "_key") pg
           := Index table]> pg
    else pg in
  (pg, (cols ++ [c])).

(** [CREATE TABLE IF NOT EXISTS name (cols)]: nothing happens when a
    relation of that name exists. *)
Definition create_table_if_not_exists (name : string) (cols : list column)
    (d : Database) : PgError + Database :=
  if is_free (pg_class d) name then
    let? _ := all_referenced_ok (pg_class d) cols in
    let '(pg, stored) :=
      foldl (add_column name) (<[name := Table []]> (pg_class d), []) cols in
    inr {| pg_class := <[name := Table stored]> pg;
           battle_ids := battle_ids d |}
  else inr d.

(** [COALESCE(MAX(id), 0)]. *)
Definition coalesce_max_id (ids : list Z) : Z :=
  match ids with
  | [] => 0
  | x :: l => foldr Z.max x l
  end.

(** [ALTER TABLE ... ALTER COLUMN name SET DEFAULT d]. *)
Definition set_default (name : string) (d : default_expr) (cols : list column)
  : list column :=
  (λ c, if String.eqb (col_name c) name then DEFAULT d c else c) <$> cols.

(** The [DO $$ ... $$] block of [ensureIdSequence]; it runs in one
    transaction, so an error leaves the database as it was. *)
Definition repair_id_sequence (d : Database) : PgError + Database :=
  match pg_class d !! "battle_ids" with
  | None => inl (UndefinedTable "battle_ids")
  | Some (Table cols) =>
      let? _ := require (has_column cols "id")
                  (UndefinedColumn "battle_ids" "id") in
      (* SELECT COALESCE(MAX(id), 0) + 1 INTO max_id, an integer *)
      let max_id := coalesce_max_id (battle_ids d) + 1 in
      let? _ := require ((INT4_MIN <=? max_id) && (max_id <=? INT4_MAX))
                  (NumericValueOutOfRange "integer") in
      match pg_class d !! "battle_ids_id_seq" with
      | None =>
          (* CREATE SEQUENCE battle_ids_id_seq START max_id *)
          let? _ := require (1 <=? max_id)
                      (InvalidSequenceBound "START" max_id
                         "less than MINVALUE" 1) in
          let sq := {| next := max_id; minvalue := 1; maxvalue := INT8_MAX |} in
          (* ALTER TABLE battle_ids ALTER COLUMN id SET DEFAULT nextval(...) *)
          inr {| pg_class :=
                   <["battle_ids" :=
                       Table (set_default "id"
                                (DefaultNextval "battle_ids_id_seq") cols)]>
                     (<["battle_ids_id_seq" := Sequence sq]> (pg_class d));
                 battle_ids := battle_ids d |}
      | Some (Sequence sq) =>
          (* ALTER SEQUENCE battle_ids_id_seq RESTART WITH max_id *)
          let? _ := require ((minvalue sq <=? max_id) && (max_id <=? maxvalue sq))
                      (if max_id <? minvalue sq
                       then InvalidSequenceBound "RESTART" max_id
                              "less than MINVALUE" (minvalue sq)
                       else InvalidSequenceBound "RESTART" max_id
                              "greater than MAXVALUE" (maxvalue sq)) in
          inr {| pg_class :=
                   <["battle_ids_id_seq" :=
                       Sequence {| next := max_id; minvalue := minvalue sq;
                                   maxvalue := maxvalue sq |}]> (pg_class d);
                 battle_ids := battle_ids d |}
      | Some _ => inl (WrongObjectType "battle_ids_id_seq")
      end
  | Some (Sequence _) => inl (UndefinedColumn "battle_ids" "id")
  | Some (Index _) => inl (CannotOpenRelation "battle_ids")
  end.

(** [nextval(name)]: the value and the database with the sequence moved. *)
Definition nextval (name : string) (d : Database) : PgError + (Z * Database) :=
  match pg_class d !! name with
  | Some (Sequence sq) =>
      let? _ := require (next sq <=? maxvalue sq)
                  (SequenceExhausted name (maxvalue sq)) in
      inr (next sq,
           {| pg_class :=
                <[name := Sequence {| next := next sq + 1;
                                      minvalue := minvalue sq;
                                      maxvalue := maxvalue sq |}]> (pg_class d);
              battle_ids := battle_ids d |})
  | Some _ => inl (WrongObjectType name)
  | None => inl (UndefinedTable name)
  end.

Definition id_default (d : Database) : option default_expr :=
  match pg_class d !! "battle_ids" with
  | Some (Table cols) =>
      c ← list_find (λ c, col_name c = "id") cols; col_default c.2
  | _ => None
  end.

(** The id an [INSERT INTO battle_ids] that names no id gets from the
    default of the column; the row is then stored under that id. *)
Definition insert_default_id (d : Database) : PgError + (Z * Database) :=
  match id_default d with
  | Some (DefaultNextval sq) =>
      let? r := nextval sq d in
      inr (r.1, {| pg_class := pg_class r.2;
                   battle_ids := battle_ids r.2 ++ [r.1] |})
  | _ => inl (NotNullViolation "battle_ids" "id")
  end.

Definition next_generated_id (d : Database) : PgError + Z :=
  let? r := insert_default_id d in
  inr r.1.

Inductive Stmt :=
| CreateTableIfNotExists (name : string) (cols : list column)
| DoRepairIdSequence.

Definition exec (q : Stmt) (d : Database) : PgError + Database :=
  match q with
  | CreateTableIfNotExists name cols => create_table_if_not_exists name cols d
  | DoRepairIdSequence => repair_id_sequence d
  end.

Inductive console_line :=
| console_log (text : string)
| console_error (label text : string).

Record World := {
  db : Database;
  issued : nat;
  console : list console_line }.

Definition print (l : console_line) : M World unit :=
  λ w, (Normal tt,
        {| db := db w; issued := issued w; console := console w ++ [l] |}).

Section Bootstrap.

Variable env : nat → Env.

(** [await pool.query(text)] of a schema statement. *)
Definition pool_query (q : Stmt) : M World unit :=
  λ w,
    match fault (env (issued w)) with
    | Some msg =>
        (Throw (DatabaseError (ConnectionFailure msg)),
         {| db := db w; issued := S (issued w); console := console w |})
    | None =>
        match exec q (db w) with
        | inl err =>
            (Throw (DatabaseError err),
             {| db := db w; issued := S (issued w); console := console w |})
        | inr d =>
            (Normal tt,
             {| db := d; issued := S (issued w); console := console w |})
        end
    end.

Definition initTables : M World unit :=
  try
    (_ <~ pool_query (CreateTableIfNotExists "battle_ids" battle_ids_ddl) ;;
     _ <~ pool_query (CreateTableIfNotExists "commendations" commendations_ddl) ;;
     _ <~ pool_query (CreateTableIfNotExists "rank_changes" rank_changes_ddl) ;;
     _ <~ pool_query (CreateTableIfNotExists "awards_catalog" awards_catalog_ddl) ;;
     _ <~ pool_query (CreateTableIfNotExists "awards" awards_ddl) ;;
     print (console_log "✅ Všechny tabulky inicializovány."))
  catch err =>
    print (console_error "❌ Chyba při vytváření tabulek:" (js_message err)).

Definition ensureIdSequence : M World unit :=
  try
    (_ <~ print (console_log "🔍 Kontroluji ID sekvenci...") ;;
     _ <~ pool_query DoRepairIdSequence ;;
     print (console_log "✅ ID sekvence ověřena nebo opravena"))
  catch err =>
    print (console_error "⚠️ Nepodařilo se zkontrolovat sekvenci:"
             (js_message err)).

End Bootstrap.

End Schema.

(** ** Startup of the legacy server on the event loop

    The module body runs to completion first; statements sent to the pool
    and incoming requests are served by later turns of the event loop.  A
    call of an [async] function that is not awaited runs up to its first
    [await] and leaves its statement in flight.  The pool opens a
    connection of its own for a statement that finds none idle (up to its
    maximum, ten by default), so statements in flight reach the store in
    any order. *)
Module Startup.

(** The top-level statements of the legacy server, in source order. *)
Inductive statement :=
| NewPool
| CallEnsureIdSequence
| UseCors
| UseJson
| AppRoute (r : Legacy.Route)
| AppListen.

Definition main : list statement :=
  [ NewPool;
    CallEnsureIdSequence;
    UseCors;
    UseJson;
    AppRoute Legacy.GET_root;
    AppRoute Legacy.GET_api_battle;
    AppRoute Legacy.POST_api_battle;
    AppRoute Legacy.PUT_api_battle_id;
    AppRoute Legacy.DELETE_api_battle_id;
    AppListen ].

(** A statement sent to the pool: by the repair or by a handler. *)
Inductive sender :=
| Repair
| Handler (r : Legacy.Route).

#[global] Instance route_eq_dec : EqDecision Legacy.Route.
Proof. solve_decision. Defined.

#[global] Instance sender_eq_dec : EqDecision sender.
Proof. solve_decision. Defined.

(** What the process does that the outside sees, one after the other: it
    gives a statement to the pool, it starts to listen. *)
Inductive action :=
| Sends (a : sender)
| Listens.

Record Node := {
  booted : bool;
  has_pool : bool;
  repair_calls : nat;             (* calls of ensureIdSequence so far *)
  routes : list Legacy.Route;
  listening : bool;
  trace : list action;            (* what the process did, oldest first *)
  sent : list sender;             (* statements given to the pool, oldest first *)
  in_flight : list sender;        (* given to the pool, not yet run *)
  executed : list sender }.       (* run by the store, oldest first *)

Definition init : Node :=
  {| booted := false; has_pool := false; repair_calls := 0; routes := [];
     listening := false; trace := []; sent := []; in_flight := [];
     executed := [] |}.

(** [pool.query(...)] up to its [await]: the statement is in flight. *)
Definition send (a : sender) (n : Node) : Node :=
  {| booted := booted n; has_pool := has_pool n;
     repair_calls := repair_calls n;
     routes := routes n; listening := listening n;
     trace := trace n ++ [Sends a];
     sent := sent n ++ [a];
     in_flight := in_flight n ++ [a]; executed := executed n |}.

Definition run_statement (n : Node) (st : statement) : Node :=
  match st with
  | NewPool =>
      {| booted := booted n; has_pool := true; repair_calls := repair_calls n;
         routes := routes n; listening := listening n; trace := trace n;
         sent := sent n; in_flight := in_flight n; executed := executed n |}
  | CallEnsureIdSequence =>
      send Repair
        {| booted := booted n; has_pool := has_pool n;
           repair_calls := S (repair_calls n);
           routes := routes n; listening := listening n; trace := trace n;
           sent := sent n; in_flight := in_flight n; executed := executed n |}
  | UseCors | UseJson => n
  | AppRoute r =>
      {| booted := booted n; has_pool := has_pool n;
         repair_calls := repair_calls n;
         routes := routes n ++ [r]; listening := listening n;
         trace := trace n; sent := sent n;
         in_flight := in_flight n; executed := executed n |}
  | AppListen =>
      {| booted := booted n; has_pool := has_pool n;
         repair_calls := repair_calls n;
         routes := routes n; listening := true;
         trace := trace n ++ [Listens]; sent := sent n;
         in_flight := in_flight n; executed := executed n |}
  end.

(** The handlers that send a statement: all but [GET /]. *)
Definition queries (r : Legacy.Route) : bool :=
  match r with
  | Legacy.GET_root => false
  | _ => true
  end.

Inductive event :=
| Boot                           (* the module body, run to completion *)
| Request (r : Legacy.Route)     (* a request arrives and its handler starts *)
| StoreRuns (a : sender).        (* the store runs a statement in flight *)

(** Remove the first occurrence. *)
Fixpoint remove_first (a : sender) (l : list sender) : list sender :=
  match l with
  | [] => []
  | b :: l' => if decide (a = b) then l' else b :: remove_first a l'
  end.

(** One turn of the event loop; [None] when the event cannot happen. *)
Definition step (n : Node) (e : event) : option Node :=
  match e with
  | Boot =>
      if booted n then None
      else
        let n' := foldl run_statement n main in
        Some {| booted := true; has_pool := has_pool n';
                repair_calls := repair_calls n';
                routes := routes n'; listening := listening n';
                trace := trace n'; sent := sent n';
                in_flight := in_flight n'; executed := executed n' |}
  | Request r =>
      if booted n && listening n && bool_decide (r ∈ routes n) then
        Some (if queries r then send (Handler r) n else n)
      else None
  | StoreRuns a =>
      if booted n && bool_decide (a ∈ in_flight n) then
        Some {| booted := booted n; has_pool := has_pool n;
                repair_calls := repair_calls n;
                routes := routes n; listening := listening n;
                trace := trace n; sent := sent n;
                in_flight := remove_first a (in_flight n);
                executed := executed n ++ [a] |}
      else None
  end.

Fixpoint run (n : Node) (t : list event) : option Node :=
  match t with
  | [] => Some n
  | e :: t' =>
      match step n e with
      | Some n' => run n' t'
      | None => None
      end
  end.

(** The repair has finished once the store has run its statement. *)
Definition repair_finished (n : Node) : bool :=
  bool_decide (Repair ∈ executed n).

(** Every statement of a handler in the log of the store comes after the
    statement of the repair. *)
Definition repair_first (log : list sender) : bool :=
  match log with
  | [] => true
  | Repair :: _ => true
  | Handler _ :: _ => false
  end.

(** The state of a process whose module body has run: one call of the
    repair, whose statement was given to the pool first, then the server
    started to listen, then the handlers sent theirs; every statement
    given to the pool is in flight or has run. *)
Definition started (n : Node) : Prop :=
  booted n = true
  ∧ repair_calls n = 1%nat
  ∧ listening n = true
  ∧ (∃ hs, trace n = Sends Repair :: Listens :: (Sends ∘ Handler <$> hs)
           ∧ sent n = Repair :: (Handler <$> hs))
  ∧ in_flight n ++ executed n ≡ₚ sent n.

End Startup.

(** ** Predicates of the statements below *)

(** The path parameter [k] is the text of the 32-bit integer [x]. *)
Definition names (req : Request) (k : string) (x : Z) : Prop :=
  ∃ t, params req !! k = Some t ∧ int4_in t = inr x.

(** A text without the character U+0000. *)
Fixpoint no_nul (s : string) : bool :=
  match s with
  | EmptyString => true
  | String c s' => negb (Ascii.eqb c "000") && no_nul s'
  end.

(** The query arguments that reach the input functions of the server as the
    text [prepareValue] gives: a string without U+0000, a character the
    server refuses in any parameter when it binds it, before the statement
    runs; a number JavaScript writes with all its digits, which it does for
    the integers exact in a double, up to 9007199254740991 in absolute
    value. *)
Definition sendable (v : JsVal) : bool :=
  match v with
  | JStr s => no_nul s
  | JNum z => bool_decide (Z.abs z ≤ 9007199254740991)
  | _ => true
  end.

(** The columns [POST /api/battle] and [PUT /api/battle/:id] take from the
    body, in source order. *)
Definition written_columns : list string :=
  ["name"; "callsign"; "role"; "rank"; "specialty"; "ethnicity"; "dob";
   "strikes_level"; "notes"; "avatar"; "status"].

Definition sendable_body (req : Request) : bool :=
  forallb (λ k, sendable (field (body req) k)) written_columns.

(** The columns [POST /api/awards/catalog] takes from the body, in source
    order. *)
Definition catalog_columns : list string :=
  ["code"; "name"; "description"; "icon_url"].

(** A text that fits an entry of the unique index on [code] whatever its
    bytes are: an entry of a b-tree holds 2704 bytes on pages of 8 kB, its
    header included, and the server refuses a row whose key is longer
    after compression.  NULL is not indexed against anything. *)
Definition fits_index_entry (p : option string) : bool :=
  match p with
  | None => true
  | Some s => bool_decide (String.length s ≤ 2048)%nat
  end.

(** Some character of the text is a decimal digit. *)
Fixpoint has_digit (s : string) : bool :=
  match s with
  | EmptyString => false
  | String c s' => bool_decide (is_Some (digit_of c)) || has_digit s'
  end.

(** The world after one more statement that succeeded on database [s]. *)
Definition after (w : World) (s : Store) (q : Stmt) (vs : list JsVal) : World :=
  {| db := s;
     sent := sent w ++ [{| text := q; values := prepareValue <$> vs;
                           failure := None |}] |}.

(** The stored commendations-count of each row whose id is [x]: one entry
    under the primary key. *)
Definition count_of (s : Store) (x : Z) : list (option Z) :=
  battle_ids.commendations_count <$> filter (λ r, has_id (Some x) r) (battle_ids s).

(** The commendation rows owned by operative [x]. *)
Definition commendations_of (s : Store) (x : Z) : list commendations.row :=
  filter (λ r, commendations.battle_id r = x) (commendations s).

(** A grant request for operative [x] that the store accepts: the path
    parameter is the text of [x] and the level is 1, 2 or 3. *)
Definition grant_for (x : Z) (req : Request) : Prop :=
  names req "id" x
  ∧ ∃ l, nullable int2_in (prepareValue (field (body req) "level")) = inr (Some l)
         ∧ l ∈ commendation_levels.

(** The answer to a grant that succeeded: the created row. *)
Definition created (r : commendations.row) : Response Row :=
  {| status := 200; json := JsonRow (Some (CommendationRow r)) |}.

(** Every grant names one catalog entry, and catalog ids are unique: what
    the primary key of [awards_catalog] and the foreign key of [awards]
    keep true. *)
Definition catalog_integrity (s : Store) : Prop :=
  NoDup (awards_catalog.id <$> awards_catalog s)
  ∧ ∀ a, a ∈ awards s →
         awards.award_id a ∈ awards_catalog.id <$> awards_catalog s.

(** The five tables of [initTables] are in the catalog. *)
Definition initialized (d : Schema.Database) : Prop :=
  ∀ name,
    name ∈ ["battle_ids"; "commendations"; "rank_changes"; "awards_catalog";
            "awards"] →
    Schema.is_free (Schema.pg_class d) name = false.

(** ** Sample data for the examples *)

(** A legacy table made by hand, with the given ids and no sequence. *)
Definition handmade (ids : list Z) : Schema.Database :=
  {| Schema.pg_class :=
       {[ "battle_ids" :=
            Schema.Table
              [ Schema.PRIMARY_KEY (Schema.col "id" Schema.INTEGER);
                Schema.NOT_NULL (Schema.col "name" Schema.TEXT) ] ]};
     Schema.battle_ids := ids |}.

(** The same table made with [id SERIAL]: its sequence exists, still at 1
    because the rows were inserted with explicit ids. *)
Definition serial (ids : list Z) : Schema.Database :=
  {| Schema.pg_class :=
       {[ "battle_ids" :=
            Schema.Table
              [ Schema.DEFAULT (Schema.DefaultNextval "battle_ids_id_seq")
                  (Schema.PRIMARY_KEY (Schema.col "id" Schema.INTEGER));
                Schema.NOT_NULL (Schema.col "name" Schema.TEXT) ];
          "battle_ids_id_seq" :=
            Schema.Sequence {| Schema.next := 1; Schema.minvalue := 1;
                               Schema.maxvalue := INT4_MAX |} ]};
     Schema.battle_ids := ids |}.

(** The table made by hand beside a sequence of the repair's name that no
    column reads: [id] has no default. *)
Definition detached (ids : list Z) : Schema.Database :=
  {| Schema.pg_class :=
       {[ "battle_ids" :=
            Schema.Table
              [ Schema.PRIMARY_KEY (Schema.col "id" Schema.INTEGER);
                Schema.NOT_NULL (Schema.col "name" Schema.TEXT) ];
          "battle_ids_id_seq" :=
            Schema.Sequence {| Schema.next := 1; Schema.minvalue := 1;
                               Schema.maxvalue := INT8_MAX |} ]};
     Schema.battle_ids := ids |}.

Definition booting (d : Schema.Database) : Schema.World :=
  {| Schema.db := d; Schema.issued := 0; Schema.console := [] |}.

Definition two_digits (a b : ascii) : option Z :=
  x ← digit_of a; y ← digit_of b; Some (10 * x + y).

(** A date input function for the examples: ISO 8601 dates [yyyy-mm-dd],
    numbered [yyyymmdd]. *)
Definition iso_date (s : string) : option Z :=
  match s with
  | String y1 (String y2 (String y3 (String y4 (String "-"
      (String m1 (String m2 (String "-" (String d1 (String d2 ""))))))))) =>
      hi ← two_digits y1 y2;
      lo ← two_digits y3 y4;
      m ← two_digits m1 m2;
      d ← two_digits d1 d2;
      if (1 <=? m) && (m <=? 12) && (1 <=? d) && (d <=? 31)
      then Some ((100 * hi + lo) * 10000 + 100 * m + d)
      else None
  | _ => None
  end.

(** No statement fails; the clock shows the number of the statement. *)
Definition quiet (k : nat) : Env := {| fault := None; now := Z.of_nat k |}.

(** The statement numbered [n] loses its connection. *)
Definition drop_at (n : nat) (k : nat) : Env :=
  {| fault := if decide (k = n) then Some "Connection terminated unexpectedly"
              else None;
     now := Z.of_nat k |}.

Definition empty_store : Store :=
  {| battle_ids := []; battle_ids_id_seq := 1;
     commendations := []; commendations_id_seq := 1;
     rank_changes := []; rank_changes_id_seq := 1;
     awards_catalog := []; awards_catalog_id_seq := 1;
     awards := []; awards_id_seq := 1 |}.

Definition fresh_world : World := {| db := empty_store; sent := [] |}.

Definition operative (id : Z) (name : string) (count : Z) : battle_ids.row :=
  {| battle_ids.id := id; battle_ids.name := name;
     battle_ids.callsign := None; battle_ids.role := None;
     battle_ids.rank := None; battle_ids.specialty := None;
     battle_ids.ethnicity := None; battle_ids.dob := None;
     battle_ids.strikes_level := Some "0";
     battle_ids.commendations_count := Some count;
     battle_ids.notes := None; battle_ids.avatar := None;
     battle_ids.status := Some "active"; battle_ids.created_at := Some 0 |}.

(** A roster of one operative, id 1, with no commendation yet. *)
Definition roster : Store := set_battle_ids empty_store [operative 1 "Rex" 0] 2.

Definition request (o : JsVal) (ps : list (string * string))
    (b : list (string * JsVal)) : Request :=
  {| origin := o; params := list_to_map ps; body := list_to_map b |}.

(** Three operatives, two catalog entries and two awards for operative 1,
    all made through the API, one statement per tick of [quiet]. *)
Definition squad : World :=
  match
    (serve iso_date quiet (Running fresh_world)
     [ (POST_api_battle, request JUndefined [] [("name", JStr "Rex")]);
       (POST_api_battle, request JUndefined [] [("name", JStr "Ana")]);
       (POST_api_battle, request JUndefined [] [("name", JStr "Zed")]);
       (POST_api_awards_catalog,
        request JUndefined [] [("code", JStr "VAL"); ("name", JStr "Valor")]);
       (POST_api_awards_catalog,
        request JUndefined [] [("code", JStr "MER"); ("name", JStr "Merit")]);
       (POST_api_awards_battle_id,
        request JUndefined [("battle_id", "1")] [("award_id", JNum 2)]);
       (POST_api_awards_battle_id,
        request JUndefined [("battle_id", "1")] [("award_id", JNum 1)]) ]).1
  with
  | Running w => w
  | Crashed _ => fresh_world
  end.

(** The legacy process boots, a request for the list arrives, and the
    store runs the statement of the handler first. *)
Definition race : list Startup.event :=
  [ Startup.Boot;
    Startup.Request Legacy.GET_api_battle;
    Startup.StoreRuns (Startup.Handler Legacy.GET_api_battle) ].

(** The process after [race]. *)
Definition raced : Startup.Node :=
  {| Startup.booted := true; Startup.has_pool := true;
     Startup.repair_calls := 1;
     Startup.routes :=
       [Legacy.GET_root; Legacy.GET_api_battle; Legacy.POST_api_battle;
        Legacy.PUT_api_battle_id; Legacy.DELETE_api_battle_id];
     Startup.listening := true;
     Startup.trace :=
       [Startup.Sends Startup.Repair; Startup.Listens;
        Startup.Sends (Startup.Handler Legacy.GET_api_battle)];
     Startup.sent := [Startup.Repair; Startup.Handler Legacy.GET_api_battle];
     Startup.in_flight := [Startup.Repair];
     Startup.executed := [Startup.Handler Legacy.GET_api_battle] |}.

(** The catalog after [initTables] on an empty database. *)
Definition bootstrapped : Schema.World :=
  (Schema.initTables quiet
     (booting {| Schema.pg_class := ∅; Schema.battle_ids := [] |})).2.

(** ** Predicates of the further properties *)

(** The statements the handler of a route sends, in source order. *)
Definition statements (r : Route) : list Stmt :=
  match r with
  | GET_root => [SelectNow]
  | GET_api_battle => [SelectBattleIds]
  | GET_api_battle_id => [SelectBattleId]
  | POST_api_battle => [InsertBattleId]
  | PUT_api_battle_id => [UpdateBattleId]
  | DELETE_api_battle_id => [DeleteBattleId]
  | GET_api_awards_catalog => [SelectAwardsCatalog]
  | POST_api_awards_catalog => [InsertAwardsCatalog]
  | POST_api_awards_battle_id => [InsertAward]
  | GET_api_awards_battle_id => [SelectAwards]
  | POST_api_battle_id_rank_change => [InsertRankChange]
  | POST_api_battle_id_commendation => [InsertCommendation; UpdateCommendationsCount]
  end.

(** The routes registered with [app.get]. *)
Definition is_get (r : Route) : bool :=
  match r with
  | GET_root | GET_api_battle | GET_api_battle_id | GET_api_awards_catalog
  | GET_api_awards_battle_id => true
  | _ => false
  end.

(** The constraints declared by the five [CREATE TABLE] statements: primary
    keys, the unique catalog code, foreign keys and checks. *)
Record constraints_hold (s : Store) : Prop := {
  battle_ids_pkey : NoDup (battle_ids.id <$> battle_ids s);
  commendations_pkey : NoDup (commendations.id <$> commendations s);
  rank_changes_pkey : NoDup (rank_changes.id <$> rank_changes s);
  awards_catalog_pkey : NoDup (awards_catalog.id <$> awards_catalog s);
  awards_pkey : NoDup (awards.id <$> awards s);
  awards_catalog_code_key : NoDup (omap awards_catalog.code (awards_catalog s));
  commendations_battle_id_fkey :
    ∀ r, r ∈ commendations s →
         commendations.battle_id r ∈ battle_ids.id <$> battle_ids s;
  rank_changes_battle_id_fkey :
    ∀ r, r ∈ rank_changes s →
         rank_changes.battle_id r ∈ battle_ids.id <$> battle_ids s;
  awards_battle_id_fkey :
    ∀ r, r ∈ awards s → awards.battle_id r ∈ battle_ids.id <$> battle_ids s;
  awards_award_id_fkey :
    ∀ r, r ∈ awards s →
         awards.award_id r ∈ awards_catalog.id <$> awards_catalog s;
  battle_ids_strikes_level_check :
    ∀ r v, r ∈ battle_ids s → battle_ids.strikes_level r = Some v →
           v ∈ strikes_levels;
  commendations_level_check :
    ∀ r, r ∈ commendations s → commendations.level r ∈ commendation_levels;
  rank_changes_change_type_check :
    ∀ r, r ∈ rank_changes s → rank_changes.change_type r ∈ change_types }.

(** Every sequence is past the ids of its table. *)
Definition generators_ahead (s : Store) : Prop :=
  (∀ r, r ∈ battle_ids s → battle_ids.id r < battle_ids_id_seq s)
  ∧ (∀ r, r ∈ commendations s → commendations.id r < commendations_id_seq s)
  ∧ (∀ r, r ∈ rank_changes s → rank_changes.id r < rank_changes_id_seq s)
  ∧ (∀ r, r ∈ awards_catalog s → awards_catalog.id r < awards_catalog_id_seq s)
  ∧ (∀ r, r ∈ awards s → awards.id r < awards_id_seq s).

(** The stored count of every operative is the number of its commendation
    rows. *)
Definition counter_consistent (s : Store) : Prop :=
  ∀ r, r ∈ battle_ids s →
       battle_ids.commendations_count r
       = Some (Z.of_nat (length (commendations_of s (battle_ids.id r)))).

(** What [UPDATE battle_ids SET ...] keeps of a row: its id, its count and
    its creation time; the new row passed the check on [strikes_level]. *)
Definition replaced_by (r r' : battle_ids.row) : Prop :=
  battle_ids.id r' = battle_ids.id r
  ∧ battle_ids.commendations_count r' = battle_ids.commendations_count r
  ∧ battle_ids.created_at r' = battle_ids.created_at r
  ∧ (r' = r ∨ ∀ v, battle_ids.strikes_level r' = Some v → v ∈ strikes_levels).

(** What the counter [UPDATE] keeps of a row: everything but the count. *)
Definition recounted (r r' : battle_ids.row) : Prop :=
  battle_ids.id r' = battle_ids.id r
  ∧ battle_ids.name r' = battle_ids.name r
  ∧ battle_ids.rank r' = battle_ids.rank r
  ∧ battle_ids.strikes_level r' = battle_ids.strikes_level r
  ∧ battle_ids.status r' = battle_ids.status r
  ∧ battle_ids.created_at r' = battle_ids.created_at r.

(** The five tables of [s'] are those of [s]; the sequences may differ. *)
Definition same_tables (s s' : Store) : Prop :=
  battle_ids s' = battle_ids s
  ∧ commendations s' = commendations s
  ∧ rank_changes s' = rank_changes s
  ∧ awards_catalog s' = awards_catalog s
  ∧ awards s' = awards s.


(** What a column of a [CREATE TABLE] keeps when it is stored: its name,
    its keys and its reference ([SERIAL] changes the type and the
    default). *)
Definition stored_as (c c' : Schema.column) : Prop :=
  Schema.col_name c' = Schema.col_name c
  ∧ Schema.primary_key c' = Schema.primary_key c
  ∧ Schema.unique c' = Schema.unique c
  ∧ Schema.references c' = Schema.references c.

(** The tables of [initTables] with their columns, in source order. *)
Definition schema : list (string * list Schema.column) :=
  [ ("battle_ids", Schema.battle_ids_ddl);
    ("commendations", Schema.commendations_ddl);
    ("rank_changes", Schema.rank_changes_ddl);
    ("awards_catalog", Schema.awards_catalog_ddl);
    ("awards", Schema.awards_ddl) ].


(** [k] rows inserted into [battle_ids] one after the other, none naming
    an id: the ids they got, in order, and the database afterwards. *)
Fixpoint insert_default_ids (k : nat) (d : Schema.Database)
  : PgError + (list Z * Schema.Database) :=
  match k with
  | O => inr ([], d)
  | S k' =>
      let? r := Schema.insert_default_id d in
      let? rs := insert_default_ids k' r.2 in
      inr (r.1 :: rs.1, rs.2)
  end.


(** The label each [catch] block of the legacy server gives to
    [console.error]. *)
Definition log_label (r : Legacy.Route) : string :=
  match r with
  | Legacy.GET_root => ""
  | Legacy.GET_api_battle => "❌ Chyba SELECT:"
  | Legacy.POST_api_battle => "❌ Chyba INSERT:"
  | Legacy.PUT_api_battle_id => "❌ Chyba UPDATE:"
  | Legacy.DELETE_api_battle_id => "❌ Chyba DELETE:"
  end.


(** * Properties *)

#[global] Instance null_le_total : Total null_le.
Proof. intros [x|] [y|]; simpl; auto; lia. Qed.

#[global] Instance null_le_trans : Transitive null_le.
Proof. intros [x|] [y|] [z|]; simpl; auto; try lia; tauto. Qed.

#[global] Instance asc_by_total {A} (key : A → option Z) : Total (asc_by key).
Proof. intros x y; apply null_le_total. Qed.

#[global] Instance desc_by_total {A} (key : A → option Z) : Total (desc_by key).
Proof. intros x y; unfold desc_by; destruct (null_le_total (key x) (key y)); auto. Qed.

#[global] Instance asc_by_trans {A} (key : A → option Z) : Transitive (asc_by key).
Proof. intros x y z; apply null_le_trans. Qed.

#[global] Instance desc_by_trans {A} (key : A → option Z) : Transitive (desc_by key).
Proof. intros x y z H1 H2; unfold desc_by in *; eapply null_le_trans; eauto. Qed.

(** ** The handlers never throw *)

Section HandlerShape.

Variable date_in : string → option Z.
Variable env : nat → Env.

(** A statement either returns rows or throws a database error, and adds
    exactly one entry to the record of statements. *)
Lemma pool_query_cases q vs w :
  (∃ rows s,
      pool_query date_in env q vs w
      = (Normal rows,
         {| db := s;
            sent := sent w ++ [{| text := q; values := prepareValue <$> vs;
                                  failure := None |}] |}))
  ∨ (∃ err s,
      pool_query date_in env q vs w
      = (Throw (DatabaseError err),
         {| db := s;
            sent := sent w ++ [{| text := q; values := prepareValue <$> vs;
                                  failure := Some err |}] |})).
Proof.
  unfold pool_query.
  destruct (fault (env (length (sent w)))) as [msg|]; [right; eauto|].
  destruct (exec _ _ _ _ _) as [s [err|rows]]; [right|left]; eauto.
Qed.

Lemma handler_returns r req w :
  ∃ res w', handler date_in env r req w = (Normal res, w').
Proof.
  destruct r; simpl;
    unfold get_root, get_api_battle, get_api_battle_id, post_api_battle,
      put_api_battle_id, delete_api_battle_id, get_api_awards_catalog,
      post_api_awards_catalog, post_api_awards_battle_id,
      get_api_awards_battle_id, post_api_battle_id_rank_change,
      post_api_battle_id_commendation, try_catch, bind, res_json,
      res_status_json, ret, throw;
    repeat match goal with
           | |- context [pool_query date_in env ?q ?vs ?w] =>
               destruct (pool_query_cases q vs w) as [(? & ? & ->)|(? & ? & ->)]
           end;
    repeat case_match; eauto.
Qed.

End HandlerShape.

(** ** Cross-origin policy (C9) *)

(** C9, as stated, fails: a request whose [Origin] header is empty, or
    that has no [Origin] header, is not from an origin of the allow-list,
    yet the middleware lets it through and the handler answers it, with
    credentials allowed. *)
Lemma cors_accepts_missing_origin :
  includes allowedOrigins (JStr "") = false
  ∧ includes allowedOrigins JUndefined = false
  ∧ app iso_date quiet GET_api_battle (request (JStr "") [] []) fresh_world
    = (Normal (Replied JUndefined true {| status := 200; json := JsonRows [] |}),
       {| db := empty_store;
          sent := [{| text := SelectBattleIds; values := []; failure := None |}] |})
  ∧ app iso_date quiet GET_api_battle (request JUndefined [] []) fresh_world
    = (Normal (Replied JUndefined true {| status := 200; json := JsonRows [] |}),
       {| db := empty_store;
          sent := [{| text := SelectBattleIds; values := []; failure := None |}] |}).
Proof. repeat split; reflexivity. Qed.

(** C9, amended.  The array literal of the allow-list does not parse as
    the source has it; with the comma it lacks after its second string it
    denotes the three strings of [allowedOrigins], and for that list: a
    request with a non-empty [Origin] that is not in the list is answered
    by the error handler with the CORS error and no handler runs (the
    world, with its record of statements, is unchanged); a request from a
    listed origin is answered by its handler with that origin and
    credentials allowed; a request with no or an empty [Origin] is answered
    by its handler as well, with credentials allowed and no origin
    allowed. *)
Theorem cors_allow_list (date_in : string → option Z) (env : nat → Env)
    (r : Route) (req : Request) (w : World) :
  array_literal allowedOrigins_literal = None
  ∧ array_literal (take 4 allowedOrigins_literal
                   ++ Comma :: drop 4 allowedOrigins_literal)
    = Some (JStr <$> allowedOrigins)
  ∧ (∀ o, origin req = JStr o → o ≠ "" → o ∉ allowedOrigins →
        app date_in env r req w
        = (Normal (Failed 500 (Error ("CORS blokován pro origin: " +:+ o))), w))
  ∧ (∀ o, origin req = JStr o → o ∈ allowedOrigins →
        ∃ res w', handler date_in env r req w = (Normal res, w')
                  ∧ app date_in env r req w
                    = (Normal (Replied (JStr o) true res), w'))
  ∧ (origin req = JUndefined ∨ origin req = JStr "" →
        ∃ res w', handler date_in env r req w = (Normal res, w')
                  ∧ app date_in env r req w
                    = (Normal (Replied JUndefined true res), w')).
Proof.
  split; [reflexivity|]. split; [reflexivity|]. split; [|split].
  - intros o Ho Hne Hnot. unfold app, cors_origin. rewrite Ho. simpl.
    destruct (String.eqb_spec o ""); [done|]. simpl.
    rewrite bool_decide_eq_false_2 by done. reflexivity.
  - intros o Ho Hin. destruct (handler_returns date_in env r req w) as (res & w' & Hh).
    exists res, w'. split; [done|]. unfold app, cors_origin. rewrite Ho.
    assert (Hne : o ≠ "").
    { intros ->. revert Hin. apply (bool_decide_unpack _). reflexivity. }
    simpl. destruct (String.eqb_spec o ""); [done|]. simpl.
    rewrite (bool_decide_eq_true_2 _ Hin).
    unfold bind. rewrite Hh. reflexivity.
  - intros Ho. destruct (handler_returns date_in env r req w) as (res & w' & Hh).
    exists res, w'. split; [done|]. unfold app, cors_origin, bind.
    destruct Ho as [-> | ->]; simpl; rewrite Hh; reflexivity.
Qed.

(** A foreign origin is turned away with nothing sent to the store; the
    first origin of the list is served with credentials allowed. *)
Lemma cors_allow_list_witness :
  app iso_date quiet GET_api_battle
    (request (JStr "https://evil.example") [] []) fresh_world
  = (Normal (Failed 500 (Error "CORS blokován pro origin: https://evil.example")),
     fresh_world)
  ∧ ∃ res w',
      app iso_date quiet GET_api_battle
        (request (JStr "https://redroofcomp.up.railway.app") [] []) fresh_world
      = (Normal (Replied (JStr "https://redroofcomp.up.railway.app") true res),
         w').
Proof.
  destruct (cors_allow_list iso_date quiet GET_api_battle
              (request (JStr "https://evil.example") [] []) fresh_world)
    as (_ & _ & Hreject & _ & _).
  destruct (cors_allow_list iso_date quiet GET_api_battle
              (request (JStr "https://redroofcomp.up.railway.app") [] [])
              fresh_world)
    as (_ & _ & _ & Haccept & _).
  split.
  - apply (Hreject "https://evil.example" eq_refl); [discriminate|].
    apply (bool_decide_unpack _). reflexivity.
  - destruct (Haccept "https://redroofcomp.up.railway.app" eq_refl)
      as (res & w' & _ & Happ); [by left|]. by exists res, w'.
Defined.

(** ** Store failures are answered, not thrown (C8) *)

Ltac unfold_handlers :=
  unfold get_root, get_api_battle, get_api_battle_id, post_api_battle,
    put_api_battle_id, delete_api_battle_id, get_api_awards_catalog,
    post_api_awards_catalog, post_api_awards_battle_id,
    get_api_awards_battle_id, post_api_battle_id_rank_change,
    post_api_battle_id_commendation, try_catch, bind, res_json,
    res_status_json, ret, throw.

Ltac split_queries date_in env :=
  repeat match goal with
         | |- context [pool_query date_in env ?q ?vs ?w] =>
             destruct (pool_query_cases date_in env q vs w)
               as [(? & ? & ->)|(? & ? & ->)]; cbn [db sent]
         end.

Section Failures.

Variable date_in : string → option Z.
Variable env : nat → Env.

(** Every handler of a resource answers: with 200 when all its statements
    succeeded, with 500 and the message of the error otherwise. *)
Lemma resource_handler_answers r req w :
  r ≠ GET_root →
  ∃ res w' new,
    handler date_in env r req w = (Normal res, w')
    ∧ sent w' = sent w ++ new
    ∧ match first_failure new with
      | Some err => res = {| status := 500; json := JsonError (message err) |}
      | None => status res = 200
      end.
Proof.
  intros Hr. destruct r; [done|..]; simpl; unfold_handlers;
    split_queries date_in env;
    do 3 eexists; (split; [reflexivity|]); cbn [db sent];
    rewrite <- ?app_assoc; (split; [reflexivity|]); reflexivity.
Qed.

(** The health route answers 200 whatever the store does. *)
Lemma get_root_status req w :
  ∃ res w', get_root date_in env req w = (Normal res, w') ∧ status res = 200.
Proof.
  unfold_handlers. split_queries date_in env; [|eauto].
  destruct (head _) as [[]|]; eauto.
Qed.

Lemma deliver_running w r req :
  ∃ w' reply, deliver date_in env (Running w) r req = (Running w', Some reply).
Proof.
  unfold deliver, app, bind, ret.
  destruct (cors_origin (origin req)); [eauto|].
  destruct (handler_returns date_in env r req w) as (res & w' & ->). eauto.
Qed.

(** No sequence of requests ends the process, and each gets its reply. *)
Lemma serve_running reqs : ∀ w,
  ∃ w' replies,
    serve date_in env (Running w) reqs = (Running w', Some <$> replies)
    ∧ length replies = length reqs.
Proof.
  induction reqs as [|[r req] reqs IH]; intros w.
  - exists w, []. done.
  - cbn [serve].
    destruct (deliver_running w r req) as (w1 & reply & ->).
    destruct (IH w1) as (w2 & replies & -> & Hlen).
    exists w2, (reply :: replies). simpl. by rewrite Hlen.
Qed.

(** Nothing is answered once the process has ended. *)
Lemma live_crashed e os :
  live date_in env (Crashed e) os = (Crashed e, replicate (length os) None).
Proof.
  induction os as [|o os IH]; [done|].
  cbn [live]. assert (Ho : occur date_in env (Crashed e) o = (Crashed e, None))
    by (by destruct o).
  rewrite Ho, IH. done.
Qed.

(** While requests are all that happens the process runs on, each request
    gets its reply; the first connection lost while idle ends it. *)
Lemma live_until_idle_error os1 : ∀ w,
  Forall (λ o, is_arrival o = true) os1 →
  ∃ w' replies,
    length replies = length os1
    ∧ live date_in env (Running w) os1 = (Running w', Some <$> replies)
    ∧ ∀ err os2,
        live date_in env (Running w) (os1 ++ IdleClientError err :: os2)
        = (Crashed (DatabaseError err),
           (Some <$> replies) ++ replicate (S (length os2)) None).
Proof.
  induction os1 as [|o os1 IH]; intros w Hos.
  - exists w, []. split; [done|]. split; [done|]. intros err os2.
    rewrite app_nil_l. cbn [live]. unfold occur, emit_error, throw. cbn.
    by rewrite live_crashed.
  - apply Forall_cons in Hos as [Ho Hos]. destruct o as [r req|]; [|done].
    destruct (deliver_running w r req) as (w1 & reply & Hd).
    destruct (IH w1 Hos) as (w2 & replies & Hlen & Hrun & Hcrash).
    exists w2, (reply :: replies). split; [by cbn; rewrite Hlen|].
    split.
    + cbn [live occur]. by rewrite Hd, Hrun.
    + intros err os2. rewrite <- app_comm_cons. cbn [live occur].
      by rewrite Hd, Hcrash.
Qed.

End Failures.

Section LegacyFailures.

Variable row : Type.
Variable id : row → Z.
Variable dml : Legacy.Stmt → list (option string) → list row
               → list row * (PgError + list row).
Variable DATABASE_URL : JsVal.
Variable env : nat → Env.

Lemma legacy_pool_query_cases q vs w :
  (∃ rows result,
      Legacy.pool_query row id dml env q vs w
      = (Normal result,
         {| Legacy.battle_ids := rows;
            Legacy.sent :=
              Legacy.sent row w
              ++ [{| Legacy.text := q; Legacy.values := prepareValue <$> vs;
                     Legacy.failure := None |}];
            Legacy.console := Legacy.console row w |}))
  ∨ (∃ err rows,
      Legacy.pool_query row id dml env q vs w
      = (Throw (DatabaseError err),
         {| Legacy.battle_ids := rows;
            Legacy.sent :=
              Legacy.sent row w
              ++ [{| Legacy.text := q; Legacy.values := prepareValue <$> vs;
                     Legacy.failure := Some err |}];
            Legacy.console := Legacy.console row w |})).
Proof.
  unfold Legacy.pool_query.
  destruct (fault (env (length (Legacy.sent row w)))) as [msg|]; [right; eauto|].
  destruct (Legacy.exec _ _ _ _ _ _) as [rows [err|result]]; [right|left]; eauto.
Qed.

(** The legacy handlers answer likewise, with the fixed text of their
    [catch] block. *)
Lemma legacy_handler_answers r req w :
  ∃ res w' new,
    Legacy.handler row id dml DATABASE_URL env r req w = (Normal res, w')
    ∧ Legacy.sent row w' = Legacy.sent row w ++ new
    ∧ match Legacy.first_failure new with
      | Some err =>
          res = {| status := 500; json := JsonError (Legacy.error_text r) |}
      | None => status res = 200
      end.
Proof.
  destruct r; simpl;
    unfold Legacy.get_root, Legacy.get_api_battle, Legacy.post_api_battle,
      Legacy.put_api_battle_id, Legacy.delete_api_battle_id, try_catch, bind,
      res_json, res_status_json, ret, Legacy.console_error;
    repeat match goal with
           | |- context [Legacy.pool_query row id dml env ?q ?vs ?w] =>
               destruct (legacy_pool_query_cases q vs w)
                 as [(? & ? & ->)|(? & ? & ->)]; cbn
           end;
    do 3 eexists; (split; [reflexivity|]); cbn;
    first [ split; [reflexivity|]; reflexivity
          | split; [symmetry; apply app_nil_r|]; reflexivity ].
Qed.

End LegacyFailures.

(** C8, as stated, fails twice.  On the health route: with the connection
    lost, [GET /] catches the failure and answers 200, not 500, and the
    message arrives next to the fields [status] and [db].  Outside any
    request: a connection lost while it lies idle in the pool is a store
    failure no handler catches; it ends the process and the request that
    comes next gets no reply. *)
Lemma store_failures_not_all_answered_500 :
  get_root iso_date (drop_at 0) (request JUndefined [] []) fresh_world
  = (Normal {| status := 200;
               json := JsonDown "❌ DB not connected" false
                         "Connection terminated unexpectedly" |},
     {| db := empty_store;
        sent := [{| text := SelectNow; values := [];
                    failure := Some (ConnectionFailure
                                       "Connection terminated unexpectedly") |}] |})
  ∧ live iso_date quiet (Running fresh_world)
      [IdleClientError (ConnectionFailure "Connection terminated unexpectedly");
       Arrives GET_api_battle (request JUndefined [] [])]
    = (Crashed (DatabaseError
                  (ConnectionFailure "Connection terminated unexpectedly")),
       [None; None]).
Proof. split; reflexivity. Qed.

(** C8, amended: every handler of a resource (every route but [GET /]),
    in both servers, catches the failure of any statement it sends and
    answers 500 with an [error] message: the message of the store in the
    schema-rich server, the fixed text of the route in the legacy server;
    it answers 200 when no statement failed.  The health route answers
    200 in either case.  No handler throws: while requests are all that
    happens to the server the process runs on and every request gets a
    reply, whatever happened to the requests before it.  A connection lost
    while idle is caught by no one: the process ends there and nothing
    after it is answered. *)
Theorem store_failures_answered_500 (date_in : string → option Z)
    (env : nat → Env) :
  (∀ r req w, r ≠ GET_root →
     ∃ res w' new,
       handler date_in env r req w = (Normal res, w')
       ∧ sent w' = sent w ++ new
       ∧ match first_failure new with
         | Some err => res = {| status := 500; json := JsonError (message err) |}
         | None => status res = 200
         end)
  ∧ (∀ req w, ∃ res w',
       get_root date_in env req w = (Normal res, w') ∧ status res = 200)
  ∧ (∀ os w, Forall (λ o, is_arrival o = true) os →
       ∃ w' replies,
         length replies = length os
         ∧ live date_in env (Running w) os = (Running w', Some <$> replies)
         ∧ ∀ err os',
             live date_in env (Running w) (os ++ IdleClientError err :: os')
             = (Crashed (DatabaseError err),
                (Some <$> replies) ++ replicate (S (length os')) None))
  ∧ (∀ row id dml url r req w,
       ∃ res w' new,
         Legacy.handler row id dml url env r req w = (Normal res, w')
         ∧ Legacy.sent row w' = Legacy.sent row w ++ new
         ∧ match Legacy.first_failure new with
           | Some err =>
               res = {| status := 500; json := JsonError (Legacy.error_text r) |}
           | None => status res = 200
           end).
Proof.
  split; [|split; [|split]].
  - apply resource_handler_answers.
  - apply get_root_status.
  - intros os w. apply live_until_idle_error.
  - intros. apply legacy_handler_answers.
Qed.

(** A create request without a name: the not-null error of the store
    comes back as 500 with its message. *)
Lemma store_failures_answered_500_witness :
  ∃ w',
    post_api_battle iso_date quiet (request JUndefined [] []) fresh_world
    = (Normal {| status := 500;
                 json := JsonError
                           (message (NotNullViolation "battle_ids" "name")) |},
       w')
    ∧ first_failure (sent w') = Some (NotNullViolation "battle_ids" "name").
Proof.
  destruct (store_failures_answered_500 iso_date quiet) as (Hres & _).
  destruct (Hres POST_api_battle (request JUndefined [] []) fresh_world)
    as (res & w' & new & Hrun & Hsent & Hfail); [discriminate|].
  exists w'.
  assert (Hw : (post_api_battle iso_date quiet (request JUndefined [] [])
                  fresh_world).2 = w') by (cbn [handler] in Hrun; by rewrite Hrun).
  assert (Hnew : first_failure new = Some (NotNullViolation "battle_ids" "name")).
  { rewrite <- Hw in Hsent. cbn in Hsent. by subst new. }
  rewrite Hnew in Hfail. subst res. cbn [handler] in Hrun.
  split; [exact Hrun|]. rewrite Hsent. exact Hnew.
Defined.

(** ** What a statement does to the tables *)

Section Statements.

Variable date_in : string → option Z.
Variable env : nat → Env.

Lemma pool_query_normal q vs w rows w1 :
  pool_query date_in env q vs w = (Normal rows, w1) →
  fault (env (length (sent w))) = None
  ∧ exec date_in q (prepareValue <$> vs) (now (env (length (sent w)))) (db w)
    = (db w1, inr rows)
  ∧ sent w1 = sent w ++ [{| text := q; values := prepareValue <$> vs;
                            failure := None |}].
Proof.
  unfold pool_query. destruct (fault _); [done|].
  destruct (exec _ _ _ _ _) as [s [e|rs]]; intros; simplify_eq; done.
Qed.

Lemma pool_query_throw q vs w err w1 :
  pool_query date_in env q vs w = (Throw err, w1) →
  ∃ e, err = DatabaseError e
       ∧ sent w1 = sent w ++ [{| text := q; values := prepareValue <$> vs;
                                 failure := Some e |}]
       ∧ ((∃ msg, fault (env (length (sent w))) = Some msg
                  ∧ e = ConnectionFailure msg ∧ db w1 = db w)
          ∨ (fault (env (length (sent w))) = None
             ∧ exec date_in q (prepareValue <$> vs)
                 (now (env (length (sent w)))) (db w) = (db w1, inl e))).
Proof.
  unfold pool_query. destruct (fault _) as [msg|].
  - intros; simplify_eq. eexists; repeat split; eauto.
  - destruct (exec _ _ _ _ _) as [s [e|rs]]; intros; simplify_eq.
    eexists; repeat split; eauto.
Qed.

Lemma nextval_inr name n z :
  nextval name n = inr z → z = n ∧ n ≤ INT4_MAX.
Proof. unfold nextval. case_match; intros; simplify_eq. split; [done|lia]. Qed.

(** A commendation [INSERT] that succeeds appends its one row. *)
Lemma insert_commendation_inr ps t s s' rows :
  insert_commendation ps t s = (s', inr rows) →
  ∃ r, rows = [CommendationRow r]
       ∧ s' = set_commendations s (commendations s ++ [r])
                (commendations_id_seq s + 1)
       ∧ commendations.id r = commendations_id_seq s
       ∧ commendations.created_at r = Some t.
Proof.
  unfold insert_commendation.
  repeat (case_match; simplify_eq/=; try done).
  intros; simplify_eq.
  match goal with H : nextval _ _ = inr _ |- _ =>
    apply nextval_inr in H; destruct H as [-> _] end.
  eexists; repeat split; eauto.
Qed.

(** A statement that fails on the counter leaves every table as it was. *)
Lemma update_commendations_count_inl ps s s' e :
  update_commendations_count ps s = (s', inl e) → s' = s.
Proof.
  unfold update_commendations_count.
  destruct ps as [|p [|]]; try (intros; simplify_eq; done).
  destruct (nullable int4_in p) as [e0|id]; [intros; simplify_eq; done|].
  destruct (update_where _ _ _) as [e0|[table changed]];
    intros; simplify_eq; done.
Qed.

End Statements.

(** ** The commendation grant is two statements, not one (C10) *)

(** C10: when the [INSERT] of the grant succeeded and the [UPDATE] of the
    counter then fails, the handler answers 500 with the message of that
    failure, the new commendation row is in the table and the counter of
    every operative is what it was. *)
Theorem commendation_grant_not_atomic (date_in : string → option Z)
    (env : nat → Env) (req : Request) (w w1 w2 : World)
    (rows : list Row) (err : JsError) :
  pool_query date_in env InsertCommendation
    [param req "id"; field (body req) "level"; field (body req) "notes"] w
  = (Normal rows, w1) →
  pool_query date_in env UpdateCommendationsCount [param req "id"] w1
  = (Throw err, w2) →
  post_api_battle_id_commendation date_in env req w
  = (Normal {| status := 500; json := JsonError (js_message err) |}, w2)
  ∧ ∃ r, rows = [CommendationRow r]
         ∧ commendations (db w2) = commendations (db w) ++ [r]
         ∧ battle_ids (db w2) = battle_ids (db w).
Proof.
  intros Hins Hupd. split.
  - unfold_handlers. rewrite Hins, Hupd. reflexivity.
  - apply pool_query_normal in Hins as (_ & Hins & _).
    apply insert_commendation_inr in Hins as (r & -> & Hdb & _).
    exists r. split; [done|].
    apply pool_query_throw in Hupd as (e & -> & _ & [(msg & _ & _ & Hsame)|[_ Hex]]).
    + rewrite Hsame, Hdb. done.
    + apply update_commendations_count_inl in Hex. rewrite Hex, Hdb. done.
Qed.

(** The connection is lost between the two statements of a grant to the
    operative of [roster]: the answer is 500 and the row stays. *)
Lemma commendation_grant_not_atomic_witness :
  let req := request JUndefined [("id", "1")] [("level", JNum 2)] in
  let w := {| db := roster; sent := [] |} in
  ∃ w2 r,
    post_api_battle_id_commendation iso_date (drop_at 1) req w
    = (Normal {| status := 500;
                 json := JsonError "Connection terminated unexpectedly" |}, w2)
    ∧ commendations (db w2) = [r]
    ∧ battle_ids (db w2) = [operative 1 "Rex" 0].
Proof.
  intros req w.
  destruct (commendation_grant_not_atomic iso_date (drop_at 1) req w
              (pool_query iso_date (drop_at 1) InsertCommendation
                 [param req "id"; field (body req) "level";
                  field (body req) "notes"] w).2
              (pool_query iso_date (drop_at 1) UpdateCommendationsCount
                 [param req "id"]
                 (pool_query iso_date (drop_at 1) InsertCommendation
                    [param req "id"; field (body req) "level";
                     field (body req) "notes"] w).2).2
              [CommendationRow
                 {| commendations.id := 1; commendations.battle_id := 1;
                    commendations.level := 2; commendations.notes := None;
                    commendations.created_at := Some 0 |}]
              (DatabaseError
                 (ConnectionFailure "Connection terminated unexpectedly")))
    as (Hres & r & Hrows & Hc & Hb).
  - reflexivity.
  - reflexivity.
  - eexists _, r. split; [exact Hres|]. split; [exact Hc|exact Hb].
Defined.

(** ** An id that names no operative (C5) *)

Lemma has_id_missing x (l : list battle_ids.row) :
  x ∉ battle_ids.id <$> l → Forall (λ r, has_id (Some x) r = false) l.
Proof.
  intros Hx. apply Forall_forall. intros r Hr. unfold has_id.
  apply bool_decide_eq_false_2. intros [= ->]. apply Hx.
  apply list_elem_of_fmap. eauto.
Qed.

Lemma filter_none {A} (p : A → bool) (l : list A) :
  Forall (λ r, p r = false) l → filter (λ r, p r) l = [].
Proof.
  induction 1 as [|r l Hr _ IH]; [done|].
  rewrite filter_cons. rewrite Hr. simpl. apply IH.
Qed.

Lemma filter_all {A} (p : A → bool) (l : list A) :
  Forall (λ r, p r = false) l → filter (λ r, negb (p r)) l = l.
Proof.
  induction 1 as [|r l Hr _ IH]; [done|].
  rewrite filter_cons. rewrite Hr. simpl. by rewrite IH.
Qed.

Lemma update_where_none {A} (p : A → bool) f (l : list A) :
  Forall (λ r, p r = false) l → update_where p f l = inr (l, []).
Proof.
  induction 1 as [|r l Hr _ IH]; [done|].
  simpl. rewrite Hr, IH. done.
Qed.

Lemma set_battle_ids_same s : set_battle_ids s (battle_ids s) (battle_ids_id_seq s) = s.
Proof. by destruct s. Qed.

Lemma skip_spaces_no_digit s : has_digit s = false → has_digit (skip_spaces s) = false.
Proof.
  induction s as [|c s IH]; [done|]. intros Hs. cbn [skip_spaces].
  destruct (is_space c); [|done]. apply IH.
  cbn [has_digit] in Hs. by apply orb_false_elim in Hs as [_ ?].
Qed.

Lemma no_digit_no_start s : has_digit s = false → starts_with_digit s = false.
Proof.
  destruct s as [|c s]; [done|]. cbn [has_digit starts_with_digit].
  by intros [? _]%orb_false_elim.
Qed.

(** A text with no digit in it is no integer. *)
Lemma integer_syntax_no_digit s : has_digit s = false → integer_syntax s = None.
Proof.
  intros Hs%skip_spaces_no_digit. unfold integer_syntax.
  destruct (skip_spaces s) as [|c s'] eqn:Hskip.
  - done.
  - pose proof (no_digit_no_start _ Hs) as Hstart.
    assert (Hrest : starts_with_digit s' = false).
    { apply no_digit_no_start. cbn [has_digit] in Hs.
      by apply orb_false_elim in Hs as [_ ?]. }
    destruct c as [[] [] [] [] [] [] [] []];
      first [ discriminate Hstart | by rewrite ?Hrest ].
Qed.

(** What the input function of [integer] answers to the two kinds of text
    it is sure to refuse. *)
Lemma int4_in_refuses t err :
  (∃ z, integer_syntax t = Some z ∧ ¬ (INT4_MIN ≤ z ≤ INT4_MAX)
        ∧ err = ValueOutOfRange t "integer")
  ∨ (has_digit t = false ∧ err = InvalidTextRepresentation "integer" t) →
  int4_in t = inl err.
Proof.
  unfold int4_in, int_in. intros [(z & -> & Hz & ->)|[Hd ->]].
  - destruct (_ && _) eqn:Hin; [|done].
    apply andb_prop in Hin as [?%Z.leb_le ?%Z.leb_le]. lia.
  - by rewrite integer_syntax_no_digit.
Qed.

Lemma names_param req k x :
  names req k x → nullable int4_in (prepareValue (param req k)) = inr (Some x).
Proof. intros (t & Ht & Hx). unfold param. rewrite Ht. simpl. by rewrite Hx. Qed.

Section MissingOperative.

Variable date_in : string → option Z.
Variable env : nat → Env.
Variable req : Request.
Variable w : World.
Variable x : Z.

Hypothesis no_fault : fault (env (length (sent w))) = None.
Hypothesis missing : x ∉ battle_ids.id <$> battle_ids (db w).

Lemma get_missing :
  names req "id" x →
  get_api_battle_id date_in env req w
  = (Normal {| status := 200; json := JsonRow None |},
     after w (db w) SelectBattleId [param req "id"]).
Proof.
  intros Hid. unfold_handlers. unfold pool_query. rewrite no_fault.
  cbn [exec fmap list_fmap]. unfold select_battle_id.
  rewrite (names_param _ _ _ Hid).
  rewrite (filter_none _ _ (has_id_missing _ _ missing)). reflexivity.
Qed.

Lemma put_missing dob :
  names req "id" x →
  nullable (pg_date_in date_in) (prepareValue (field (body req) "dob")) = inr dob →
  put_api_battle_id date_in env req w
  = (Normal {| status := 200; json := JsonRow None |},
     after w (db w) UpdateBattleId
       [field (body req) "name"; field (body req) "callsign";
        field (body req) "role"; field (body req) "rank";
        field (body req) "specialty"; field (body req) "ethnicity";
        field (body req) "dob"; field (body req) "strikes_level";
        field (body req) "notes"; field (body req) "avatar";
        field (body req) "status"; param req "id"]).
Proof.
  intros Hid Hdob. unfold_handlers. unfold pool_query. rewrite no_fault.
  cbn [exec fmap list_fmap]. unfold update_battle_id.
  rewrite Hdob, (names_param _ _ _ Hid).
  rewrite (update_where_none _ _ _ (has_id_missing _ _ missing)).
  rewrite set_battle_ids_same. reflexivity.
Qed.

Lemma delete_missing :
  names req "id" x →
  delete_api_battle_id date_in env req w
  = (Normal {| status := 200; json := JsonSuccess true |},
     after w (db w) DeleteBattleId [param req "id"]).
Proof.
  intros Hid. unfold_handlers. unfold pool_query. rewrite no_fault.
  cbn [exec fmap list_fmap]. unfold delete_battle_id.
  rewrite (names_param _ _ _ Hid).
  rewrite (filter_all _ _ (has_id_missing _ _ missing)).
  assert (Hgone : ∀ b, bool_decide
            (Some x = Some b ∧ b ∈ battle_ids.id <$> battle_ids (db w)) = false).
  { intros b. apply bool_decide_eq_false_2. intros [[= <-] Hb]. by apply missing. }
  rewrite !filter_all by (apply Forall_forall; intros; apply Hgone).
  unfold after. by destruct (db w).
Qed.

(** An id the input function of [integer] refuses: the three handlers
    that only look the operative up answer 500 and nothing changes. *)
Lemma refused_param k t err :
  params req !! k = Some t → int4_in t = inl err →
  nullable int4_in (prepareValue (param req k)) = inl err.
Proof. intros Ht Hx. unfold param. rewrite Ht. simpl. by rewrite Hx. Qed.

Lemma get_refused t err :
  params req !! "id" = Some t → int4_in t = inl err →
  ∃ w', get_api_battle_id date_in env req w
        = (Normal {| status := 500; json := JsonError (message err) |}, w')
        ∧ db w' = db w.
Proof.
  intros Ht Hx. unfold_handlers. unfold pool_query. rewrite no_fault.
  cbn [exec fmap list_fmap]. unfold select_battle_id.
  rewrite (refused_param _ _ _ Ht Hx). by eexists.
Qed.

Lemma delete_refused t err :
  params req !! "id" = Some t → int4_in t = inl err →
  ∃ w', delete_api_battle_id date_in env req w
        = (Normal {| status := 500; json := JsonError (message err) |}, w')
        ∧ db w' = db w.
Proof.
  intros Ht Hx. unfold_handlers. unfold pool_query. rewrite no_fault.
  cbn [exec fmap list_fmap]. unfold delete_battle_id.
  rewrite (refused_param _ _ _ Ht Hx). by eexists.
Qed.

Lemma put_refused t err :
  params req !! "id" = Some t → int4_in t = inl err →
  ∃ e w', put_api_battle_id date_in env req w
          = (Normal {| status := 500; json := JsonError (message e) |}, w')
          ∧ db w' = db w.
Proof.
  intros Ht Hx. unfold_handlers. unfold pool_query. rewrite no_fault.
  cbn [exec fmap list_fmap]. unfold update_battle_id.
  rewrite (refused_param _ _ _ Ht Hx).
  destruct (nullable (pg_date_in date_in) _) as [e|dob]; by eexists _, _.
Qed.

Lemma references_missing rel c : references_battle_ids rel c x (db w) = inl (ForeignKeyViolation rel c).
Proof.
  unfold references_battle_ids, require.
  by rewrite bool_decide_eq_false_2.
Qed.

End MissingOperative.

Section MissingOperativeGrants.

Variable date_in : string → option Z.
Variable env : nat → Env.
Variable req : Request.
Variable w : World.
Variable x : Z.

Hypothesis no_fault : fault (env (length (sent w))) = None.
Hypothesis missing : x ∉ battle_ids.id <$> battle_ids (db w).

Ltac first_statement Hid :=
  unfold_handlers; unfold pool_query; rewrite no_fault;
  cbn [exec fmap list_fmap];
  unfold insert_commendation, insert_rank_change, insert_award;
  rewrite (names_param _ _ _ Hid).

Lemma commendation_missing :
  names req "id" x →
  ∃ err w',
    post_api_battle_id_commendation date_in env req w
    = (Normal {| status := 500; json := JsonError (message err) |}, w')
    ∧ commendations (db w') = commendations (db w)
    ∧ battle_ids (db w') = battle_ids (db w).
Proof.
  intros Hid. first_statement Hid.
  destruct (nullable int2_in _) as [e|level]; [by eexists _, _|].
  destruct (nextval _ _) as [e|id]; [by eexists _, _|].
  cbn [not_null].
  destruct (not_null "commendations" "level" level) as [e|l]; [by eexists _, _|].
  destruct (check_in _ _ _ _) as [e|_]; [by eexists _, _|].
  destruct (require _ _) as [e|_]; [by eexists _, _|].
  rewrite (references_missing _ _ missing). by eexists _, _.
Qed.

Lemma rank_change_missing :
  names req "id" x →
  ∃ err w',
    post_api_battle_id_rank_change date_in env req w
    = (Normal {| status := 500; json := JsonError (message err) |}, w')
    ∧ rank_changes (db w') = rank_changes (db w)
    ∧ battle_ids (db w') = battle_ids (db w).
Proof.
  intros Hid. first_statement Hid.
  destruct (nextval _ _) as [e|id]; [by eexists _, _|].
  cbn [not_null].
  destruct (not_null "rank_changes" "change_type" _) as [e|l]; [by eexists _, _|].
  destruct (check_in _ _ _ _) as [e|_]; [by eexists _, _|].
  destruct (require _ _) as [e|_]; [by eexists _, _|].
  rewrite (references_missing _ _ missing). by eexists _, _.
Qed.

Lemma award_missing :
  names req "battle_id" x →
  ∃ err w',
    post_api_awards_battle_id date_in env req w
    = (Normal {| status := 500; json := JsonError (message err) |}, w')
    ∧ awards (db w') = awards (db w)
    ∧ battle_ids (db w') = battle_ids (db w).
Proof.
  intros Hid. first_statement Hid.
  destruct (nullable int4_in _) as [e|award]; [by eexists _, _|].
  destruct (nextval _ _) as [e|id]; [by eexists _, _|].
  cbn [not_null].
  destruct (not_null "awards" "award_id" award) as [e|l]; [by eexists _, _|].
  destruct (require _ _) as [e|_]; [by eexists _, _|].
  rewrite (references_missing _ _ missing). by eexists _, _.
Qed.

End MissingOperativeGrants.

(** C5, as stated, fails.  On the roster of the single operative 1: a
    commendation for operative 7, who does not exist, is answered 500 with
    the foreign-key error of the store; the id 2147483648, which names no
    operative either, is answered 500 by get-by-id because it is not a
    32-bit integer; and a PUT for operative 7 whose [dob] is not a date is
    answered 500 although no row is there to update. *)
Lemma missing_operative_answered_500 :
  let w := {| db := roster; sent := [] |} in
  battle_ids.id <$> battle_ids roster = [1]
  ∧ (post_api_battle_id_commendation iso_date quiet
       (request JUndefined [("id", "7")] [("level", JNum 1)]) w).1
    = Normal {| status := 500;
                json := JsonError
                          (message (ForeignKeyViolation "commendations"
                                      "commendations_battle_id_fkey")) |}
  ∧ (get_api_battle_id iso_date quiet
       (request JUndefined [("id", "2147483648")] []) w).1
    = Normal {| status := 500;
                json := JsonError
                          (message (ValueOutOfRange "2147483648" "integer")) |}
  ∧ (put_api_battle_id iso_date quiet
       (request JUndefined [("id", "7")]
          [("name", JStr "Ana"); ("dob", JStr "not a date")]) w).1
    = Normal {| status := 500;
                json := JsonError
                          (message (InvalidTextRepresentation "date"
                                      "not a date")) |}.
Proof. repeat split; reflexivity. Qed.

(** C5, amended: when the statement reaches the store.  For every id that
    is the text of a 32-bit integer and names no stored operative:
    get-by-id answers 200 with an empty payload; PUT, for a body of
    sendable values whose [dob] the store accepts, answers 200 with an
    empty payload and leaves the database as it was; DELETE answers 200
    with the success flag and leaves the database as it was; the
    operations that attach a row to the operative (rank change,
    commendation, award) answer 500 and add no row.  For an id that is the
    text of an integer outside 32 bits, or a text without U+0000 that has
    no digit in it: get-by-id and DELETE answer 500 with the message of
    the input function of [integer], PUT answers 500, and the database
    stays as it was. *)
Theorem missing_operative_is_no_error (date_in : string → option Z)
    (env : nat → Env) (req : Request) (w : World) (x : Z) :
  fault (env (length (sent w))) = None →
  x ∉ battle_ids.id <$> battle_ids (db w) →
  (names req "id" x →
     get_api_battle_id date_in env req w
     = (Normal {| status := 200; json := JsonRow None |},
        after w (db w) SelectBattleId [param req "id"])
     ∧ (∀ dob,
          sendable_body req = true →
          nullable (pg_date_in date_in) (prepareValue (field (body req) "dob"))
          = inr dob →
          put_api_battle_id date_in env req w
          = (Normal {| status := 200; json := JsonRow None |},
             after w (db w) UpdateBattleId
               [field (body req) "name"; field (body req) "callsign";
                field (body req) "role"; field (body req) "rank";
                field (body req) "specialty"; field (body req) "ethnicity";
                field (body req) "dob"; field (body req) "strikes_level";
                field (body req) "notes"; field (body req) "avatar";
                field (body req) "status"; param req "id"]))
     ∧ delete_api_battle_id date_in env req w
       = (Normal {| status := 200; json := JsonSuccess true |},
          after w (db w) DeleteBattleId [param req "id"])
     ∧ (∃ err w',
          post_api_battle_id_rank_change date_in env req w
          = (Normal {| status := 500; json := JsonError (message err) |}, w')
          ∧ rank_changes (db w') = rank_changes (db w)
          ∧ battle_ids (db w') = battle_ids (db w))
     ∧ (∃ err w',
          post_api_battle_id_commendation date_in env req w
          = (Normal {| status := 500; json := JsonError (message err) |}, w')
          ∧ commendations (db w') = commendations (db w)
          ∧ battle_ids (db w') = battle_ids (db w)))
  ∧ (names req "battle_id" x →
     ∃ err w',
       post_api_awards_battle_id date_in env req w
       = (Normal {| status := 500; json := JsonError (message err) |}, w')
       ∧ awards (db w') = awards (db w)
       ∧ battle_ids (db w') = battle_ids (db w))
  ∧ (∀ t err,
       params req !! "id" = Some t →
       (∃ z, integer_syntax t = Some z ∧ ¬ (INT4_MIN ≤ z ≤ INT4_MAX)
             ∧ err = ValueOutOfRange t "integer")
       ∨ (has_digit t = false ∧ no_nul t = true
          ∧ err = InvalidTextRepresentation "integer" t) →
       (∃ w', get_api_battle_id date_in env req w
              = (Normal {| status := 500; json := JsonError (message err) |},
                 w')
              ∧ db w' = db w)
       ∧ (∃ w', delete_api_battle_id date_in env req w
                = (Normal {| status := 500; json := JsonError (message err) |},
                   w')
                ∧ db w' = db w)
       ∧ (∃ e w', put_api_battle_id date_in env req w
                  = (Normal {| status := 500; json := JsonError (message e) |},
                     w')
                  ∧ db w' = db w)).
Proof.
  intros Hfault Hmiss. split; [|split].
  - intros Hid. repeat split.
    + by apply (get_missing _ _ _ _ x).
    + intros dob _. by apply (put_missing _ _ _ _ x).
    + by apply (delete_missing _ _ _ _ x).
    + by apply (rank_change_missing _ _ _ _ x).
    + by apply (commendation_missing _ _ _ _ x).
  - intros Hid. by apply (award_missing _ _ _ _ x).
  - intros t err Ht Hrefused.
    assert (Hin : int4_in t = inl err).
    { apply int4_in_refuses.
      destruct Hrefused as [?|(? & _ & ?)]; [by left|by right]. }
    split; [|split].
    + by apply (get_refused _ _ _ _ Hfault t).
    + by apply (delete_refused _ _ _ _ Hfault t).
    + by apply (put_refused _ _ _ _ Hfault t err).
Qed.

(** On the roster of operative 1, the id 7 names no one: get-by-id, PUT
    and DELETE answer 200 and change nothing; the ids 2147483648 and
    [abc] are refused with the message of the store. *)
Lemma missing_operative_is_no_error_witness :
  let req := request JUndefined [("id", "7")] [("name", JStr "Ana")] in
  let w := {| db := roster; sent := [] |} in
  (get_api_battle_id iso_date quiet req w).1
  = Normal {| status := 200; json := JsonRow None |}
  ∧ (put_api_battle_id iso_date quiet req w).1
    = Normal {| status := 200; json := JsonRow None |}
  ∧ db (put_api_battle_id iso_date quiet req w).2 = roster
  ∧ (delete_api_battle_id iso_date quiet req w).1
    = Normal {| status := 200; json := JsonSuccess true |}
  ∧ db (delete_api_battle_id iso_date quiet req w).2 = roster
  ∧ (∃ w', delete_api_battle_id iso_date quiet
             (request JUndefined [("id", "2147483648")] []) w
           = (Normal {| status := 500;
                        json := JsonError
                                  (message (ValueOutOfRange "2147483648"
                                              "integer")) |}, w')
           ∧ db w' = roster)
  ∧ (∃ w', get_api_battle_id iso_date quiet
             (request JUndefined [("id", "abc")] []) w
           = (Normal {| status := 500;
                        json := JsonError
                                  (message (InvalidTextRepresentation "integer"
                                              "abc")) |}, w')
           ∧ db w' = roster).
Proof.
  intros req w.
  assert (Hmiss : 7 ∉ battle_ids.id <$> battle_ids (db w)).
  { apply (bool_decide_unpack _). reflexivity. }
  assert (Hid : names req "id" 7).
  { exists "7". split; reflexivity. }
  destruct (missing_operative_is_no_error iso_date quiet req w 7
              eq_refl Hmiss) as (H & _ & _).
  destruct (H Hid) as (Hget & Hput & Hdel & _).
  rewrite Hget, (Hput None eq_refl eq_refl), Hdel.
  split; [reflexivity|]. split; [reflexivity|]. split; [reflexivity|].
  split; [reflexivity|]. split; [reflexivity|]. split.
  - destruct (missing_operative_is_no_error iso_date quiet
                (request JUndefined [("id", "2147483648")] []) w 7
                eq_refl Hmiss) as (_ & _ & Hrefused).
    destruct (Hrefused "2147483648" (ValueOutOfRange "2147483648" "integer")
                eq_refl) as (_ & Hdelete & _); [|exact Hdelete].
    left. exists 2147483648. split; [reflexivity|]. split; [|reflexivity].
    unfold INT4_MAX. lia.
  - destruct (missing_operative_is_no_error iso_date quiet
                (request JUndefined [("id", "abc")] []) w 7
                eq_refl Hmiss) as (_ & _ & Hrefused).
    destruct (Hrefused "abc" (InvalidTextRepresentation "integer" "abc")
                eq_refl) as (Hget' & _ & _); [|exact Hget'].
    right. split; [reflexivity|]. split; reflexivity.
Defined.

(** ** Defaults of a new operative (C3) *)

(** C3, as stated, fails in its last part: a [status] supplied as the
    empty string is not stored as supplied, the row gets ["active"]. *)
Lemma empty_status_stored_as_active :
  let req := request JUndefined [] [("name", JStr "Rex"); ("status", JStr "")] in
  body req !! "status" = Some (JStr "")
  ∧ ∃ r w',
      post_api_battle iso_date quiet req fresh_world
      = (Normal {| status := 200; json := JsonRow (Some (BattleRow r)) |}, w')
      ∧ battle_ids (db w') = [r]
      ∧ battle_ids.status r = Some "active"
      ∧ battle_ids.status r ≠ prepareValue (JStr "").
Proof.
  split; [reflexivity|]. eexists _, _. split; [reflexivity|].
  split; [reflexivity|]. split; [reflexivity|]. discriminate.
Qed.

Lemma check_in_member rel c (allowed : list string) v :
  v ∈ Some <$> allowed → check_in rel c allowed v = inr tt.
Proof.
  intros (a & -> & Ha)%list_elem_of_fmap. unfold check_in, require.
  by rewrite bool_decide_eq_true_2.
Qed.

Lemma field_omitted (o : gmap string JsVal) k :
  o !! k = None → field o k = JUndefined.
Proof. unfold field. by intros ->. Qed.

(** C3, amended: a create request whose [name] is given, whose [dob] is
    absent or a date the store accepts and whose [strikes_level], after the
    default, is one of the five levels, is answered 200 with the row that
    was appended to the table.  That row has [strikes_level] ["0"] when the
    body omits it and [status] ["active"] when the body omits it; the
    other fields are stored as supplied; a supplied [strikes_level] or
    [status] is stored as supplied when it is truthy, and replaced by the
    default when it is null, empty, zero or false. *)
Theorem create_operative_defaults (date_in : string → option Z)
    (env : nat → Env) (req : Request) (w : World) (nm : string)
    (birth : option Z) :
  fault (env (length (sent w))) = None →
  prepareValue (field (body req) "name") = Some nm →
  nullable (pg_date_in date_in) (prepareValue (field (body req) "dob"))
  = inr birth →
  prepareValue (js_or (field (body req) "strikes_level") (JStr "0"))
  ∈ Some <$> strikes_levels →
  battle_ids_id_seq (db w) ≤ INT4_MAX →
  battle_ids_id_seq (db w) ∉ battle_ids.id <$> battle_ids (db w) →
  ∃ r w',
    post_api_battle date_in env req w
    = (Normal {| status := 200; json := JsonRow (Some (BattleRow r)) |}, w')
    ∧ battle_ids (db w') = battle_ids (db w) ++ [r]
    ∧ (body req !! "strikes_level" = None → battle_ids.strikes_level r = Some "0")
    ∧ (body req !! "status" = None → battle_ids.status r = Some "active")
    ∧ battle_ids.name r = nm
    ∧ battle_ids.callsign r = prepareValue (field (body req) "callsign")
    ∧ battle_ids.role r = prepareValue (field (body req) "role")
    ∧ battle_ids.rank r = prepareValue (field (body req) "rank")
    ∧ battle_ids.specialty r = prepareValue (field (body req) "specialty")
    ∧ battle_ids.ethnicity r = prepareValue (field (body req) "ethnicity")
    ∧ battle_ids.dob r = birth
    ∧ battle_ids.notes r = prepareValue (field (body req) "notes")
    ∧ battle_ids.avatar r = prepareValue (field (body req) "avatar")
    ∧ battle_ids.strikes_level r
      = (if truthy (field (body req) "strikes_level")
         then prepareValue (field (body req) "strikes_level") else Some "0")
    ∧ battle_ids.status r
      = (if truthy (field (body req) "status")
         then prepareValue (field (body req) "status") else Some "active").
Proof.
  intros Hfault Hname Hdob Hlevel Hseq Hfresh.
  unfold_handlers. unfold pool_query. rewrite Hfault.
  cbn [exec fmap list_fmap]. unfold insert_battle_id.
  rewrite Hdob. unfold nextval.
  rewrite (proj2 (Z.leb_le _ _) Hseq).
  rewrite Hname. cbn [not_null].
  rewrite (check_in_member _ _ _ _ Hlevel).
  unfold require. rewrite (bool_decide_eq_true_2 _ Hfresh).
  eexists _, _. split; [reflexivity|]. cbn.
  split; [reflexivity|].
  split; [intros H; by rewrite (field_omitted _ _ H)|].
  split; [intros H; by rewrite (field_omitted _ _ H)|].
  repeat split; unfold js_or; by case_match.
Qed.

(** A body with a name only: the row has both defaults. *)
Lemma create_operative_defaults_witness :
  ∃ r w',
    post_api_battle iso_date quiet
      (request JUndefined [] [("name", JStr "Rex")]) fresh_world
    = (Normal {| status := 200; json := JsonRow (Some (BattleRow r)) |}, w')
    ∧ battle_ids (db w') = [r]
    ∧ battle_ids.strikes_level r = Some "0"
    ∧ battle_ids.status r = Some "active"
    ∧ battle_ids.name r = "Rex".
Proof.
  destruct (create_operative_defaults iso_date quiet
              (request JUndefined [] [("name", JStr "Rex")]) fresh_world
              "Rex" None)
    as (r & w' & Hres & Hrows & Hlevel & Hstatus & Hname & _).
  - reflexivity.
  - reflexivity.
  - reflexivity.
  - apply (bool_decide_unpack _). reflexivity.
  - unfold INT4_MAX. simpl. lia.
  - apply (bool_decide_unpack _). reflexivity.
  - exists r, w'. split; [exact Hres|]. split; [exact Hrows|].
    split; [apply Hlevel; reflexivity|].
    split; [apply Hstatus; reflexivity|]. exact Hname.
Defined.

(** ** Order of the listings (C4) *)

Lemma order_by_desc_sorted {A} (key : A → option Z) l :
  StronglySorted (desc_by key) (order_by_desc key l).
Proof. apply (StronglySorted_merge_sort _). Qed.

Lemma order_by_desc_perm {A} (key : A → option Z) l : order_by_desc key l ≡ₚ l.
Proof. apply merge_sort_Permutation. Qed.

Lemma order_by_asc_sorted {A} (key : A → option Z) l :
  StronglySorted (asc_by key) (order_by_asc key l).
Proof. apply (StronglySorted_merge_sort _). Qed.

Lemma order_by_asc_perm {A} (key : A → option Z) l : order_by_asc key l ≡ₚ l.
Proof. apply merge_sort_Permutation. Qed.

(** With unique catalog ids, a grant whose award exists joins with exactly
    one catalog entry. *)
Lemma catalog_entry_unique (cat : list awards_catalog.row) z :
  NoDup (awards_catalog.id <$> cat) →
  z ∈ awards_catalog.id <$> cat →
  ∃ c, filter (λ c, bool_decide (z = awards_catalog.id c)) cat = [c].
Proof.
  induction cat as [|c cat IH]; intros Hnd Hin; [by apply elem_of_nil in Hin|].
  rewrite fmap_cons in Hnd, Hin. apply NoDup_cons in Hnd as [Hc Hnd].
  rewrite filter_cons. destruct (decide (z = awards_catalog.id c)) as [->|Hne].
  - rewrite bool_decide_eq_true_2 by done. simpl. exists c. f_equal.
    apply (filter_none (λ k, bool_decide (awards_catalog.id c = awards_catalog.id k))).
    apply Forall_forall. intros k Hk. apply bool_decide_eq_false_2.
    intros Heq. apply Hc. rewrite Heq. apply list_elem_of_fmap. eauto.
  - rewrite bool_decide_eq_false_2 by done. simpl. apply IH; [done|].
    apply elem_of_cons in Hin as [?|?]; done.
Qed.

Lemma awards_join_catalog_fst s :
  catalog_integrity s → (awards_join_catalog s).*1 = awards s.
Proof.
  intros [Hnd Hfk]. unfold awards_join_catalog.
  induction (awards s) as [|a l IH]; [done|].
  rewrite bind_cons, fmap_app, IH by (intros; apply Hfk; by right).
  destruct (catalog_entry_unique _ _ Hnd (Hfk a ltac:(by left))) as [c ->].
  done.
Qed.

Lemma filter_fst {A B} (p : A → bool) (l : list (A * B)) :
  (filter (λ ab, p ab.1) l).*1 = filter (λ a, p a) l.*1.
Proof.
  induction l as [|[a b] l IH]; [done|].
  rewrite fmap_cons. cbn [fst]. destruct (p a) eqn:E.
  - rewrite !filter_cons_True by (cbn [fst]; by rewrite E).
    by rewrite fmap_cons, IH.
  - rewrite !filter_cons_False by (cbn [fst]; rewrite E; intros []). done.
Qed.

Lemma elem_of_awards_join_catalog s a c :
  (a, c) ∈ awards_join_catalog s
  ↔ a ∈ awards s ∧ c ∈ awards_catalog s
    ∧ awards.award_id a = awards_catalog.id c.
Proof.
  unfold awards_join_catalog. rewrite list_elem_of_bind. split.
  - intros (a' & Hin & Ha'). apply list_elem_of_fmap in Hin as (c' & [= <- <-] & Hc).
    apply list_elem_of_filter in Hc as [Hc%bool_decide_unpack Hc']. done.
  - intros (Ha & Hc & Hid). exists a. split; [|done].
    apply list_elem_of_fmap. exists c. split; [done|].
    apply list_elem_of_filter. split; [|done]. by apply bool_decide_pack.
Qed.

Section Listings.

Variable date_in : string → option Z.
Variable env : nat → Env.
Variable req : Request.
Variable w : World.

Hypothesis no_fault : fault (env (length (sent w))) = None.

Lemma list_operatives :
  ∃ l, get_api_battle date_in env req w
       = (Normal {| status := 200; json := JsonRows (BattleRow <$> l) |},
          after w (db w) SelectBattleIds [])
       ∧ l ≡ₚ battle_ids (db w)
       ∧ StronglySorted (desc_by battle_ids.created_at) l.
Proof.
  exists (order_by_desc battle_ids.created_at (battle_ids (db w))).
  split; [|split; [apply order_by_desc_perm|apply order_by_desc_sorted]].
  unfold_handlers. unfold pool_query. rewrite no_fault. reflexivity.
Qed.

Lemma list_catalog :
  ∃ l, get_api_awards_catalog date_in env req w
       = (Normal {| status := 200; json := JsonRows (CatalogRow <$> l) |},
          after w (db w) SelectAwardsCatalog [])
       ∧ l ≡ₚ awards_catalog (db w)
       ∧ StronglySorted (asc_by (λ r, Some (awards_catalog.id r))) l.
Proof.
  exists (order_by_asc (λ r, Some (awards_catalog.id r)) (awards_catalog (db w))).
  split; [|split; [apply order_by_asc_perm|apply order_by_asc_sorted]].
  unfold_handlers. unfold pool_query. rewrite no_fault. reflexivity.
Qed.

Lemma list_grants x :
  names req "battle_id" x →
  ∃ l, get_api_awards_battle_id date_in env req w
       = (Normal {| status := 200; json := JsonRows (award_with_catalog <$> l) |},
          after w (db w) SelectAwards [param req "battle_id"])
       ∧ StronglySorted (desc_by (λ ac, awards.granted_at ac.1)) l
       ∧ (∀ a c, (a, c) ∈ l
                 ↔ a ∈ awards (db w) ∧ awards.battle_id a = x
                   ∧ c ∈ awards_catalog (db w)
                   ∧ awards.award_id a = awards_catalog.id c)
       ∧ (catalog_integrity (db w) →
          l.*1 ≡ₚ filter (λ a, awards.battle_id a = x) (awards (db w))).
Proof.
  intros Hid.
  exists (order_by_desc (λ ac, awards.granted_at ac.1)
            (filter (λ ac, bool_decide (Some x = Some (awards.battle_id ac.1)))
               (awards_join_catalog (db w)))).
  split; [|split; [apply order_by_desc_sorted|split]].
  - unfold_handlers. unfold pool_query. rewrite no_fault.
    cbn [exec fmap list_fmap]. unfold select_awards.
    rewrite (names_param _ _ _ Hid). reflexivity.
  - intros a c. rewrite order_by_desc_perm, list_elem_of_filter.
    rewrite elem_of_awards_join_catalog. cbn [fst]. split.
    + intros [[= ->]%bool_decide_unpack (? & ? & ?)]. done.
    + intros (? & <- & ? & ?). split; [by apply bool_decide_pack|done].
  - intros Hint. rewrite order_by_desc_perm.
    pose proof (filter_fst
                  (λ a, bool_decide (Some x = Some (awards.battle_id a)))
                  (awards_join_catalog (db w))) as Hfst.
    cbv beta in Hfst. rewrite Hfst, (awards_join_catalog_fst _ Hint).
    erewrite list_filter_iff; [reflexivity|].
    intros a. cbn. rewrite bool_decide_spec. split; [by intros [= ->]|by intros ->].
Qed.

End Listings.

Section LegacyListing.

Variable row : Type.
Variable id : row → Z.
Variable dml : Legacy.Stmt → list (option string) → list row
               → list row * (PgError + list row).
Variable env : nat → Env.
Variable req : Request.
Variable w : Legacy.World row.

Hypothesis no_fault : fault (env (length (Legacy.sent row w))) = None.

Lemma legacy_list_operatives :
  ∃ l w', Legacy.get_api_battle row id dml env req w
          = (Normal {| status := 200; json := JsonRows l |}, w')
          ∧ Legacy.battle_ids row w' = Legacy.battle_ids row w
          ∧ l ≡ₚ Legacy.battle_ids row w
          ∧ StronglySorted (desc_by (λ r, Some (id r))) l.
Proof.
  exists (order_by_desc (λ r, Some (id r)) (Legacy.battle_ids row w)).
  eexists. split; [|split; [|split; [apply order_by_desc_perm
                                    |apply order_by_desc_sorted]]].
  - unfold Legacy.get_api_battle, Legacy.pool_query, try_catch, bind, res_json, ret.
    rewrite no_fault. reflexivity.
  - reflexivity.
Qed.

End LegacyListing.

(** C4: when the statement reaches the store, list-operatives answers with
    all operative rows, latest [created_at] first (largest [id] first in
    the legacy server); list-award-catalog answers with all entries,
    smallest [id] first; list-grants answers with the grants of the
    operative, each with the name and the icon of its catalog entry,
    latest [granted_at] first, and with all grants of that operative when
    every grant names one catalog entry.  NULL sorts as the largest value,
    as in PostgreSQL. *)
Theorem listings_ordered (date_in : string → option Z) (env : nat → Env)
    (req : Request) (w : World) :
  fault (env (length (sent w))) = None →
  (∃ l, get_api_battle date_in env req w
        = (Normal {| status := 200; json := JsonRows (BattleRow <$> l) |},
           after w (db w) SelectBattleIds [])
        ∧ l ≡ₚ battle_ids (db w)
        ∧ StronglySorted (desc_by battle_ids.created_at) l)
  ∧ (∃ l, get_api_awards_catalog date_in env req w
          = (Normal {| status := 200; json := JsonRows (CatalogRow <$> l) |},
             after w (db w) SelectAwardsCatalog [])
          ∧ l ≡ₚ awards_catalog (db w)
          ∧ StronglySorted (asc_by (λ r, Some (awards_catalog.id r))) l)
  ∧ (∀ x, names req "battle_id" x →
       ∃ l, get_api_awards_battle_id date_in env req w
            = (Normal {| status := 200;
                         json :=
                           JsonRows
                             ((λ ac, AwardWithCatalog ac.1
                                       (awards_catalog.name ac.2)
                                       (awards_catalog.icon_url ac.2))
                                <$> l) |},
               after w (db w) SelectAwards [param req "battle_id"])
            ∧ StronglySorted (desc_by (λ ac, awards.granted_at ac.1)) l
            ∧ (∀ a c, (a, c) ∈ l
                      ↔ a ∈ awards (db w) ∧ awards.battle_id a = x
                        ∧ c ∈ awards_catalog (db w)
                        ∧ awards.award_id a = awards_catalog.id c)
            ∧ (catalog_integrity (db w) →
               l.*1 ≡ₚ filter (λ a, awards.battle_id a = x) (awards (db w))))
  ∧ (∀ row (id : row → Z) dml (lw : Legacy.World row),
       fault (env (length (Legacy.sent row lw))) = None →
       ∃ l lw', Legacy.get_api_battle row id dml env req lw
                = (Normal {| status := 200; json := JsonRows l |}, lw')
                ∧ Legacy.battle_ids row lw' = Legacy.battle_ids row lw
                ∧ l ≡ₚ Legacy.battle_ids row lw
                ∧ StronglySorted (desc_by (λ r, Some (id r))) l).
Proof.
  intros Hfault. repeat split.
  - by apply list_operatives.
  - by apply list_catalog.
  - intros x Hx. destruct (list_grants date_in env req w Hfault x Hx)
      as (l & Hget & Hsorted & Hl & Hall).
    exists l. split; [exact Hget|]. split; [exact Hsorted|].
    split; [exact Hl|exact Hall].
  - intros. by apply legacy_list_operatives.
Qed.

(** The three operatives of [squad] come back latest first, and so do the
    two awards of operative 1, each with the name of its catalog entry. *)
Lemma listings_ordered_witness :
  (∃ l, (get_api_battle iso_date quiet (request JUndefined [] []) squad).1
        = Normal {| status := 200; json := JsonRows (BattleRow <$> l) |}
        ∧ l ≡ₚ battle_ids (db squad)
        ∧ StronglySorted (desc_by battle_ids.created_at) l)
  ∧ ∃ l, (get_api_awards_battle_id iso_date quiet
            (request JUndefined [("battle_id", "1")] []) squad).1
         = Normal {| status := 200;
                     json :=
                       JsonRows
                         ((λ ac, AwardWithCatalog ac.1
                                   (awards_catalog.name ac.2)
                                   (awards_catalog.icon_url ac.2))
                            <$> l) |}
         ∧ StronglySorted (desc_by (λ ac, awards.granted_at ac.1)) l
         ∧ ∀ a c, (a, c) ∈ l
                  ↔ a ∈ awards (db squad) ∧ awards.battle_id a = 1
                    ∧ c ∈ awards_catalog (db squad)
                    ∧ awards.award_id a = awards_catalog.id c.
Proof.
  split.
  - destruct (listings_ordered iso_date quiet (request JUndefined [] []) squad
                eq_refl) as [(l & Hget & Hperm & Hsorted) _].
    exists l. rewrite Hget. split; [reflexivity|].
    split; [exact Hperm|exact Hsorted].
  - destruct (listings_ordered iso_date quiet
                (request JUndefined [("battle_id", "1")] []) squad eq_refl)
      as (_ & _ & Hgrants & _).
    destruct (Hgrants 1) as (l & Hget & Hsorted & Hl & _).
    { exists "1". split; reflexivity. }
    exists l. rewrite Hget. split; [reflexivity|].
    split; [exact Hsorted|exact Hl].
Defined.

Example squad_grants :
  (get_api_awards_battle_id iso_date quiet
     (request JUndefined [("battle_id", "1")] []) squad).1
  = Normal
      {| status := 200;
         json :=
           JsonRows
             [ AwardWithCatalog
                 {| awards.id := 2; awards.battle_id := 1; awards.award_id := 1;
                    awards.notes := None; awards.granted_at := Some 6 |}
                 "Valor" None;
               AwardWithCatalog
                 {| awards.id := 1; awards.battle_id := 1; awards.award_id := 2;
                    awards.notes := None; awards.granted_at := Some 5 |}
                 "Merit" None ] |}.
Proof. reflexivity. Qed.

Example squad_listing :
  order_by_desc battle_ids.created_at (battle_ids (db squad))
  = [ {| battle_ids.id := 3; battle_ids.name := "Zed";
         battle_ids.callsign := None; battle_ids.role := None;
         battle_ids.rank := None; battle_ids.specialty := None;
         battle_ids.ethnicity := None; battle_ids.dob := None;
         battle_ids.strikes_level := Some "0";
         battle_ids.commendations_count := Some 0;
         battle_ids.notes := None; battle_ids.avatar := None;
         battle_ids.status := Some "active"; battle_ids.created_at := Some 2 |};
      {| battle_ids.id := 2; battle_ids.name := "Ana";
         battle_ids.callsign := None; battle_ids.role := None;
         battle_ids.rank := None; battle_ids.specialty := None;
         battle_ids.ethnicity := None; battle_ids.dob := None;
         battle_ids.strikes_level := Some "0";
         battle_ids.commendations_count := Some 0;
         battle_ids.notes := None; battle_ids.avatar := None;
         battle_ids.status := Some "active"; battle_ids.created_at := Some 1 |};
      operative 1 "Rex" 0 ].
Proof. reflexivity. Qed.

(** ** Sequence repair (C1) *)

Section Repair.

Import Schema.

Lemma coalesce_max_id_upper ids i : i ∈ ids → i ≤ coalesce_max_id ids.
Proof.
  destruct ids as [|x l]; [by intros ?%elem_of_nil|]. simpl.
  revert i. induction l as [|y l IH]; intros i Hi; simpl.
  - apply elem_of_cons in Hi as [->|?%elem_of_nil]; [lia|done].
  - apply elem_of_cons in Hi as [->|Hi].
    + specialize (IH x ltac:(by left)). lia.
    + apply elem_of_cons in Hi as [->|Hi]; [lia|].
      specialize (IH i ltac:(by right)). lia.
Qed.

Lemma coalesce_max_id_elem ids : ids ≠ [] → coalesce_max_id ids ∈ ids.
Proof.
  destruct ids as [|x l]; [done|]. intros _. simpl.
  induction l as [|y l IH]; simpl; [by left|].
  destruct (Z.max_spec y (foldr Z.max x l)) as [[_ ->]|[_ ->]].
  - apply elem_of_cons in IH as [->|IH]; [by left|by do 2 right].
  - right. by left.
Qed.

Lemma has_column_set_default d cols name :
  has_column (set_default name d cols) name = has_column cols name.
Proof.
  unfold has_column, set_default. apply bool_decide_ext.
  rewrite !Exists_exists. split.
  - intros (c & (c0 & -> & Hc0)%list_elem_of_fmap & Hc).
    exists c0. split; [done|]. by destruct (String.eqb _ _).
  - intros (c & Hc & Hn). eexists. split.
    + apply list_elem_of_fmap. eauto.
    + by destruct (String.eqb _ _).
Qed.

Lemma find_default_set d cols name :
  has_column cols name = true →
  (c ← list_find (λ c, col_name c = name) (set_default name d cols);
   col_default c.2) = Some d.
Proof.
  unfold has_column. intros H%bool_decide_eq_true.
  induction cols as [|c cols IH]; [by apply Exists_nil in H|].
  unfold set_default. rewrite fmap_cons. cbn [list_find].
  destruct (String.eqb_spec (col_name c) name) as [Heq|Hne].
  - rewrite decide_True by done. reflexivity.
  - rewrite decide_False by done.
    apply Exists_cons in H as [?|H]; [done|].
    specialize (IH H). unfold set_default in IH.
    destruct (list_find _ _) as [[i k]|]; [|done]. exact IH.
Qed.

End Repair.

Section RepairRuns.

Import Schema.

Variable env : nat → Env.

(** The database after [ensureIdSequence]: what the block made of it, or
    the database as it was when the block failed or never ran. *)
Lemma ensureIdSequence_db w :
  db (ensureIdSequence env w).2
  = match fault (env (issued w)), repair_id_sequence (db w) with
    | None, inr d => d
    | _, _ => db w
    end.
Proof.
  unfold ensureIdSequence, try_catch, bind, print, pool_query. cbn.
  destruct (fault (env (issued w))); [done|].
  cbn. destruct (repair_id_sequence (db w)); done.
Qed.

Lemma repair_creates d cols :
  pg_class d !! "battle_ids" = Some (Table cols) →
  has_column cols "id" = true →
  1 ≤ coalesce_max_id (battle_ids d) + 1 ≤ INT4_MAX →
  pg_class d !! "battle_ids_id_seq" = None →
  repair_id_sequence d
  = inr {| pg_class :=
             <["battle_ids" :=
                 Table (set_default "id" (DefaultNextval "battle_ids_id_seq") cols)]>
               (<["battle_ids_id_seq" :=
                    Sequence {| next := coalesce_max_id (battle_ids d) + 1;
                                minvalue := 1; maxvalue := INT8_MAX |}]>
                  (pg_class d));
           battle_ids := battle_ids d |}.
Proof.
  intros Ht Hc Hn Hs. unfold repair_id_sequence, require.
  rewrite Ht, Hc, Hs.
  replace (INT4_MIN <=? _) with true by (unfold INT4_MIN; lia).
  replace (_ <=? INT4_MAX) with true by lia.
  replace (1 <=? _) with true by lia. reflexivity.
Qed.

Lemma repair_restarts d cols sq :
  pg_class d !! "battle_ids" = Some (Table cols) →
  has_column cols "id" = true →
  INT4_MIN ≤ coalesce_max_id (battle_ids d) + 1 ≤ INT4_MAX →
  pg_class d !! "battle_ids_id_seq" = Some (Sequence sq) →
  minvalue sq ≤ coalesce_max_id (battle_ids d) + 1 ≤ maxvalue sq →
  repair_id_sequence d
  = inr {| pg_class :=
             <["battle_ids_id_seq" :=
                 Sequence {| next := coalesce_max_id (battle_ids d) + 1;
                             minvalue := minvalue sq;
                             maxvalue := maxvalue sq |}]> (pg_class d);
           battle_ids := battle_ids d |}.
Proof.
  intros Ht Hc Hn Hs Hb. unfold repair_id_sequence, require.
  rewrite Ht, Hc, Hs.
  replace (INT4_MIN <=? _) with true by lia.
  replace (_ <=? INT4_MAX) with true by lia.
  replace (minvalue sq <=? _) with true by lia.
  replace (_ <=? maxvalue sq) with true by lia. reflexivity.
Qed.

(** The id of the next row inserted without an id, when the default of
    the column reads a sequence that has room. *)
Lemma next_generated_id_nextval d cols name sq :
  pg_class d !! "battle_ids" = Some (Table cols) →
  (c ← list_find (λ c, col_name c = "id") cols; col_default c.2)
  = Some (DefaultNextval name) →
  pg_class d !! name = Some (Sequence sq) →
  next sq ≤ maxvalue sq →
  next_generated_id d = inr (next sq).
Proof.
  intros Ht Hd Hs Hle.
  unfold next_generated_id, insert_default_id, id_default, nextval, require.
  rewrite Ht, Hd, Hs. replace (next sq <=? maxvalue sq) with true by lia.
  reflexivity.
Qed.

End RepairRuns.

(** C1, as stated, fails.  With the largest id at 2147483647 the sum
    leaves the type [integer]: the block fails, the database stays as it
    was and the next row still gets no id.  With the ids 3, 7, 2 under a
    sequence of the name that the column [id] does not read, the sequence
    is restarted at 8 and the next row gets no id either.  With -5 as the
    only id the sequence cannot be created at -4. *)
Lemma repair_leaves_no_generated_id :
  Schema.repair_id_sequence (handmade [2147483647])
  = inl (NumericValueOutOfRange "integer")
  ∧ Schema.db (Schema.ensureIdSequence quiet
                 (booting (handmade [2147483647]))).2
    = handmade [2147483647]
  ∧ Schema.next_generated_id
      (Schema.db (Schema.ensureIdSequence quiet
                    (booting (handmade [2147483647]))).2)
    = inl (NotNullViolation "battle_ids" "id")
  ∧ Schema.pg_class
      (Schema.db (Schema.ensureIdSequence quiet
                    (booting (detached [3; 7; 2]))).2) !! "battle_ids_id_seq"
    = Some (Schema.Sequence {| Schema.next := 8; Schema.minvalue := 1;
                               Schema.maxvalue := INT8_MAX |})
  ∧ Schema.next_generated_id
      (Schema.db (Schema.ensureIdSequence quiet
                    (booting (detached [3; 7; 2]))).2)
    = inl (NotNullViolation "battle_ids" "id")
  ∧ Schema.repair_id_sequence (handmade [-5])
    = inl (InvalidSequenceBound "START" (-4) "less than MINVALUE" 1).
Proof. repeat split; vm_compute; reflexivity. Qed.

(** C1, amended: on a table [battle_ids] with an [id] column whose largest
    id is between 0 and 2147483646 (0 for the empty table), and when the
    block reaches the store, [ensureIdSequence] computes the largest id plus one
    and leaves the generator at that value.  When no relation is named
    [battle_ids_id_seq] the sequence is created starting there and made the
    default of [id], so the next row inserted without an id gets that id.
    When the sequence exists and the value is within its bounds it is
    restarted there, the default of [id] is left as it was, and the next
    row gets that id when the default reads that sequence. *)
Theorem ensureIdSequence_next_id (env : nat → Env) (w : Schema.World)
    (cols : list Schema.column) :
  let ids := Schema.battle_ids (Schema.db w) in
  let nxt := Schema.coalesce_max_id ids + 1 in
  let w' := (Schema.ensureIdSequence env w).2 in
  fault (env (Schema.issued w)) = None →
  Schema.pg_class (Schema.db w) !! "battle_ids" = Some (Schema.Table cols) →
  Schema.has_column cols "id" = true →
  1 ≤ nxt ≤ INT4_MAX →
  (∀ i, i ∈ ids → i < nxt)
  ∧ (ids ≠ [] → nxt - 1 ∈ ids)
  ∧ (ids = [] → nxt = 1)
  ∧ (Schema.pg_class (Schema.db w) !! "battle_ids_id_seq" = None →
     Schema.pg_class (Schema.db w') !! "battle_ids_id_seq"
     = Some (Schema.Sequence {| Schema.next := nxt; Schema.minvalue := 1;
                                Schema.maxvalue := INT8_MAX |})
     ∧ Schema.id_default (Schema.db w')
       = Some (Schema.DefaultNextval "battle_ids_id_seq")
     ∧ Schema.next_generated_id (Schema.db w') = inr nxt)
  ∧ (∀ sq,
       Schema.pg_class (Schema.db w) !! "battle_ids_id_seq"
       = Some (Schema.Sequence sq) →
       Schema.minvalue sq ≤ nxt ≤ Schema.maxvalue sq →
       Schema.pg_class (Schema.db w') !! "battle_ids_id_seq"
       = Some (Schema.Sequence {| Schema.next := nxt;
                                  Schema.minvalue := Schema.minvalue sq;
                                  Schema.maxvalue := Schema.maxvalue sq |})
       ∧ Schema.id_default (Schema.db w') = Schema.id_default (Schema.db w)
       ∧ (Schema.id_default (Schema.db w)
          = Some (Schema.DefaultNextval "battle_ids_id_seq") →
          Schema.next_generated_id (Schema.db w') = inr nxt)).
Proof.
  intros ids nxt w' Hfault Ht Hc Hn. subst w'.
  assert (Hn' : 1 ≤ Schema.coalesce_max_id (Schema.battle_ids (Schema.db w)) + 1
                ≤ INT4_MAX) by exact Hn.
  split; [|split; [|split; [|split]]].
  - intros i Hi. apply coalesce_max_id_upper in Hi. subst nxt.
    revert Hi. generalize (Schema.coalesce_max_id ids). intros; lia.
  - intros Hne.
    assert (nxt - 1 = Schema.coalesce_max_id ids) as ->
      by (subst nxt; generalize (Schema.coalesce_max_id ids); intros; lia).
    by apply coalesce_max_id_elem.
  - subst nxt ids. by intros ->.
  - intros Hs. rewrite ensureIdSequence_db, Hfault.
    rewrite (repair_creates _ cols) by done. cbn [Schema.pg_class].
    split; [|split].
    + rewrite lookup_insert_ne by done. by rewrite lookup_insert_eq.
    + unfold Schema.id_default. cbn [Schema.pg_class].
      rewrite lookup_insert_eq. by apply find_default_set.
    + eapply (next_generated_id_nextval _ _ "battle_ids_id_seq"
                {| Schema.next := nxt; Schema.minvalue := 1;
                   Schema.maxvalue := INT8_MAX |}).
      * cbn [Schema.pg_class]. apply lookup_insert_eq.
      * by apply find_default_set.
      * cbn [Schema.pg_class]. rewrite lookup_insert_ne by done.
        by rewrite lookup_insert_eq.
      * cbn. unfold INT8_MAX, INT4_MAX in *. lia.
  - intros sq Hs Hb. rewrite ensureIdSequence_db, Hfault.
    rewrite (repair_restarts _ cols sq)
      by (try done; unfold INT4_MIN; clear -Hn'; lia).
    cbn [Schema.pg_class]. split; [|split].
    + by rewrite lookup_insert_eq.
    + unfold Schema.id_default. cbn [Schema.pg_class].
      rewrite lookup_insert_ne by done. reflexivity.
    + intros Hd. unfold Schema.id_default in Hd. rewrite Ht in Hd.
      eapply (next_generated_id_nextval _ cols "battle_ids_id_seq"
                {| Schema.next := nxt; Schema.minvalue := Schema.minvalue sq;
                   Schema.maxvalue := Schema.maxvalue sq |}).
      * cbn [Schema.pg_class]. rewrite lookup_insert_ne by done. exact Ht.
      * exact Hd.
      * cbn [Schema.pg_class]. by rewrite lookup_insert_eq.
      * cbn. lia.
Qed.

(** Ids 3, 7, 2 give 8 and the empty table gives 1, whether the sequence
    is created (the table made by hand) or restarted (the serial table). *)
Lemma ensureIdSequence_next_id_witness :
  Schema.next_generated_id
    (Schema.db (Schema.ensureIdSequence quiet (booting (handmade [3; 7; 2]))).2)
  = inr 8
  ∧ Schema.next_generated_id
      (Schema.db (Schema.ensureIdSequence quiet (booting (handmade []))).2)
    = inr 1
  ∧ Schema.next_generated_id
      (Schema.db (Schema.ensureIdSequence quiet (booting (serial [3; 7; 2]))).2)
    = inr 8
  ∧ Schema.next_generated_id
      (Schema.db (Schema.ensureIdSequence quiet (booting (serial []))).2)
    = inr 1.
Proof.
  split; [|split; [|split]].
  - refine (proj2 (proj2 (proj1 (proj2 (proj2 (proj2
      (ensureIdSequence_next_id quiet (booting (handmade [3; 7; 2])) _
         eq_refl eq_refl eq_refl _)))) eq_refl))).
    unfold INT4_MAX; simpl; lia.
  - refine (proj2 (proj2 (proj1 (proj2 (proj2 (proj2
      (ensureIdSequence_next_id quiet (booting (handmade [])) _
         eq_refl eq_refl eq_refl _)))) eq_refl))).
    unfold INT4_MAX; simpl; lia.
  - refine (proj2 (proj2 (proj2 (proj2 (proj2 (proj2
      (ensureIdSequence_next_id quiet (booting (serial [3; 7; 2])) _
         eq_refl eq_refl eq_refl _)))) _ eq_refl _)) eq_refl).
    + unfold INT4_MAX; simpl; lia.
    + unfold INT4_MAX; simpl; lia.
  - refine (proj2 (proj2 (proj2 (proj2 (proj2 (proj2
      (ensureIdSequence_next_id quiet (booting (serial [])) _
         eq_refl eq_refl eq_refl _)))) _ eq_refl _)) eq_refl).
    + unfold INT4_MAX; simpl; lia.
    + unfold INT4_MAX; simpl; lia.
Defined.

(** ** The bootstrap can be run again (C6) *)

Section Idempotence.

Import Schema.

Lemma repair_id_sequence_again d d' :
  repair_id_sequence d = inr d' → repair_id_sequence d' = inr d'.
Proof.
  unfold repair_id_sequence at 1.
  destruct (pg_class d !! "battle_ids") as [[cols| |]|] eqn:Ht; try done.
  destruct (has_column cols "id") eqn:Hc; [|done]. cbn [require].
  destruct ((INT4_MIN <=? _) && (_ <=? INT4_MAX)) eqn:Hr; [|done].
  cbn [require]. apply andb_prop in Hr as [Hlo Hhi].
  apply Z.leb_le in Hlo, Hhi.
  destruct (pg_class d !! "battle_ids_id_seq") as [[| sq |]|] eqn:Hs; try done.
  - (* restarted *)
    destruct ((minvalue sq <=? _) && (_ <=? maxvalue sq)) eqn:Hb; [|done].
    cbn [require]. intros [= <-].
    apply andb_prop in Hb as [Hmin Hmax]. apply Z.leb_le in Hmin, Hmax.
    rewrite (repair_restarts _ cols
               {| next := coalesce_max_id (battle_ids d) + 1;
                  minvalue := minvalue sq; maxvalue := maxvalue sq |});
      cbn [pg_class battle_ids minvalue maxvalue]; try done.
    + do 2 f_equal. apply insert_insert_eq.
    + by rewrite lookup_insert_ne.
    + apply lookup_insert_eq.
  - (* created *)
    destruct (1 <=? _) eqn:Hone; [|done]. cbn [require]. intros [= <-].
    apply Z.leb_le in Hone.
    rewrite (repair_restarts _
               (set_default "id" (DefaultNextval "battle_ids_id_seq") cols)
               {| next := coalesce_max_id (battle_ids d) + 1;
                  minvalue := 1; maxvalue := INT8_MAX |});
      cbn [pg_class battle_ids minvalue maxvalue].
    + do 2 f_equal. apply insert_id.
      rewrite lookup_insert_ne by done. by rewrite lookup_insert_eq.
    + apply lookup_insert_eq.
    + by rewrite has_column_set_default.
    + done.
    + rewrite lookup_insert_ne by done. by rewrite lookup_insert_eq.
    + unfold INT8_MAX, INT4_MAX in *. lia.
Qed.

Lemma ensureIdSequence_twice env w :
  fault (env (issued w)) = None →
  db (ensureIdSequence env (ensureIdSequence env w).2).2
  = db (ensureIdSequence env w).2.
Proof.
  intros Hfault. rewrite (ensureIdSequence_db env (ensureIdSequence env w).2).
  destruct (fault (env (issued (ensureIdSequence env w).2))); [done|].
  rewrite (ensureIdSequence_db env w), Hfault.
  destruct (repair_id_sequence (db w)) as [e|d'] eqn:Hrep.
  - by rewrite Hrep.
  - by rewrite (repair_id_sequence_again _ _ Hrep).
Qed.

Lemma create_table_existing name cols d :
  is_free (pg_class d) name = false →
  create_table_if_not_exists name cols d = inr d.
Proof. unfold create_table_if_not_exists. by intros ->. Qed.

End Idempotence.

Section InitTables.

Import Schema.

Variable env : nat → Env.

Lemma pool_query_create_existing name cols w :
  is_free (pg_class (db w)) name = false →
  pool_query env (CreateTableIfNotExists name cols) w
  = (match fault (env (issued w)) with
     | Some msg => Throw (DatabaseError (ConnectionFailure msg))
     | None => Normal tt
     end,
     {| db := db w; issued := S (issued w); console := console w |}).
Proof.
  intros Hfree. unfold pool_query. cbn [exec].
  rewrite (create_table_existing _ _ _ Hfree). by destruct (fault _).
Qed.

Ltac next_table Hinit :=
  rewrite pool_query_create_existing
    by (cbn [db]; apply Hinit; set_solver);
  cbn [db issued console].

(** On an initialized catalog no run of [initTables] changes the schema,
    whatever happens to its statements. *)
Lemma initTables_keeps_schema w :
  initialized (db w) → db (initTables env w).2 = db w.
Proof.
  intros Hinit. unfold initTables, try_catch, bind, print.
  next_table Hinit. destruct (fault _); [done|].
  next_table Hinit. destruct (fault _); [done|].
  next_table Hinit. destruct (fault _); [done|].
  next_table Hinit. destruct (fault _); [done|].
  next_table Hinit. destruct (fault _); done.
Qed.

(** With the store reachable the run ends with the success line. *)
Lemma initTables_succeeds w :
  initialized (db w) →
  (∀ k, (k < 5)%nat → fault (env (issued w + k)) = None) →
  initTables env w
  = (Normal tt,
     {| db := db w; issued := issued w + 5;
        console := console w
                   ++ [console_log "✅ Všechny tabulky inicializovány."] |}).
Proof.
  intros Hinit Hquiet.
  assert (H0 := Hquiet 0%nat ltac:(lia)). assert (H1 := Hquiet 1%nat ltac:(lia)).
  assert (H2 := Hquiet 2%nat ltac:(lia)). assert (H3 := Hquiet 3%nat ltac:(lia)).
  assert (H4 := Hquiet 4%nat ltac:(lia)).
  replace (issued w + 0)%nat with (issued w) in H0 by lia.
  replace (issued w + 1)%nat with (S (issued w)) in H1 by lia.
  replace (issued w + 2)%nat with (S (S (issued w))) in H2 by lia.
  replace (issued w + 3)%nat with (S (S (S (issued w)))) in H3 by lia.
  replace (issued w + 4)%nat with (S (S (S (S (issued w))))) in H4 by lia.
  replace (issued w + 5)%nat with (S (S (S (S (S (issued w)))))) by lia.
  unfold initTables, try_catch, bind, print.
  next_table Hinit. rewrite H0.
  next_table Hinit. rewrite H1.
  next_table Hinit. rewrite H2.
  next_table Hinit. rewrite H3.
  next_table Hinit. rewrite H4. reflexivity.
Qed.

End InitTables.

(** C6: on a catalog that has the five tables, [initTables] changes no
    relation, the first time and the second, whatever its statements meet;
    with the store reachable both runs print the success line and no
    error.  A second run of [ensureIdSequence], with no insert in between,
    leaves the database, and so the generator, as the first run left it. *)
Theorem bootstrap_idempotent (env : nat → Env) (w : Schema.World) :
  (initialized (Schema.db w) →
   let w1 := (Schema.initTables env w).2 in
   let w2 := (Schema.initTables env w1).2 in
   Schema.db w1 = Schema.db w
   ∧ Schema.db w2 = Schema.db w
   ∧ ((∀ k, (k < 10)%nat → fault (env (Schema.issued w + k)%nat) = None) →
      Schema.console w2
      = Schema.console w
        ++ [Schema.console_log "✅ Všechny tabulky inicializovány.";
            Schema.console_log "✅ Všechny tabulky inicializovány."]))
  ∧ (fault (env (Schema.issued w)) = None →
     let w1 := (Schema.ensureIdSequence env w).2 in
     let w2 := (Schema.ensureIdSequence env w1).2 in
     Schema.db w2 = Schema.db w1).
Proof.
  split.
  - intros Hinit w1 w2.
    assert (H1 : Schema.db w1 = Schema.db w) by by apply initTables_keeps_schema.
    assert (H2 : Schema.db w2 = Schema.db w).
    { subst w2. rewrite initTables_keeps_schema by by rewrite H1. exact H1. }
    split; [done|]. split; [done|]. intros Hquiet. subst w2 w1.
    rewrite (initTables_succeeds env w Hinit)
      by (intros k Hk; apply Hquiet; lia).
    rewrite initTables_succeeds;
      cbn [snd Schema.db Schema.issued Schema.console].
    + by rewrite <- app_assoc.
    + exact Hinit.
    + intros k Hk. replace (Schema.issued w + 5 + k)%nat
        with (Schema.issued w + (5 + k))%nat by lia.
      apply Hquiet. lia.
  - intros Hfault w1 w2. by apply ensureIdSequence_twice.
Qed.

(** [initTables] ran on an empty database and is run again; the repair is
    run twice on the table made by hand. *)
Lemma bootstrap_idempotent_witness :
  Schema.db (Schema.initTables quiet bootstrapped).2 = Schema.db bootstrapped
  ∧ Schema.console (Schema.initTables quiet bootstrapped).2
    = [Schema.console_log "✅ Všechny tabulky inicializovány.";
       Schema.console_log "✅ Všechny tabulky inicializovány."]
  ∧ Schema.db
      (Schema.ensureIdSequence quiet
         (Schema.ensureIdSequence quiet (booting (handmade [3; 7; 2]))).2).2
    = Schema.db (Schema.ensureIdSequence quiet (booting (handmade [3; 7; 2]))).2.
Proof.
  assert (Hinit : initialized (Schema.db bootstrapped)).
  { intros name Hin.
    repeat (apply elem_of_cons in Hin as [->|Hin]; [reflexivity|]).
    by apply elem_of_nil in Hin. }
  destruct (bootstrap_idempotent quiet bootstrapped) as [Hrich _].
  destruct (Hrich Hinit) as (Hdb & _ & _).
  destruct (bootstrap_idempotent quiet (booting (handmade [3; 7; 2])))
    as [_ Hlegacy].
  split; [exact Hdb|]. split; [reflexivity|]. exact (Hlegacy eq_refl).
Defined.

(** ** Startup order of the legacy server (C7) *)

Section StartupOrder.

Import Startup.

Lemma remove_first_perm a l : a ∈ l → a :: remove_first a l ≡ₚ l.
Proof.
  induction l as [|b l IH]; [by intros ?%elem_of_nil|].
  intros Hin. simpl. destruct (decide (a = b)) as [->|Hne]; [done|].
  apply elem_of_cons in Hin as [?|Hin]; [done|].
  rewrite Permutation_swap. by rewrite IH.
Qed.

Lemma boot_started n : step init Boot = Some n → started n.
Proof.
  intros [= <-]. unfold started. cbn.
  split; [done|]. split; [done|]. split; [done|].
  split; [by exists []|done].
Qed.

Lemma step_started n e n' : started n → step n e = Some n' → started n'.
Proof.
  intros (Hb & Hc & Hl & (hs & Ht & Hs) & Hp). destruct e as [|r|a]; simpl.
  - by rewrite Hb.
  - destruct (_ && _); [|done]. intros [= <-].
    destruct (queries r); [|by repeat split; eauto].
    repeat split; try done; cbn.
    + exists (hs ++ [r]). by rewrite Ht, Hs, !fmap_app.
    + rewrite <- Hp. rewrite <- !app_assoc. f_equiv. apply Permutation_app_comm.
  - destruct (booted n && _) eqn:Hcond; [|done]. intros [= <-].
    apply andb_prop in Hcond as [_ Hin%bool_decide_eq_true].
    repeat split; try done; cbn; [by eauto|].
    rewrite <- Hp. rewrite (Permutation_app_comm (executed n) [a]). simpl.
    rewrite <- Permutation_middle, app_comm_cons.
    by rewrite remove_first_perm.
Qed.

Lemma run_started t : ∀ n n', started n → run n t = Some n' → started n'.
Proof.
  induction t as [|e t IH]; intros n n' Hn; simpl; [by intros [= <-]|].
  destruct (step n e) as [n1|] eqn:Hstep; [|done].
  apply IH. by eapply step_started.
Qed.

Lemma run_init t n : run init t = Some n → n = init ∨ started n.
Proof.
  destruct t as [|e t]; simpl; [intros [= <-]; by left|].
  destruct e as [|r|a]; simpl; try done.
  intros Hrun. right. eapply run_started; [|exact Hrun].
  by apply boot_started.
Qed.

Lemma started_repair_runs_once n :
  started n → (length (filter (λ a, a = Repair) (executed n)) ≤ 1)%nat.
Proof.
  intros (_ & _ & _ & (hs & _ & Hs) & Hp).
  assert (Hlen : length (filter (λ a, a = Repair) (in_flight n ++ executed n))
                 = 1%nat).
  { rewrite Hp, Hs. rewrite filter_cons_True by done. simpl. f_equal.
    apply length_zero_iff_nil. clear. induction hs as [|h hs IH]; [done|].
    rewrite fmap_cons, filter_cons_False by done. exact IH. }
  rewrite filter_app, length_app in Hlen. lia.
Qed.

End StartupOrder.

(** C7, as stated, fails: after the module body has run, a request for
    the list of operatives arrives and the store runs the statement of its
    handler while the statement of the repair is still in flight. *)
Lemma handler_runs_before_repair_finishes :
  Startup.run Startup.init race = Some raced
  ∧ Startup.executed raced = [Startup.Handler Legacy.GET_api_battle]
  ∧ Startup.in_flight raced = [Startup.Repair]
  ∧ Startup.repair_finished raced = false
  ∧ Startup.repair_first (Startup.executed raced) = false.
Proof. repeat split. Qed.

(** C7, amended: in every run of the process, [ensureIdSequence] is called
    exactly once, by the module body; what the process does, in order, is:
    it gives the statement of the repair to the pool, then it starts to
    listen, then the handlers of the requests it accepts give theirs to
    the pool.  The store runs the statement of the repair at most once.
    The call is not awaited: nothing orders the end of the repair before
    the handlers. *)
Theorem repair_called_once_before_listening (t : list Startup.event)
    (n : Startup.Node) :
  Startup.run Startup.init t = Some n →
  (Startup.booted n = false → n = Startup.init)
  ∧ (Startup.booted n = true →
     Startup.repair_calls n = 1%nat
     ∧ Startup.listening n = true
     ∧ ∃ hs,
         Startup.trace n
         = Startup.Sends Startup.Repair :: Startup.Listens
           :: (Startup.Sends ∘ Startup.Handler <$> hs)
         ∧ Startup.sent n = Startup.Repair :: (Startup.Handler <$> hs))
  ∧ (Startup.listening n = true → Startup.repair_first (Startup.sent n) = true
                                  ∧ Startup.Repair ∈ Startup.sent n)
  ∧ (length (filter (λ a, a = Startup.Repair) (Startup.executed n)) ≤ 1)%nat.
Proof.
  intros [->|Hn]%run_init.
  - repeat split; try done. simpl. lia.
  - pose proof Hn as (Hb & Hc & Hl & (hs & Ht & Hs) & Hp).
    split; [by rewrite Hb|]. split; [by eauto|]. split.
    + intros _. rewrite Hs. split; [done|by left].
    + by apply started_repair_runs_once.
Qed.

(** The run of the counterexample: the repair was called once, its
    statement was given to the pool before the server listened and before
    the handler sent its own, and the store has not run it yet. *)
Lemma repair_called_once_before_listening_witness :
  Startup.repair_calls raced = 1%nat
  ∧ Startup.trace raced
    = [Startup.Sends Startup.Repair; Startup.Listens;
       Startup.Sends (Startup.Handler Legacy.GET_api_battle)]
  ∧ Startup.repair_first (Startup.sent raced) = true
  ∧ (length (filter (λ a, a = Startup.Repair) (Startup.executed raced)) ≤ 1)%nat.
Proof.
  assert (Hrun : Startup.run Startup.init race = Some raced) by reflexivity.
  destruct (repair_called_once_before_listening race raced Hrun)
    as (_ & Hboot & Hlisten & Honce).
  destruct (Hboot eq_refl) as (Hcalls & _ & _).
  destruct (Hlisten eq_refl) as (Hfirst & _).
  split; [exact Hcalls|]. split; [reflexivity|].
  split; [exact Hfirst|exact Honce].
Defined.

(** ** Counting commendations (C2) *)

Section Counter.

(** The counter of every row named [x] goes up by one, when each has room. *)
Lemma update_where_bump x (rows : list battle_ids.row) :
  Forall (λ c, ∃ v, c = Some v ∧ v + 1 ≤ INT2_MAX)
    (battle_ids.commendations_count <$> filter (λ r, has_id (Some x) r) rows) →
  ∃ table changed,
    update_where (has_id (Some x)) bump_commendations_count rows
    = inr (table, changed)
    ∧ battle_ids.commendations_count <$> filter (λ r, has_id (Some x) r) table
      = (λ c, (λ v, v + 1) <$> c)
          <$> (battle_ids.commendations_count
                 <$> filter (λ r, has_id (Some x) r) rows)
    ∧ battle_ids.id <$> table = battle_ids.id <$> rows.
Proof.
  induction rows as [|r rows IH]; intros Hroom; [by exists [], []|].
  cbn [update_where]. destruct (has_id (Some x) r) eqn:Hr.
  - rewrite filter_cons_True in Hroom by by rewrite Hr.
    rewrite fmap_cons in Hroom. apply Forall_cons in Hroom as [(v & Hv & Hle) Hroom].
    destruct (IH Hroom) as (table & changed & -> & Hcounts & Hids).
    unfold bump_commendations_count at 1. rewrite Hv.
    replace (v + 1 <=? INT2_MAX) with true by lia.
    eexists _, _. split; [reflexivity|]. cbn [fst].
    rewrite filter_cons_True
      by (unfold has_id in *; cbn [battle_ids.id]; by rewrite Hr).
    rewrite (filter_cons_True _ r) by by rewrite Hr.
    rewrite !fmap_cons, Hcounts, Hids, Hv. done.
  - rewrite filter_cons_False in Hroom by (rewrite Hr; intros []).
    destruct (IH Hroom) as (table & changed & -> & Hcounts & Hids).
    eexists _, _. split; [reflexivity|]. cbn [fst].
    rewrite !filter_cons_False by (rewrite Hr; intros []).
    rewrite !fmap_cons, Hcounts, Hids. done.
Qed.

(** A counter at 32767 has no room: the statement fails. *)
Lemma update_where_overflow x (rows : list battle_ids.row) :
  battle_ids.commendations_count <$> filter (λ r, has_id (Some x) r) rows
  = [Some INT2_MAX] →
  update_where (has_id (Some x)) bump_commendations_count rows
  = inl (NumericValueOutOfRange "smallint").
Proof.
  induction rows as [|r rows IH]; [done|]. intros Hc.
  cbn [update_where]. destruct (has_id (Some x) r) eqn:Hr.
  - rewrite filter_cons_True in Hc by by rewrite Hr.
    rewrite fmap_cons in Hc. injection Hc as Hv _.
    unfold bump_commendations_count. rewrite Hv. reflexivity.
  - rewrite filter_cons_False in Hc by (rewrite Hr; intros []).
    by rewrite (IH Hc).
Qed.

End Counter.

Section Grants.

Variable date_in : string → option Z.
Variable env : nat → Env.

Lemma count_of_exists s x c : count_of s x = [Some c] → x ∈ battle_ids.id <$> battle_ids s.
Proof.
  unfold count_of. intros Hc.
  destruct (filter _ (battle_ids s)) as [|r l] eqn:Hf; [done|].
  assert (Hr : r ∈ filter (λ r, has_id (Some x) r) (battle_ids s))
    by (rewrite Hf; by left).
  apply list_elem_of_filter in Hr as [Hid Hr].
  unfold has_id in Hid. apply bool_decide_unpack in Hid. injection Hid as ->.
  apply list_elem_of_fmap. eauto.
Qed.

Lemma fresh_id (l : list commendations.row) n :
  (∀ r, r ∈ l → commendations.id r < n) → n ∉ commendations.id <$> l.
Proof.
  intros Hlt (r & -> & Hr)%list_elem_of_fmap. specialize (Hlt r Hr). lia.
Qed.

(** One grant that the store accepts, with room in the counter. *)
Lemma grant_succeeds w x c req :
  grant_for x req →
  count_of (db w) x = [Some c] →
  c + 1 ≤ INT2_MAX →
  fault (env (length (sent w))) = None →
  fault (env (S (length (sent w)))) = None →
  (∀ r, r ∈ commendations (db w) → commendations.id r < commendations_id_seq (db w)) →
  commendations_id_seq (db w) ≤ INT4_MAX →
  ∃ r w',
    post_api_battle_id_commendation date_in env req w = (Normal (created r), w')
    ∧ commendations (db w') = commendations (db w) ++ [r]
    ∧ commendations.battle_id r = x
    ∧ commendations.id r = commendations_id_seq (db w)
    ∧ commendations_id_seq (db w') = commendations_id_seq (db w) + 1
    ∧ count_of (db w') x = [Some (c + 1)]
    ∧ length (sent w') = S (S (length (sent w))).
Proof.
  intros (Hid & l & Hl & Hin) Hc Hroom Hf0 Hf1 Hfresh Hseq.
  unfold_handlers. unfold pool_query at 1. rewrite Hf0.
  cbn [exec fmap list_fmap]. unfold insert_commendation.
  rewrite (names_param _ _ _ Hid), Hl. unfold nextval.
  replace (commendations_id_seq (db w) <=? INT4_MAX) with true by lia.
  cbn [not_null]. unfold check_in, require.
  rewrite (bool_decide_eq_true_2 _ Hin).
  rewrite (bool_decide_eq_true_2 _ (fresh_id _ _ Hfresh)).
  unfold references_battle_ids, require.
  rewrite (bool_decide_eq_true_2 _ (count_of_exists _ _ _ Hc)).
  unfold pool_query. cbn [sent db]. rewrite length_app, Nat.add_1_r, Hf1.
  cbn [exec fmap list_fmap]. unfold update_commendations_count.
  rewrite (names_param _ _ _ Hid).
  destruct (update_where_bump x (battle_ids (db w))) as (table & changed & Hu & Hcounts & _).
  { unfold count_of in Hc. rewrite Hc. repeat constructor. eauto. }
  cbn [set_commendations battle_ids]. rewrite Hu.
  eexists _, _. split; [reflexivity|]. cbn.
  repeat split; try done.
  - unfold count_of. cbn. rewrite Hcounts. unfold count_of in Hc. by rewrite Hc.
  - rewrite !length_app. simpl. lia.
Qed.

End Grants.

Section GrantRuns.

Variable date_in : string → option Z.
Variable env : nat → Env.

(** [n] grants in a row, from a counter at [c] with room for all of them. *)
Lemma grants_succeed reqs : ∀ w x c,
  Forall (grant_for x) reqs →
  count_of (db w) x = [Some c] →
  c + Z.of_nat (length reqs) ≤ INT2_MAX →
  (∀ k, (k < 2 * length reqs)%nat →
        fault (env (length (sent w) + k)%nat) = None) →
  (∀ r, r ∈ commendations (db w) →
        commendations.id r < commendations_id_seq (db w)) →
  commendations_id_seq (db w) + Z.of_nat (length reqs) ≤ INT4_MAX + 1 →
  ∃ rows w',
    grants date_in env reqs w = (Normal (created <$> rows), w')
    ∧ commendations (db w') = commendations (db w) ++ rows
    ∧ Forall (λ r, commendations.battle_id r = x) rows
    ∧ length rows = length reqs
    ∧ count_of (db w') x = [Some (c + Z.of_nat (length reqs))]
    ∧ commendations_id_seq (db w')
      = commendations_id_seq (db w) + Z.of_nat (length reqs)
    ∧ (∀ r, r ∈ commendations (db w') →
            commendations.id r < commendations_id_seq (db w'))
    ∧ length (sent w') = (length (sent w) + 2 * length reqs)%nat.
Proof.
  induction reqs as [|req reqs IH]; intros w x c Hreqs Hc Hroom Hquiet Hfresh Hseq.
  - exists [], w. cbn. rewrite app_nil_r, !Z.add_0_r, Nat.add_0_r.
    repeat split; try done.
  - apply Forall_cons in Hreqs as [Hreq Hreqs]. cbn [length] in *.
    destruct (grant_succeeds date_in env w x c req Hreq Hc) as
      (r & w1 & Hrun & Hrows & Hx & Hrid & Hseq1 & Hc1 & Hsent1);
      [lia| | |exact Hfresh|lia|].
    { rewrite <- (Nat.add_0_r (length (sent w))). apply Hquiet. lia. }
    { rewrite <- Nat.add_1_r. apply Hquiet. lia. }
    destruct (IH w1 x (c + 1) Hreqs Hc1) as
      (rows & w2 & Hrun2 & Hrows2 & Hxs & Hlen & Hc2 & Hseq2 & Hfresh2 & Hsent2).
    + lia.
    + intros k Hk. rewrite Hsent1.
      replace (S (S (length (sent w))) + k)%nat
        with (length (sent w) + (2 + k))%nat by lia.
      apply Hquiet. lia.
    + intros r' Hr'. rewrite Hrows in Hr'. rewrite Hseq1.
      apply elem_of_app in Hr' as [Hr'|Hr'].
      * specialize (Hfresh r' Hr'). lia.
      * apply list_elem_of_singleton in Hr' as ->. lia.
    + lia.
    + exists (r :: rows), w2. cbn [grants]. unfold bind at 1. rewrite Hrun.
      unfold bind at 1. rewrite Hrun2. cbn [ret fmap list_fmap].
      split; [reflexivity|]. split; [by rewrite Hrows2, Hrows, <- app_assoc|].
      split; [by constructor|]. split; [by rewrite <- Hlen|].
      split; [rewrite Hc2; do 2 f_equal; lia|].
      split; [rewrite Hseq2, Hseq1; lia|]. split; [exact Hfresh2|].
      rewrite Hsent2, Hsent1. lia.
Qed.

(** One more grant on a counter at 32767: the row goes in, the [UPDATE]
    fails, the answer is 500 and the counter stays. *)
Lemma grant_overflows w x req :
  grant_for x req →
  count_of (db w) x = [Some INT2_MAX] →
  fault (env (length (sent w))) = None →
  fault (env (S (length (sent w)))) = None →
  (∀ r, r ∈ commendations (db w) →
        commendations.id r < commendations_id_seq (db w)) →
  commendations_id_seq (db w) ≤ INT4_MAX →
  ∃ r w',
    post_api_battle_id_commendation date_in env req w
    = (Normal {| status := 500;
                 json := JsonError (message (NumericValueOutOfRange "smallint")) |},
       w')
    ∧ commendations (db w') = commendations (db w) ++ [r]
    ∧ commendations.battle_id r = x
    ∧ count_of (db w') x = [Some INT2_MAX].
Proof.
  intros (Hid & l & Hl & Hin) Hc Hf0 Hf1 Hfresh Hseq.
  unfold_handlers. unfold pool_query at 1. rewrite Hf0.
  cbn [exec fmap list_fmap]. unfold insert_commendation.
  rewrite (names_param _ _ _ Hid), Hl. unfold nextval.
  replace (commendations_id_seq (db w) <=? INT4_MAX) with true by lia.
  cbn [not_null]. unfold check_in, require.
  rewrite (bool_decide_eq_true_2 _ Hin).
  rewrite (bool_decide_eq_true_2 _ (fresh_id _ _ Hfresh)).
  unfold references_battle_ids, require.
  rewrite (bool_decide_eq_true_2 _ (count_of_exists _ _ _ Hc)).
  unfold pool_query. cbn [sent db]. rewrite length_app, Nat.add_1_r, Hf1.
  cbn [exec fmap list_fmap]. unfold update_commendations_count.
  rewrite (names_param _ _ _ Hid).
  cbn [set_commendations battle_ids].
  rewrite (update_where_overflow x (battle_ids (db w))) by exact Hc.
  eexists _, _. split; [reflexivity|]. cbn. repeat split; done.
Qed.

Lemma grants_app l1 l2 w :
  grants date_in env (l1 ++ l2) w
  = match grants date_in env l1 w with
    | (Normal r1, w1) =>
        match grants date_in env l2 w1 with
        | (Normal r2, w2) => (Normal (r1 ++ r2), w2)
        | (Throw err, w2) => (Throw err, w2)
        end
    | (Throw err, w1) => (Throw err, w1)
    end.
Proof.
  revert w. induction l1 as [|req l1 IH]; intros w.
  - cbn. by destruct (grants date_in env l2 w) as [[]].
  - rewrite <- app_comm_cons. cbn [grants]. unfold bind, ret.
    destruct (post_api_battle_id_commendation date_in env req w) as [[res|err] w0];
      [|done].
    rewrite IH.
    destruct (grants date_in env l1 w0) as [[r1|err] w1]; [|done].
    by destruct (grants date_in env l2 w1) as [[]].
Qed.

Lemma commendations_of_app s s' x rows :
  commendations s' = commendations s ++ rows →
  Forall (λ r, commendations.battle_id r = x) rows →
  commendations_of s' x = commendations_of s x ++ rows.
Proof.
  unfold commendations_of. intros -> Hrows. rewrite filter_app. f_equal.
  induction Hrows as [|r rows Hr _ IH]; [done|].
  by rewrite filter_cons_True, IH.
Qed.

End GrantRuns.

Section GrantAnswer.

Variable date_in : string → option Z.
Variable env : nat → Env.

Lemma insert_commendation_owner p lv nt t s s' rows :
  insert_commendation [p; lv; nt] t s = (s', inr rows) →
  ∃ r, rows = [CommendationRow r]
       ∧ nullable int4_in p = inr (Some (commendations.battle_id r)).
Proof.
  unfold insert_commendation.
  destruct (nullable int4_in p) as [e|[b|]]; cbn;
    repeat (case_match; simplify_eq/=; try done);
    intros; simplify_eq; eauto.
Qed.

Lemma update_where_bump_inr i (rows table changed : list battle_ids.row) :
  update_where (has_id i) bump_commendations_count rows = inr (table, changed) →
  battle_ids.commendations_count <$> filter (λ r, has_id i r) table
  = (λ c, (λ v, v + 1) <$> c)
      <$> (battle_ids.commendations_count <$> filter (λ r, has_id i r) rows).
Proof.
  revert table changed. induction rows as [|r rows IH]; intros table changed.
  - by intros [= <- <-].
  - cbn [update_where]. destruct (has_id i r) eqn:Hr.
    + destruct (bump_commendations_count r) as [e|r'] eqn:Hb; [done|].
      destruct (update_where _ _ rows) as [e|[t c]]; [done|].
      intros [= <- <-]. cbn [fst snd].
      unfold bump_commendations_count in Hb.
      destruct (battle_ids.commendations_count r) as [v|] eqn:Hv.
      * destruct (v + 1 <=? INT2_MAX); [|done]. injection Hb as <-.
        rewrite filter_cons_True
          by (unfold has_id in *; cbn [battle_ids.id]; by rewrite Hr).
        rewrite (filter_cons_True _ r) by by rewrite Hr.
        rewrite !fmap_cons, (IH t c eq_refl), Hv. done.
      * injection Hb as <-.
        rewrite filter_cons_True
          by (unfold has_id in *; cbn [battle_ids.id]; by rewrite Hr).
        rewrite (filter_cons_True _ r) by by rewrite Hr.
        rewrite !fmap_cons, (IH t c eq_refl), Hv. done.
    + destruct (update_where _ _ rows) as [e|[t c]]; [done|].
      intros [= <- <-]. cbn [fst snd].
      rewrite !filter_cons_False by (rewrite Hr; intros []).
      exact (IH t c eq_refl).
Qed.

Lemma update_commendations_count_inr p s s' rows :
  update_commendations_count [p] s = (s', inr rows) →
  ∃ i table changed,
    nullable int4_in p = inr i
    ∧ update_where (has_id i) bump_commendations_count (battle_ids s)
      = inr (table, changed)
    ∧ s' = set_battle_ids s table (battle_ids_id_seq s).
Proof.
  unfold update_commendations_count.
  destruct (nullable int4_in p) as [e|i]; [done|].
  destruct (update_where _ _ _) as [e|[table changed]] eqn:Hu; [done|].
  intros [= <- <-]. by exists i, table, changed.
Qed.

(** Every grant that is answered 200 has appended exactly one row, has
    answered with that row, and has added exactly one to the counter of
    its operative. *)
Lemma grant_answered_200 req w res w' :
  post_api_battle_id_commendation date_in env req w = (Normal res, w') →
  status res = 200 →
  ∃ r, res = created r
       ∧ commendations (db w') = commendations (db w) ++ [r]
       ∧ count_of (db w') (commendations.battle_id r)
         = (λ c : option Z, (λ v, v + 1) <$> c)
             <$> count_of (db w) (commendations.battle_id r).
Proof.
  unfold_handlers.
  destruct (pool_query date_in env InsertCommendation _ w) as [[rows|err] w1] eqn:Hins;
    [|by intros [= <- <-]].
  destruct (pool_query date_in env UpdateCommendationsCount _ w1)
    as [[rows2|err] w2] eqn:Hupd; [|by intros [= <- <-]].
  intros [= <- <-] _.
  apply pool_query_normal in Hins as (_ & Hins & _).
  apply pool_query_normal in Hupd as (_ & Hupd & _).
  cbn [exec fmap list_fmap] in Hins, Hupd.
  destruct (insert_commendation_owner _ _ _ _ _ _ _ Hins) as (r & -> & Howner).
  apply insert_commendation_inr in Hins as (r' & [= <-] & Hdb1 & _).
  apply update_commendations_count_inr in Hupd as (i & table & changed & Hi & Hu & Hdb2).
  rewrite Howner in Hi. injection Hi as <-.
  exists r. split; [done|]. rewrite Hdb2, Hdb1. cbn. split; [done|].
  unfold count_of. cbn. rewrite Hdb1 in Hu. cbn in Hu.
  by apply update_where_bump_inr in Hu.
Qed.

End GrantAnswer.

(** C2, as stated, fails at N = 32768: the counter is a [SMALLINT].  On
    the roster of operative 1, with every statement reaching the store,
    the first 32767 grants are answered 200; the last one inserts its row,
    fails to raise the counter and is answered 500.  Operative 1 then owns
    32768 commendation rows and the stored count is 32767. *)
Lemma grants_32768_count_32767 :
  let req := request JUndefined [("id", "1")] [("level", JNum 1)] in
  let w := {| db := roster; sent := [] |} in
  count_of roster 1 = [Some 0]
  ∧ commendations_of roster 1 = []
  ∧ ∃ ress w',
      grants iso_date quiet (replicate (Z.to_nat 32768) req) w = (Normal ress, w')
      ∧ length ress = Z.to_nat 32768
      ∧ last ress
        = Some {| status := 500;
                  json := JsonError
                            (message (NumericValueOutOfRange "smallint")) |}
      ∧ length (commendations_of (db w') 1) = Z.to_nat 32768
      ∧ count_of (db w') 1 = [Some 32767]
      ∧ count_of (db w') 1 ≠ [Some 32768].
Proof.
  intros req w. split; [reflexivity|]. split; [reflexivity|].
  assert (Hreq : grant_for 1 req).
  { split; [exists "1"; split; reflexivity|].
    exists 1. split; [reflexivity|]. by left. }
  assert (Hbig : ∃ n, Z.to_nat 32768 = S n ∧ Z.of_nat n = 32767)
    by (exists (Z.to_nat 32767); lia).
  destruct Hbig as (n & -> & Hn).
  rewrite replicate_S_end, grants_app.
  destruct (grants_succeed iso_date quiet (replicate n req) w 1 0)
    as (rows & w1 & -> & Hrows & Hown & Hlen & Hcount & Hseq & Hfresh & Hsent).
  - by apply Forall_replicate.
  - reflexivity.
  - rewrite length_replicate, Hn. unfold INT2_MAX. lia.
  - done.
  - intros r Hr. by apply elem_of_nil in Hr.
  - rewrite length_replicate, Hn. unfold INT4_MAX.
    change (commendations_id_seq (db w)) with 1. lia.
  - rewrite length_replicate in Hlen, Hcount, Hseq. rewrite Hn in Hcount, Hseq.
    change (commendations_id_seq (db w)) with 1 in Hseq.
    cbn [grants]. unfold bind, ret.
    destruct (grant_overflows iso_date quiet w1 1 req Hreq)
      as (r & w2 & -> & Hrows2 & Hown2 & Hcount2);
      [by rewrite Hcount|done|done|exact Hfresh| |].
    { rewrite Hseq. unfold INT4_MAX. lia. }
    eexists _, w2. split; [reflexivity|].
    split; [rewrite length_app, length_fmap, Hlen; cbn [length]; lia|].
    split; [apply last_snoc|].
    split.
    + rewrite (commendations_of_app (db w1) (db w2) 1 [r] Hrows2)
        by by constructor.
      rewrite (commendations_of_app (db w) (db w1) 1 rows Hrows Hown).
      rewrite !length_app, Hlen.
      change (commendations_of (db w) 1) with (@nil commendations.row).
      cbn [length]. lia.
    + rewrite Hcount2. split; [reflexivity|discriminate].
Qed.

(** C2, amended: for every N from 0 to 32767 and every operative X with
    count 0 and no commendation row, N grants for X that the store accepts
    (level 1, 2 or 3, every statement reaching the store, ids left in the
    generator) are each answered 200 with the row they created; afterwards
    X owns exactly these N rows, in order, and the stored count is N.  In
    any state, a grant answered 200 has appended exactly one row, answered
    with that row and not with the operative, and added exactly one to the
    counter of its operative. *)
Theorem grants_counted (date_in : string → option Z) (env : nat → Env)
    (reqs : list Request) (w : World) (x : Z) :
  Forall (grant_for x) reqs →
  Z.of_nat (length reqs) ≤ INT2_MAX →
  count_of (db w) x = [Some 0] →
  commendations_of (db w) x = [] →
  (∀ k, (k < 2 * length reqs)%nat →
        fault (env (length (sent w) + k)%nat) = None) →
  (∀ r, r ∈ commendations (db w) →
        commendations.id r < commendations_id_seq (db w)) →
  commendations_id_seq (db w) + Z.of_nat (length reqs) ≤ INT4_MAX + 1 →
  (∃ rows w',
     grants date_in env reqs w = (Normal (created <$> rows), w')
     ∧ commendations (db w') = commendations (db w) ++ rows
     ∧ commendations_of (db w') x = rows
     ∧ length rows = length reqs
     ∧ count_of (db w') x = [Some (Z.of_nat (length reqs))])
  ∧ (∀ req w0 res w0',
       post_api_battle_id_commendation date_in env req w0 = (Normal res, w0') →
       status res = 200 →
       ∃ r, res = created r
            ∧ commendations (db w0') = commendations (db w0) ++ [r]
            ∧ count_of (db w0') (commendations.battle_id r)
              = (λ c : option Z, (λ v, v + 1) <$> c)
                  <$> count_of (db w0) (commendations.battle_id r)).
Proof.
  intros Hreqs Hn Hcount Hnone Hquiet Hfresh Hseq. split.
  - destruct (grants_succeed date_in env reqs w x 0 Hreqs Hcount)
      as (rows & w' & Hrun & Hrows & Hown & Hlen & Hcount' & _);
      [lia|exact Hquiet|exact Hfresh|exact Hseq|].
    exists rows, w'. split; [exact Hrun|]. split; [exact Hrows|].
    split; [by rewrite (commendations_of_app _ _ _ _ Hrows Hown), Hnone|].
    split; [exact Hlen|]. by rewrite Hcount'.
  - apply grant_answered_200.
Qed.

(** Three grants to the operative of [roster]: count 3, three rows. *)
Lemma grants_counted_witness :
  let req := request JUndefined [("id", "1")] [("level", JNum 2)] in
  ∃ rows w',
    grants iso_date quiet [req; req; req] {| db := roster; sent := [] |}
    = (Normal (created <$> rows), w')
    ∧ commendations_of (db w') 1 = rows
    ∧ length rows = 3%nat
    ∧ count_of (db w') 1 = [Some 3].
Proof.
  intros req.
  assert (Hreq : grant_for 1 req).
  { split; [exists "1"; split; reflexivity|].
    exists 2. split; [reflexivity|]. right. by left. }
  destruct (grants_counted iso_date quiet [req; req; req]
              {| db := roster; sent := [] |} 1)
    as [(rows & w' & Hrun & _ & Hown & Hlen & Hcount) _].
  - do 3 (constructor; [exact Hreq|]). constructor.
  - unfold INT2_MAX. simpl. lia.
  - reflexivity.
  - reflexivity.
  - done.
  - intros r Hr. by apply elem_of_nil in Hr.
  - unfold INT4_MAX. simpl. lia.
  - exists rows, w'. split; [exact Hrun|]. split; [exact Hown|].
    split; [exact Hlen|exact Hcount].
Defined.

(** * Further properties of the handlers *)

Section Effects.

Variable date_in : string → option Z.
Variable env : nat → Env.

(** What one statement does to the world: the database is the one the
    statement left, or the old one when the connection failed, and the
    record of statements has one more entry. *)
Lemma pool_query_world q vs w :
  ∃ f,
    (pool_query date_in env q vs w).2
    = {| db := match fault (env (length (sent w))) with
               | Some _ => db w
               | None => (exec date_in q (prepareValue <$> vs)
                            (now (env (length (sent w)))) (db w)).1
               end;
         sent := sent w ++ [{| text := q; values := prepareValue <$> vs;
                               failure := f |}] |}
    ∧ match (pool_query date_in env q vs w).1 with
      | Normal _ => f = None
      | Throw _ => is_Some f
      end.
Proof.
  unfold pool_query. destruct (fault _) as [msg|].
  { eexists. split; [reflexivity|]. cbn. eauto. }
  destruct (exec _ _ _ _ _) as [s [err|rows]];
    (eexists; split; [reflexivity|]; cbn; eauto).
Qed.

Lemma pool_query_preserves (P : Store → Prop) q vs w :
  P (db w) →
  (∀ ps t, P (exec date_in q ps t (db w)).1) →
  P (db (pool_query date_in env q vs w).2).
Proof.
  intros Hw Hq. destruct (pool_query_world q vs w) as (f & -> & _). cbn [db].
  by destruct (fault _).
Qed.

Ltac one_statement Hw Hq :=
  unfold_handlers;
  match goal with
  | |- context [pool_query date_in env ?q ?vs ?w] =>
      let H := fresh in
      assert (H := pool_query_preserves _ q vs w Hw
                     (λ ps t, Hq q ltac:(set_solver) ps t (db w) Hw));
      destruct (pool_query date_in env q vs w) as [[?|?] ?]; try exact H
  end.

(** A property of the database that every statement of a route keeps is
    kept by the handler of the route, whatever the request and whatever
    the statements meet. *)
Lemma handler_preserves (P : Store → Prop) r :
  (∀ q, q ∈ statements r → ∀ ps t s, P s → P (exec date_in q ps t s).1) →
  ∀ req w, P (db w) → P (db (handler date_in env r req w).2).
Proof.
  intros Hq req w Hw.
  destruct r; cbn [handler statements] in *.
  1-11: one_statement Hw Hq.
  - destruct (head _) as [[]|]; exact H.
  - unfold_handlers.
    assert (H1 := pool_query_preserves _ InsertCommendation
                    [param req "id"; field (body req) "level";
                     field (body req) "notes"] w Hw
                    (λ ps t, Hq InsertCommendation ltac:(set_solver) ps t (db w) Hw)).
    destruct (pool_query date_in env InsertCommendation _ w) as [[rows|err] w1];
      [|exact H1].
    assert (H2 := pool_query_preserves _ UpdateCommendationsCount
                    [param req "id"] w1 H1
                    (λ ps t, Hq UpdateCommendationsCount ltac:(set_solver) ps t
                               (db w1) H1)).
    by destruct (pool_query date_in env UpdateCommendationsCount _ w1) as [[?|?] ?].
Qed.

End Effects.

Section ReadOnly.

Variable date_in : string → option Z.
Variable env : nat → Env.

Lemma select_keeps q ps t s :
  q ∈ [SelectNow; SelectBattleIds; SelectBattleId; SelectAwardsCatalog;
       SelectAwards] →
  (exec date_in q ps t s).1 = s.
Proof.
  intros Hq. repeat (apply elem_of_cons in Hq as [->|Hq]);
    [..|by apply elem_of_nil in Hq]; cbn [exec];
    unfold select_now, select_battle_ids, select_battle_id,
      select_awards_catalog, select_awards;
    repeat case_match; done.
Qed.

End ReadOnly.

(** X1: the five GET routes never change the database, whatever the
    request carries and whether their statement reaches the store, fails
    there or succeeds. *)
Theorem get_routes_keep_database (date_in : string → option Z)
    (env : nat → Env) (r : Route) (req : Request) (w : World) :
  is_get r = true →
  db (handler date_in env r req w).2 = db w.
Proof.
  intros Hget.
  apply (handler_preserves date_in env (λ s, s = db w)); [|done].
  intros q Hq ps t s ->. apply select_keeps.
  destruct r; try discriminate Hget; cbn [statements] in Hq;
    apply list_elem_of_singleton in Hq as ->; set_solver.
Qed.

(** Listing the grants of operative 1 of [squad] leaves [squad] as it is,
    also when the connection drops. *)
Lemma get_routes_keep_database_witness :
  db (handler iso_date (drop_at (length (sent squad))) GET_api_awards_battle_id
        (request JUndefined [("battle_id", "1")] []) squad).2
  = db squad.
Proof.
  exact (get_routes_keep_database iso_date (drop_at (length (sent squad)))
           GET_api_awards_battle_id
           (request JUndefined [("battle_id", "1")] []) squad eq_refl).
Defined.

Section Sent.

Variable date_in : string → option Z.
Variable env : nat → Env.

Ltac world_of_query :=
  match goal with
  | |- context [pool_query date_in env ?q ?vs ?w] =>
      let f := fresh "f" in
      let Hw := fresh "Hw" in
      let Ho := fresh "Ho" in
      destruct (pool_query_world date_in env q vs w) as (f & Hw & Ho);
      destruct (pool_query date_in env q vs w) as [[?|?] ?];
      cbn [fst snd] in Hw, Ho; subst
  end.

Lemma single_statement_sent q vs w f :
  ∃ new,
    sent w ++ [{| text := q; values := vs; failure := f |}] = sent w ++ new
    ∧ (text <$> new) `prefix_of` [q]
    ∧ new ≠ []
    ∧ (first_failure new = None → text <$> new = [q])
    ∧ (∀ i st, new !! i = Some st → is_Some (failure st) → S i = length new).
Proof.
  eexists [_]. split; [reflexivity|]. split; [done|]. split; [done|].
  split; [done|]. intros [|i] st; [done|]. cbn. done.
Qed.

Lemma statements_sent r req w :
  ∃ new,
    sent (handler date_in env r req w).2 = sent w ++ new
    ∧ (text <$> new) `prefix_of` statements r
    ∧ new ≠ []
    ∧ (first_failure new = None → text <$> new = statements r)
    ∧ (∀ i st, new !! i = Some st → is_Some (failure st) → S i = length new).
Proof.
  destruct r; cbn [handler statements]; unfold_handlers.
  1-11: world_of_query; try (destruct (head _) as [[]|]);
    cbn [sent snd]; apply single_statement_sent.
  world_of_query.
  - world_of_query; cbn [sent snd];
      (eexists [_; _]; split; [by rewrite <- app_assoc|]; split; [done|];
       split; [done|]).
    + split; [done|]. intros [|[|i]] st; cbn; try done.
      intros [= <-]. by intros [].
    + destruct Ho as [e ->]. split; [done|].
      intros [|[|i]] st; cbn; try done. intros [= <-]. by intros [].
  - cbn [sent snd]. destruct Ho as [e ->].
    eexists [_]. split; [reflexivity|]. split; [by eexists [_]|].
    split; [done|]. split; [done|].
    intros [|i] st; [done|]. cbn. done.
Qed.

End Sent.

(** X2: the handler of a route sends the statements of the route in source
    order, each at most once, and stops at the first one that fails: no
    statement is retried, none runs after a failure, and every request
    sends at least one.  The commendation grant sends its [UPDATE] only
    after its [INSERT] succeeded. *)
Theorem statements_sent_in_order (date_in : string → option Z)
    (env : nat → Env) (r : Route) (req : Request) (w : World) :
  ∃ new,
    sent (handler date_in env r req w).2 = sent w ++ new
    ∧ (text <$> new) `prefix_of` statements r
    ∧ new ≠ []
    ∧ (first_failure new = None → text <$> new = statements r)
    ∧ (∀ i st, new !! i = Some st → is_Some (failure st) → S i = length new).
Proof. apply statements_sent. Qed.

(** ** What each writing statement leaves behind *)

Section Shapes.

Variable date_in : string → option Z.

Lemma require_inr b e u : require b e = inr u → b = true.
Proof. unfold require. by destruct b. Qed.

Lemma check_in_inr {A} `{EqDecision A} rel c (allowed : list A) v u a :
  check_in rel c allowed v = inr u → v = Some a → a ∈ allowed.
Proof.
  intros H ->. unfold check_in in H. apply require_inr in H.
  by apply bool_decide_eq_true in H.
Qed.

Lemma not_null_inr {A} rel c (v : option A) a :
  not_null rel c v = inr a → v = Some a.
Proof. destruct v; [by intros [= ->]|done]. Qed.


Lemma update_where_related {A} (R : A → A → Prop) p f (l : list A) :
  (∀ x y, p x = true → f x = inr y → R x y) →
  (∀ x, R x x) →
  ∀ table changed,
    update_where p f l = inr (table, changed) → Forall2 R l table.
Proof.
  intros Hf Hrefl. induction l as [|x l IH]; intros table changed.
  - intros [= <- <-]. constructor.
  - cbn [update_where]. destruct (p x) eqn:Hp.
    + destruct (f x) as [e|y] eqn:Hy; [done|].
      destruct (update_where p f l) as [e|[t c]]; [done|].
      intros [= <- <-]. constructor; eauto.
    + destruct (update_where p f l) as [e|[t c]]; [done|].
      intros [= <- <-]. constructor; eauto.
Qed.

(** The rows an [UPDATE ... RETURNING *] returns are the changed rows, in
    table order. *)
Lemma update_where_changed {A} p f (l : list A) :
  ∀ table changed,
    update_where p f l = inr (table, changed) →
    Forall2 (λ x y, p x = true ∧ f x = inr y) (filter (λ x, p x) l) changed.
Proof.
  induction l as [|x l IH]; intros table changed.
  - intros [= <- <-]. constructor.
  - cbn [update_where]. destruct (p x) eqn:Hp.
    + destruct (f x) as [e|y] eqn:Hy; [done|].
      destruct (update_where p f l) as [e|[t c]]; [done|].
      intros [= <- <-]. rewrite filter_cons_True by by rewrite Hp.
      constructor; eauto.
    + destruct (update_where p f l) as [e|[t c]]; [done|].
      intros [= <- <-]. rewrite filter_cons_False by (rewrite Hp; intros []).
      eauto.
Qed.

End Shapes.

Section InsertShapes.

Variable date_in : string → option Z.

Lemma set_commendations_same s :
  set_commendations s (commendations s) (commendations_id_seq s) = s.
Proof. by destruct s. Qed.

Lemma set_rank_changes_same s :
  set_rank_changes s (rank_changes s) (rank_changes_id_seq s) = s.
Proof. by destruct s. Qed.

Lemma set_awards_catalog_same s :
  set_awards_catalog s (awards_catalog s) (awards_catalog_id_seq s) = s.
Proof. by destruct s. Qed.

Lemma set_awards_same s : set_awards s (awards s) (awards_id_seq s) = s.
Proof. by destruct s. Qed.

Ltac failed_insert same :=
  left; eexists _, _; split; [reflexivity|];
  first [ split; [symmetry; apply same|lia]
        | split; [reflexivity|lia] ].

Ltac insert_cases same :=
  repeat match goal with
         | |- context [match ?x with _ => _ end] =>
             lazymatch x with
             | nextval _ _ => fail
             | _ => destruct x eqn:?
             end
         end;
  intros; simplify_eq;
  try (failed_insert same).

Lemma insert_battle_id_cases ps t s s' res :
  insert_battle_id date_in ps t s = (s', res) →
  (∃ e n, res = inl e
          ∧ s' = set_battle_ids s (battle_ids s) n ∧ battle_ids_id_seq s ≤ n)
  ∨ (∃ r, res = inr [BattleRow r]
          ∧ s' = set_battle_ids s (battle_ids s ++ [r]) (battle_ids_id_seq s + 1)
          ∧ battle_ids.id r = battle_ids_id_seq s
          ∧ (battle_ids_id_seq s ∉ battle_ids.id <$> battle_ids s)
          ∧ battle_ids.commendations_count r = Some 0
          ∧ battle_ids.created_at r = Some t
          ∧ (∀ v, battle_ids.strikes_level r = Some v → v ∈ strikes_levels)).
Proof.
  unfold insert_battle_id.
  destruct ps as [|name [|callsign [|role [|rank [|specialty [|ethnicity [|dob
    [|strikes_level [|notes [|avatar [|status [|]]]]]]]]]]]];
    try (intros; simplify_eq; failed_insert set_battle_ids_same).
  destruct (nullable _ dob) as [e|d];
    [intros; simplify_eq; failed_insert set_battle_ids_same|].
  destruct (nextval _ _) as [e|id] eqn:Hid;
    [intros; simplify_eq; failed_insert set_battle_ids_same|].
  apply nextval_inr in Hid as [-> Hmax].
  destruct (not_null _ _ name) as [e|nm];
    [intros; simplify_eq; failed_insert set_battle_ids_same|].
  destruct (check_in _ _ _ strikes_level) as [e|u] eqn:Hcheck;
    [intros; simplify_eq; failed_insert set_battle_ids_same|].
  destruct (require _ _) as [e|u'] eqn:Hfresh;
    [intros; simplify_eq; failed_insert set_battle_ids_same|].
  intros; simplify_eq. right. eexists. split; [reflexivity|].
  split; [reflexivity|]. cbn. split; [done|].
  apply require_inr, bool_decide_eq_true in Hfresh.
  repeat split; try done. intros v ->. eapply check_in_inr; eauto.
Qed.

Lemma insert_commendation_cases ps t s s' res :
  insert_commendation ps t s = (s', res) →
  (∃ e n, res = inl e
          ∧ s' = set_commendations s (commendations s) n
          ∧ commendations_id_seq s ≤ n)
  ∨ (∃ r, res = inr [CommendationRow r]
          ∧ s' = set_commendations s (commendations s ++ [r])
                   (commendations_id_seq s + 1)
          ∧ commendations.id r = commendations_id_seq s
          ∧ (commendations_id_seq s ∉ commendations.id <$> commendations s)
          ∧ commendations.battle_id r ∈ battle_ids.id <$> battle_ids s
          ∧ commendations.level r ∈ commendation_levels
          ∧ commendations.created_at r = Some t).
Proof.
  unfold insert_commendation.
  destruct ps as [|id [|level [|notes [|]]]];
    try (intros; simplify_eq; failed_insert set_commendations_same).
  destruct (nullable int4_in id) as [e|b];
    [intros; simplify_eq; failed_insert set_commendations_same|].
  destruct (nullable int2_in level) as [e|l];
    [intros; simplify_eq; failed_insert set_commendations_same|].
  destruct (nextval _ _) as [e|n] eqn:Hid;
    [intros; simplify_eq; failed_insert set_commendations_same|].
  apply nextval_inr in Hid as [-> Hmax].
  destruct (not_null _ _ b) as [e|b'];
    [intros; simplify_eq; failed_insert set_commendations_same|].
  destruct (not_null _ _ l) as [e|l'];
    [intros; simplify_eq; failed_insert set_commendations_same|].
  destruct (check_in _ _ _ _) as [e|u] eqn:Hcheck;
    [intros; simplify_eq; failed_insert set_commendations_same|].
  destruct (require _ _) as [e|u'] eqn:Hfresh;
    [intros; simplify_eq; failed_insert set_commendations_same|].
  destruct (references_battle_ids _ _ _ _) as [e|u''] eqn:Hfk;
    [intros; simplify_eq; failed_insert set_commendations_same|].
  intros; simplify_eq. right. eexists. split; [reflexivity|].
  split; [reflexivity|]. cbn.
  apply require_inr, bool_decide_eq_true in Hfresh.
  apply require_inr, bool_decide_eq_true in Hfk.
  repeat split; try done. eapply check_in_inr; eauto.
Qed.

End InsertShapes.

Section MoreInsertShapes.

Ltac failed_insert same :=
  left; eexists _, _; split; [reflexivity|];
  first [ split; [symmetry; apply same|lia]
        | split; [reflexivity|lia] ].

Ltac fails same := intros; simplify_eq; failed_insert same.

Lemma insert_rank_change_cases ps t s s' res :
  insert_rank_change ps t s = (s', res) →
  (∃ e n, res = inl e
          ∧ s' = set_rank_changes s (rank_changes s) n
          ∧ rank_changes_id_seq s ≤ n)
  ∨ (∃ r, res = inr [RankChangeRow r]
          ∧ s' = set_rank_changes s (rank_changes s ++ [r])
                   (rank_changes_id_seq s + 1)
          ∧ rank_changes.id r = rank_changes_id_seq s
          ∧ (rank_changes_id_seq s ∉ rank_changes.id <$> rank_changes s)
          ∧ rank_changes.battle_id r ∈ battle_ids.id <$> battle_ids s
          ∧ rank_changes.change_type r ∈ change_types
          ∧ rank_changes.created_at r = Some t).
Proof.
  unfold insert_rank_change.
  destruct ps as [|id [|change_type [|from_rank [|to_rank [|reason [|]]]]]];
    try fails set_rank_changes_same.
  destruct (nullable int4_in id) as [e|b]; [fails set_rank_changes_same|].
  destruct (nextval _ _) as [e|n] eqn:Hid; [fails set_rank_changes_same|].
  apply nextval_inr in Hid as [-> Hmax].
  destruct (not_null _ _ b) as [e|b']; [fails set_rank_changes_same|].
  destruct (not_null _ _ change_type) as [e|c']; [fails set_rank_changes_same|].
  destruct (check_in _ _ _ _) as [e|u] eqn:Hcheck; [fails set_rank_changes_same|].
  destruct (require _ _) as [e|u'] eqn:Hfresh; [fails set_rank_changes_same|].
  destruct (references_battle_ids _ _ _ _) as [e|u''] eqn:Hfk;
    [fails set_rank_changes_same|].
  intros; simplify_eq. right. eexists. split; [reflexivity|].
  split; [reflexivity|]. cbn.
  apply require_inr, bool_decide_eq_true in Hfresh.
  apply require_inr, bool_decide_eq_true in Hfk.
  repeat split; try done. eapply check_in_inr; eauto.
Qed.

Lemma insert_awards_catalog_cases ps s s' res :
  insert_awards_catalog ps s = (s', res) →
  (∃ e n, res = inl e
          ∧ s' = set_awards_catalog s (awards_catalog s) n
          ∧ awards_catalog_id_seq s ≤ n)
  ∨ (∃ r, res = inr [CatalogRow r]
          ∧ s' = set_awards_catalog s (awards_catalog s ++ [r])
                   (awards_catalog_id_seq s + 1)
          ∧ awards_catalog.id r = awards_catalog_id_seq s
          ∧ (awards_catalog_id_seq s ∉ awards_catalog.id <$> awards_catalog s)
          ∧ (awards_catalog.code r = None
             ∨ awards_catalog.code r ∉ (awards_catalog.code <$> awards_catalog s))).
Proof.
  unfold insert_awards_catalog.
  destruct ps as [|code [|name [|description [|icon_url [|]]]]];
    try fails set_awards_catalog_same.
  destruct (nextval _ _) as [e|n] eqn:Hid; [fails set_awards_catalog_same|].
  apply nextval_inr in Hid as [-> Hmax].
  destruct (not_null _ _ name) as [e|nm]; [fails set_awards_catalog_same|].
  destruct (require _ _) as [e|u'] eqn:Hfresh; [fails set_awards_catalog_same|].
  destruct (require (bool_decide (code = None ∨ _)) _) as [e|u''] eqn:Hcode;
    [fails set_awards_catalog_same|].
  intros; simplify_eq. right. eexists. split; [reflexivity|].
  split; [reflexivity|]. cbn.
  apply require_inr, bool_decide_eq_true in Hfresh.
  apply require_inr, bool_decide_eq_true in Hcode. done.
Qed.

Lemma insert_award_cases ps t s s' res :
  insert_award ps t s = (s', res) →
  (∃ e n, res = inl e
          ∧ s' = set_awards s (awards s) n ∧ awards_id_seq s ≤ n)
  ∨ (∃ r, res = inr [AwardRow r]
          ∧ s' = set_awards s (awards s ++ [r]) (awards_id_seq s + 1)
          ∧ awards.id r = awards_id_seq s
          ∧ (awards_id_seq s ∉ awards.id <$> awards s)
          ∧ awards.battle_id r ∈ battle_ids.id <$> battle_ids s
          ∧ awards.award_id r ∈ awards_catalog.id <$> awards_catalog s
          ∧ awards.granted_at r = Some t).
Proof.
  unfold insert_award.
  destruct ps as [|battle_id [|award_id [|notes [|]]]]; try fails set_awards_same.
  destruct (nullable int4_in battle_id) as [e|b]; [fails set_awards_same|].
  destruct (nullable int4_in award_id) as [e|a]; [fails set_awards_same|].
  destruct (nextval _ _) as [e|n] eqn:Hid; [fails set_awards_same|].
  apply nextval_inr in Hid as [-> Hmax].
  destruct (not_null _ _ b) as [e|b']; [fails set_awards_same|].
  destruct (not_null _ _ a) as [e|a']; [fails set_awards_same|].
  destruct (require _ _) as [e|u'] eqn:Hfresh; [fails set_awards_same|].
  destruct (references_battle_ids _ _ _ _) as [e|u''] eqn:Hfk;
    [fails set_awards_same|].
  destruct (require (bool_decide (a' ∈ _)) _) as [e|u3] eqn:Hcat;
    [fails set_awards_same|].
  intros; simplify_eq. right. eexists. split; [reflexivity|].
  split; [reflexivity|]. cbn.
  apply require_inr, bool_decide_eq_true in Hfresh.
  apply require_inr, bool_decide_eq_true in Hfk.
  apply require_inr, bool_decide_eq_true in Hcat. done.
Qed.

End MoreInsertShapes.

Section UpdateShapes.

Variable date_in : string → option Z.

Lemma update_battle_id_cases ps s s' res :
  update_battle_id date_in ps s = (s', res) →
  (∃ e, res = inl e ∧ s' = s)
  ∨ (∃ table changed,
       res = inr (BattleRow <$> changed)
       ∧ s' = set_battle_ids s table (battle_ids_id_seq s)
       ∧ Forall2 replaced_by (battle_ids s) table).
Proof.
  unfold update_battle_id.
  destruct ps as [|name [|callsign [|role [|rank [|specialty [|ethnicity [|dob
    [|strikes_level [|notes [|avatar [|status [|id [|]]]]]]]]]]]]];
    try (intros; simplify_eq; left; by eexists).
  destruct (nullable _ dob) as [e|d]; [intros; simplify_eq; left; by eexists|].
  destruct (nullable int4_in id) as [e|i]; [intros; simplify_eq; left; by eexists|].
  destruct (update_where _ _ _) as [e|[table changed]] eqn:Hu;
    [intros; simplify_eq; left; by eexists|].
  intros; simplify_eq. right. exists table, changed. split; [done|]. split; [done|].
  eapply update_where_related; [| |exact Hu].
  - intros r r' _ Hr'. cbn beta in Hr'.
    destruct (not_null _ _ name) as [e|nm]; [done|].
    destruct (check_in _ _ _ _) as [e|u] eqn:Hcheck; [done|].
    injection Hr' as <-. cbn. repeat split. right. intros v Hv.
    eapply check_in_inr; eauto.
  - intros r. repeat split. by left.
Qed.

Lemma update_commendations_count_cases ps s s' res :
  update_commendations_count ps s = (s', res) →
  (∃ e, res = inl e ∧ s' = s)
  ∨ (∃ table,
       res = inr []
       ∧ s' = set_battle_ids s table (battle_ids_id_seq s)
       ∧ Forall2 recounted (battle_ids s) table).
Proof.
  unfold update_commendations_count.
  destruct ps as [|id [|]]; try (intros; simplify_eq; left; by eexists).
  destruct (nullable int4_in id) as [e|i]; [intros; simplify_eq; left; by eexists|].
  destruct (update_where _ _ _) as [e|[table changed]] eqn:Hu;
    [intros; simplify_eq; left; by eexists|].
  intros; simplify_eq. right. exists table. split; [done|]. split; [done|].
  eapply update_where_related; [| |exact Hu].
  - intros r r' _ Hr'. unfold bump_commendations_count in Hr'.
    destruct (battle_ids.commendations_count r) as [c|];
      [destruct (c + 1 <=? INT2_MAX); [|done]|];
      injection Hr' as <-; by repeat split.
  - intros r. by repeat split.
Qed.

(** The rows a [DELETE FROM battle_ids WHERE id = x] takes with it. *)
Lemma delete_battle_id_cases ps s s' res :
  delete_battle_id ps s = (s', res) →
  (∃ e, res = inl e ∧ s' = s)
  ∨ (∃ x,
       res = inr []
       ∧ battle_ids s' = filter (λ r, negb (has_id x r)) (battle_ids s)
       ∧ commendations s'
         = filter (λ r, negb (bool_decide
                                (x = Some (commendations.battle_id r)
                                 ∧ commendations.battle_id r
                                   ∈ battle_ids.id <$> battle_ids s)))
             (commendations s)
       ∧ rank_changes s'
         = filter (λ r, negb (bool_decide
                                (x = Some (rank_changes.battle_id r)
                                 ∧ rank_changes.battle_id r
                                   ∈ battle_ids.id <$> battle_ids s)))
             (rank_changes s)
       ∧ awards s'
         = filter (λ r, negb (bool_decide
                                (x = Some (awards.battle_id r)
                                 ∧ awards.battle_id r
                                   ∈ battle_ids.id <$> battle_ids s)))
             (awards s)
       ∧ awards_catalog s' = awards_catalog s
       ∧ battle_ids_id_seq s' = battle_ids_id_seq s
       ∧ commendations_id_seq s' = commendations_id_seq s
       ∧ rank_changes_id_seq s' = rank_changes_id_seq s
       ∧ awards_catalog_id_seq s' = awards_catalog_id_seq s
       ∧ awards_id_seq s' = awards_id_seq s).
Proof.
  unfold delete_battle_id.
  destruct ps as [|id [|]]; try (intros; simplify_eq; left; by eexists).
  destruct (nullable int4_in id) as [e|x]; [intros; simplify_eq; left; by eexists|].
  intros; simplify_eq. right. exists x. by repeat split.
Qed.

End UpdateShapes.
(** ** The declared constraints are kept *)

Ltac listed :=
  repeat first [apply list_elem_of_here | apply list_elem_of_further].

Section Constraints.

Variable date_in : string → option Z.

Lemma constraints_battle_ids s l n :
  constraints_hold s →
  NoDup (battle_ids.id <$> l) →
  (∀ x, x ∈ battle_ids.id <$> battle_ids s → x ∈ battle_ids.id <$> l) →
  (∀ r v, r ∈ l → battle_ids.strikes_level r = Some v → v ∈ strikes_levels) →
  constraints_hold (set_battle_ids s l n).
Proof. intros []; constructor; cbn; eauto. Qed.

Lemma constraints_commendations s l n :
  constraints_hold s →
  NoDup (commendations.id <$> l) →
  (∀ r, r ∈ l → commendations.battle_id r ∈ battle_ids.id <$> battle_ids s) →
  (∀ r, r ∈ l → commendations.level r ∈ commendation_levels) →
  constraints_hold (set_commendations s l n).
Proof. intros []; constructor; cbn; eauto. Qed.

Lemma constraints_rank_changes s l n :
  constraints_hold s →
  NoDup (rank_changes.id <$> l) →
  (∀ r, r ∈ l → rank_changes.battle_id r ∈ battle_ids.id <$> battle_ids s) →
  (∀ r, r ∈ l → rank_changes.change_type r ∈ change_types) →
  constraints_hold (set_rank_changes s l n).
Proof. intros []; constructor; cbn; eauto. Qed.

Lemma constraints_awards s l n :
  constraints_hold s →
  NoDup (awards.id <$> l) →
  (∀ r, r ∈ l → awards.battle_id r ∈ battle_ids.id <$> battle_ids s) →
  (∀ r, r ∈ l → awards.award_id r ∈ awards_catalog.id <$> awards_catalog s) →
  constraints_hold (set_awards s l n).
Proof. intros []; constructor; cbn; eauto. Qed.

Lemma constraints_awards_catalog s l n :
  constraints_hold s →
  NoDup (awards_catalog.id <$> l) →
  NoDup (omap awards_catalog.code l) →
  (∀ x, x ∈ awards_catalog.id <$> awards_catalog s → x ∈ awards_catalog.id <$> l) →
  constraints_hold (set_awards_catalog s l n).
Proof. intros []; constructor; cbn; eauto. Qed.

Lemma NoDup_snoc {A} (l : list A) x : NoDup l → x ∉ l → NoDup (l ++ [x]).
Proof.
  intros Hl Hx. apply NoDup_app. split; [done|]. split; [|apply NoDup_singleton].
  intros y Hy ->%list_elem_of_singleton. done.
Qed.

Lemma elem_of_snoc {A} (l : list A) x y : y ∈ l ++ [x] ↔ y ∈ l ∨ y = x.
Proof. rewrite elem_of_app, list_elem_of_singleton. done. Qed.

Lemma replaced_by_ids l table :
  Forall2 replaced_by l table → battle_ids.id <$> table = battle_ids.id <$> l.
Proof.
  induction 1 as [|r r' l table (Hid & _) _ IH]; [done|].
  by rewrite !fmap_cons, Hid, IH.
Qed.

Lemma recounted_ids l table :
  Forall2 recounted l table → battle_ids.id <$> table = battle_ids.id <$> l.
Proof.
  induction 1 as [|r r' l table (Hid & _) _ IH]; [done|].
  by rewrite !fmap_cons, Hid, IH.
Qed.

Lemma NoDup_fmap_filter {A B} (f : A → B) (p : A → bool) l :
  NoDup (f <$> l) → NoDup (f <$> filter (λ x, p x) l).
Proof.
  intros H. eapply sublist_NoDup; [done|].
  apply fmap_sublist, sublist_filter.
Qed.

Lemma exec_keeps_constraints q ps t s :
  constraints_hold s → constraints_hold (exec date_in q ps t s).1.
Proof.
  intros Hs.
  destruct q; try (by rewrite select_keeps by listed); cbn [exec].
  - destruct (insert_battle_id date_in ps t s) as [s' res] eqn:Hq.
    apply insert_battle_id_cases in Hq
      as [(e & n & -> & -> & _)|(r & -> & -> & Hid & Hfresh & _ & _ & Hcheck)];
      cbn [fst].
    + apply constraints_battle_ids; try done; by destruct Hs; eauto.
    + apply constraints_battle_ids; try done.
      * rewrite fmap_app. apply NoDup_snoc; [by destruct Hs|].
        cbn. by rewrite Hid.
      * intros x Hx. rewrite fmap_app. apply elem_of_app. by left.
      * intros r' v [Hr'| ->]%elem_of_snoc; [by destruct Hs; eauto|]. apply Hcheck.
  - destruct (update_battle_id date_in ps s) as [s' res] eqn:Hq.
    apply update_battle_id_cases in Hq
      as [(e & -> & ->)|(table & changed & -> & -> & Hrel)]; cbn [fst]; [done|].
    apply constraints_battle_ids; try done.
    + rewrite (replaced_by_ids _ _ Hrel). by destruct Hs.
    + by rewrite (replaced_by_ids _ _ Hrel).
    + intros r' v Hr' Hv.
      apply list_elem_of_lookup in Hr' as [i Hi].
      destruct (Forall2_lookup_r _ _ _ _ _ Hrel Hi) as (r & Hr & _ & _ & _ & [->|Hok]).
      * eapply (battle_ids_strikes_level_check _ Hs); [|done].
        apply list_elem_of_lookup. eauto.
      * by apply Hok.
  - destruct (delete_battle_id ps s) as [s' res] eqn:Hq.
    apply delete_battle_id_cases in Hq
      as [(e & -> & ->)|(x & -> & Hb & Hc & Hr & Ha & Hcat & _)]; cbn [fst]; [done|].
    assert (Hkept : ∀ b, b ∈ battle_ids.id <$> battle_ids s →
                         ¬ (x = Some b ∧ b ∈ battle_ids.id <$> battle_ids s) →
                         b ∈ battle_ids.id <$> battle_ids s').
    { intros b (r & -> & Hr')%list_elem_of_fmap Hnot. rewrite Hb.
      apply list_elem_of_fmap. exists r. split; [done|].
      apply list_elem_of_filter. split; [|done].
      unfold has_id. apply negb_prop_intro. intros Hx%bool_decide_unpack.
      apply Hnot. split; [done|]. apply list_elem_of_fmap. eauto. }
    destruct Hs. constructor; rewrite ?Hc, ?Hr, ?Ha, ?Hcat; try done.
    + rewrite Hb. by apply NoDup_fmap_filter.
    + by apply NoDup_fmap_filter.
    + by apply NoDup_fmap_filter.
    + by apply NoDup_fmap_filter.
    + intros r [Hg Hin]%list_elem_of_filter. apply Hkept; [eauto|].
      intros H. by rewrite bool_decide_eq_true_2 in Hg.
    + intros r [Hg Hin]%list_elem_of_filter. apply Hkept; [eauto|].
      intros H. by rewrite bool_decide_eq_true_2 in Hg.
    + intros r [Hg Hin]%list_elem_of_filter. apply Hkept; [eauto|].
      intros H. by rewrite bool_decide_eq_true_2 in Hg.
    + intros r [Hg Hin]%list_elem_of_filter. eauto.
    + rewrite Hb. intros r v [_ Hin]%list_elem_of_filter. eauto.
    + intros r [_ Hin]%list_elem_of_filter. eauto.
    + intros r [_ Hin]%list_elem_of_filter. eauto.
  - destruct (insert_awards_catalog ps s) as [s' res] eqn:Hq.
    apply insert_awards_catalog_cases in Hq
      as [(e & n & -> & -> & _)|(r & -> & -> & Hid & Hfresh & Hcode)];
      cbn [fst].
    + apply constraints_awards_catalog; try done; by destruct Hs.
    + apply constraints_awards_catalog; try done.
      * rewrite fmap_app. apply NoDup_snoc; [by destruct Hs|].
        cbn. by rewrite Hid.
      * rewrite omap_app. cbn. destruct (awards_catalog.code r) as [c|] eqn:Hc.
        -- apply NoDup_snoc; [by destruct Hs|].
           destruct Hcode as [|Hcode]; [done|].
           intros (r' & Hr' & Hc')%list_elem_of_omap. apply Hcode.
           apply list_elem_of_fmap. eauto.
        -- rewrite app_nil_r. by destruct Hs.
      * intros x Hx. rewrite fmap_app. apply elem_of_app. by left.
  - destruct (insert_award ps t s) as [s' res] eqn:Hq.
    apply insert_award_cases in Hq
      as [(e & n & -> & -> & _)|(r & -> & -> & Hid & Hfresh & Hb & Ha & _)];
      cbn [fst].
    + apply constraints_awards; try done; by destruct Hs.
    + apply constraints_awards; try done.
      * rewrite fmap_app. apply NoDup_snoc; [by destruct Hs|].
        cbn. by rewrite Hid.
      * intros r' [Hr'| ->]%elem_of_snoc; [by destruct Hs; eauto|]. done.
      * intros r' [Hr'| ->]%elem_of_snoc; [by destruct Hs; eauto|]. done.
  - destruct (insert_rank_change ps t s) as [s' res] eqn:Hq.
    apply insert_rank_change_cases in Hq
      as [(e & n & -> & -> & _)|(r & -> & -> & Hid & Hfresh & Hb & Ha & _)];
      cbn [fst].
    + apply constraints_rank_changes; try done; by destruct Hs.
    + apply constraints_rank_changes; try done.
      * rewrite fmap_app. apply NoDup_snoc; [by destruct Hs|].
        cbn. by rewrite Hid.
      * intros r' [Hr'| ->]%elem_of_snoc; [by destruct Hs; eauto|]. done.
      * intros r' [Hr'| ->]%elem_of_snoc; [by destruct Hs; eauto|]. done.
  - destruct (insert_commendation ps t s) as [s' res] eqn:Hq.
    apply insert_commendation_cases in Hq
      as [(e & n & -> & -> & _)|(r & -> & -> & Hid & Hfresh & Hb & Ha & _)];
      cbn [fst].
    + apply constraints_commendations; try done; by destruct Hs.
    + apply constraints_commendations; try done.
      * rewrite fmap_app. apply NoDup_snoc; [by destruct Hs|].
        cbn. by rewrite Hid.
      * intros r' [Hr'| ->]%elem_of_snoc; [by destruct Hs; eauto|]. done.
      * intros r' [Hr'| ->]%elem_of_snoc; [by destruct Hs; eauto|]. done.
  - destruct (update_commendations_count ps s) as [s' res] eqn:Hq.
    apply update_commendations_count_cases in Hq
      as [(e & -> & ->)|(table & -> & -> & Hrel)]; cbn [fst]; [done|].
    apply constraints_battle_ids; try done.
    + rewrite (recounted_ids _ _ Hrel). by destruct Hs.
    + by rewrite (recounted_ids _ _ Hrel).
    + intros r' v Hr' Hv.
      apply list_elem_of_lookup in Hr' as [i Hi].
      destruct (Forall2_lookup_r _ _ _ _ _ Hrel Hi) as (r & Hr & _ & _ & _ & Hst & _).
      eapply (battle_ids_strikes_level_check _ Hs).
      * apply list_elem_of_lookup. eauto.
      * by rewrite <- Hst.
Qed.

End Constraints.

(** ** Invariants of the database over a run of the server *)

Section Runs.

Variable date_in : string → option Z.
Variable env : nat → Env.

Lemma app_preserves (P : Store → Prop) r req w :
  (∀ q ps t s, P s → P (exec date_in q ps t s).1) →
  P (db w) → P (db (app date_in env r req w).2).
Proof.
  intros Hq Hw. unfold app, bind, ret.
  destruct (cors_origin (origin req)); [done|].
  assert (H := handler_preserves date_in env P r (λ q _, Hq q) req w Hw).
  by destruct (handler date_in env r req w) as [[res|err] w'].
Qed.

Lemma serve_preserves (P : Store → Prop) :
  (∀ q ps t s, P s → P (exec date_in q ps t s).1) →
  ∀ reqs w, P (db w) →
    ∃ w', (serve date_in env (Running w) reqs).1 = Running w' ∧ P (db w').
Proof.
  intros Hq. induction reqs as [|[r req] reqs IH]; intros w Hw; [by exists w|].
  cbn [serve].
  assert (H := app_preserves P r req w Hq Hw).
  destruct (deliver_running date_in env w r req) as (w1 & reply & Hd).
  rewrite Hd. unfold deliver in Hd.
  destruct (app date_in env r req w) as [[rep|err] w1'] eqn:Happ; [|done].
  simplify_eq. destruct (IH w1 H) as (w2 & Hs & Hw2).
  destruct (serve date_in env (Running w1) reqs) as [p replies].
  exists w2. by cbn in *.
Qed.

(** The same through whatever happens to the server, in every world the
    process reaches. *)
Lemma live_preserves (P : Store → Prop) :
  (∀ q ps t s, P s → P (exec date_in q ps t s).1) →
  ∀ os w w', P (db w) →
    (live date_in env (Running w) os).1 = Running w' → P (db w').
Proof.
  intros Hq. induction os as [|o os IH]; intros w w' Hw.
  - by intros [= <-].
  - cbn [live]. destruct o as [r req|err].
    + cbn [occur]. unfold deliver.
      assert (H := app_preserves P r req w Hq Hw).
      destruct (app date_in env r req w) as [[rep|e] w1].
      * specialize (IH w1 w' H).
        destruct (live date_in env (Running w1) os) as [p replies]. exact IH.
      * rewrite live_crashed. by intros [=].
    + unfold occur, emit_error, pool_error_listeners, throw.
      rewrite live_crashed. by intros [=].
Qed.

End Runs.

(** X3: the declared constraints of the five tables (primary keys, the
    unique award code, the foreign keys and the [CHECK] lists) hold in
    every world the server process reaches from one where they held,
    through any sequence of requests to any routes, whatever the requests
    carry and whichever statements fail. *)
Theorem constraints_kept_by_requests (date_in : string → option Z)
    (env : nat → Env) (os : list Occurrence) (w w' : World) :
  constraints_hold (db w) →
  (live date_in env (Running w) os).1 = Running w' →
  constraints_hold (db w').
Proof.
  apply live_preserves. intros q ps t s. apply exec_keeps_constraints.
Qed.

(** The constraints of a concrete database are decided by evaluation. *)
Lemma constraints_hold_decide s :
  NoDup (battle_ids.id <$> battle_ids s)
  ∧ NoDup (commendations.id <$> commendations s)
  ∧ NoDup (rank_changes.id <$> rank_changes s)
  ∧ NoDup (awards_catalog.id <$> awards_catalog s)
  ∧ NoDup (awards.id <$> awards s)
  ∧ NoDup (omap awards_catalog.code (awards_catalog s))
  ∧ Forall (λ b, b ∈ battle_ids.id <$> battle_ids s)
      (commendations.battle_id <$> commendations s)
  ∧ Forall (λ b, b ∈ battle_ids.id <$> battle_ids s)
      (rank_changes.battle_id <$> rank_changes s)
  ∧ Forall (λ b, b ∈ battle_ids.id <$> battle_ids s)
      (awards.battle_id <$> awards s)
  ∧ Forall (λ a, a ∈ awards_catalog.id <$> awards_catalog s)
      (awards.award_id <$> awards s)
  ∧ Forall (λ v, v ∈ strikes_levels)
      (omap battle_ids.strikes_level (battle_ids s))
  ∧ Forall (λ v, v ∈ commendation_levels)
      (commendations.level <$> commendations s)
  ∧ Forall (λ v, v ∈ change_types)
      (rank_changes.change_type <$> rank_changes s) →
  constraints_hold s.
Proof.
  rewrite !Forall_forall.
  intros (? & ? & ? & ? & ? & ? & H1 & H2 & H3 & H4 & H5 & H6 & H7).
  constructor; try done.
  - intros r Hr. apply H1, list_elem_of_fmap. eauto.
  - intros r Hr. apply H2, list_elem_of_fmap. eauto.
  - intros r Hr. apply H3, list_elem_of_fmap. eauto.
  - intros r Hr. apply H4, list_elem_of_fmap. eauto.
  - intros r v Hr Hv. apply H5, list_elem_of_omap. eauto.
  - intros r Hr. apply H6, list_elem_of_fmap. eauto.
  - intros r Hr. apply H7, list_elem_of_fmap. eauto.
Qed.

Lemma constraints_kept_by_requests_witness :
  let os :=
    [ Arrives POST_api_awards_catalog
        (request JUndefined [] [("code", JStr "VAL"); ("name", JStr "Again")]);
      Arrives DELETE_api_battle_id (request JUndefined [("id", "1")] []);
      Arrives POST_api_battle_id_commendation
        (request JUndefined [("id", "2")] [("level", JNum 7)]) ] in
  constraints_hold (db squad)
  ∧ ∃ w', (live iso_date quiet (Running squad) os).1 = Running w'
          ∧ battle_ids.id <$> battle_ids (db w') = [2; 3]
          ∧ constraints_hold (db w').
Proof.
  intros os.
  assert (H : constraints_hold (db squad)).
  { apply constraints_hold_decide.
    apply (bool_decide_unpack _). vm_compute. reflexivity. }
  split; [exact H|].
  pose (w' := match (live iso_date quiet (Running squad) os).1 with
              | Running w' => w'
              | Crashed _ => squad
              end).
  assert (Hlive : (live iso_date quiet (Running squad) os).1 = Running w')
    by (vm_compute; reflexivity).
  exists w'. split; [exact Hlive|]. split; [vm_compute; reflexivity|].
  exact (constraints_kept_by_requests iso_date quiet os squad w' H Hlive).
Defined.

(** ** Generated ids *)

Section Generators.

Variable date_in : string → option Z.

Lemma below_ids {A} (id : A → Z) (l : list A) n :
  (∀ r, r ∈ l → id r < n) ↔ (∀ x, x ∈ id <$> l → x < n).
Proof.
  split.
  - intros H x (r & -> & Hr)%list_elem_of_fmap. eauto.
  - intros H r Hr. apply H, list_elem_of_fmap. eauto.
Qed.

Lemma below_snoc {A} (id : A → Z) (l : list A) r n m :
  (∀ r, r ∈ l → id r < n) → id r = n → n < m →
  ∀ r', r' ∈ l ++ [r] → id r' < m.
Proof.
  intros Hl Hr Hn r' [Hr'| ->]%elem_of_snoc; [|lia].
  specialize (Hl r' Hr'). lia.
Qed.

Lemma below_filter {A} (id : A → Z) (p : A → bool) (l : list A) n :
  (∀ r, r ∈ l → id r < n) → ∀ r, r ∈ filter (λ x, p x) l → id r < n.
Proof. intros Hl r [_ Hr]%list_elem_of_filter. eauto. Qed.

Lemma below_weaken {A} (id : A → Z) (l : list A) n m :
  (∀ r, r ∈ l → id r < n) → n ≤ m → ∀ r, r ∈ l → id r < m.
Proof. intros Hl Hn r Hr. specialize (Hl r Hr). lia. Qed.

Lemma exec_keeps_generators q ps t s :
  generators_ahead s → generators_ahead (exec date_in q ps t s).1.
Proof.
  intros Hs.
  destruct q; try (by rewrite select_keeps by listed); cbn [exec];
    destruct Hs as (Hb & Hc & Hr & Hcat & Ha).
  - destruct (insert_battle_id date_in ps t s) as [s' res] eqn:Hq.
    apply insert_battle_id_cases in Hq
      as [(e & n & -> & -> & Hn)|(r & -> & -> & Hid & _)];
      cbn [fst]; (split; [|done]); cbn.
    + by eapply below_weaken.
    + eapply below_snoc; [done..|lia].
  - destruct (update_battle_id date_in ps s) as [s' res] eqn:Hq.
    apply update_battle_id_cases in Hq
      as [(e & -> & ->)|(table & changed & -> & -> & Hrel)]; cbn [fst]; [done|].
    split; [|done]; cbn. apply (below_ids battle_ids.id).
    rewrite (replaced_by_ids _ _ Hrel). by apply (below_ids battle_ids.id).
  - destruct (delete_battle_id ps s) as [s' res] eqn:Hq.
    apply delete_battle_id_cases in Hq
      as [(e & -> & ->)
         |(x & -> & Eb & Ec & Er & Ea & Ecat & Sb & Sc & Sr & Scat & Sa)];
      cbn [fst]; [done|].
    unfold generators_ahead.
    rewrite Eb, Ec, Er, Ea, Ecat, Sb, Sc, Sr, Scat, Sa.
    repeat split; try done; by apply below_filter.
  - destruct (insert_awards_catalog ps s) as [s' res] eqn:Hq.
    apply insert_awards_catalog_cases in Hq
      as [(e & n & -> & -> & Hn)|(r & -> & -> & Hid & _)];
      cbn [fst]; (do 3 (split; [done|])); (split; [|done]); cbn.
    + by eapply below_weaken.
    + eapply below_snoc; [done..|lia].
  - destruct (insert_award ps t s) as [s' res] eqn:Hq.
    apply insert_award_cases in Hq
      as [(e & n & -> & -> & Hn)|(r & -> & -> & Hid & _)];
      cbn [fst]; (do 4 (split; [done|])); cbn.
    + by eapply below_weaken.
    + eapply below_snoc; [done..|lia].
  - destruct (insert_rank_change ps t s) as [s' res] eqn:Hq.
    apply insert_rank_change_cases in Hq
      as [(e & n & -> & -> & Hn)|(r & -> & -> & Hid & _)];
      cbn [fst]; (do 2 (split; [done|])); (split; [|done]); cbn.
    + by eapply below_weaken.
    + eapply below_snoc; [done..|lia].
  - destruct (insert_commendation ps t s) as [s' res] eqn:Hq.
    apply insert_commendation_cases in Hq
      as [(e & n & -> & -> & Hn)|(r & -> & -> & Hid & _)];
      cbn [fst]; (split; [done|]); (split; [|done]); cbn.
    + by eapply below_weaken.
    + eapply below_snoc; [done..|lia].
  - destruct (update_commendations_count ps s) as [s' res] eqn:Hq.
    apply update_commendations_count_cases in Hq
      as [(e & -> & ->)|(table & -> & -> & Hrel)]; cbn [fst]; [done|].
    split; [|done]; cbn. apply (below_ids battle_ids.id).
    rewrite (recounted_ids _ _ Hrel). by apply (below_ids battle_ids.id).
Qed.

(** Relative to a database [s0]: the sequence of [battle_ids] has not gone
    back and every operative with an id from before it is one of [s0]. *)
Lemma exec_keeps_old_ids s0 q ps t s :
  generators_ahead s
  ∧ battle_ids_id_seq s0 ≤ battle_ids_id_seq s
  ∧ (∀ r, r ∈ battle_ids s → battle_ids.id r < battle_ids_id_seq s0 →
          battle_ids.id r ∈ battle_ids.id <$> battle_ids s0) →
  let s' := (exec date_in q ps t s).1 in
  generators_ahead s'
  ∧ battle_ids_id_seq s0 ≤ battle_ids_id_seq s'
  ∧ (∀ r, r ∈ battle_ids s' → battle_ids.id r < battle_ids_id_seq s0 →
          battle_ids.id r ∈ battle_ids.id <$> battle_ids s0).
Proof.
  intros (Hg & Hseq & Hold). split; [by apply exec_keeps_generators|].
  assert (Hold' : ∀ x, x ∈ battle_ids.id <$> battle_ids s →
                       x < battle_ids_id_seq s0 →
                       x ∈ battle_ids.id <$> battle_ids s0).
  { intros x (r & -> & Hr)%list_elem_of_fmap. eauto. }
  assert (Hids : ∀ l, battle_ids.id <$> l = battle_ids.id <$> battle_ids s →
                      ∀ r, r ∈ l → battle_ids.id r < battle_ids_id_seq s0 →
                           battle_ids.id r ∈ battle_ids.id <$> battle_ids s0).
  { intros l Hl r Hr. apply Hold'. rewrite <- Hl. apply list_elem_of_fmap. eauto. }
  destruct q; try (by rewrite select_keeps by listed); cbn [exec].
  - destruct (insert_battle_id date_in ps t s) as [s' res] eqn:Hq.
    apply insert_battle_id_cases in Hq
      as [(e & n & -> & -> & Hn)|(r & -> & -> & Hid & _)]; cbn.
    + split; [lia|done].
    + split; [lia|]. intros r' [Hr'| ->]%elem_of_snoc; [eauto|lia].
  - destruct (update_battle_id date_in ps s) as [s' res] eqn:Hq.
    apply update_battle_id_cases in Hq
      as [(e & -> & ->)|(table & changed & -> & -> & Hrel)]; cbn; [done|].
    split; [done|]. apply Hids, (replaced_by_ids _ _ Hrel).
  - destruct (delete_battle_id ps s) as [s' res] eqn:Hq.
    apply delete_battle_id_cases in Hq
      as [(e & -> & ->)|(x & -> & Eb & _ & _ & _ & _ & Sb & _)];
      cbn [fst]; [done|].
    rewrite Eb, Sb. split; [done|].
    intros r [_ Hr]%list_elem_of_filter. eauto.
  - destruct (insert_awards_catalog ps s) as [s' res] eqn:Hq.
    by apply insert_awards_catalog_cases in Hq
      as [(e & n & -> & -> & Hn)|(r & -> & -> & Hid & _)].
  - destruct (insert_award ps t s) as [s' res] eqn:Hq.
    by apply insert_award_cases in Hq
      as [(e & n & -> & -> & Hn)|(r & -> & -> & Hid & _)].
  - destruct (insert_rank_change ps t s) as [s' res] eqn:Hq.
    by apply insert_rank_change_cases in Hq
      as [(e & n & -> & -> & Hn)|(r & -> & -> & Hid & _)].
  - destruct (insert_commendation ps t s) as [s' res] eqn:Hq.
    by apply insert_commendation_cases in Hq
      as [(e & n & -> & -> & Hn)|(r & -> & -> & Hid & _)].
  - destruct (update_commendations_count ps s) as [s' res] eqn:Hq.
    apply update_commendations_count_cases in Hq
      as [(e & -> & ->)|(table & -> & -> & Hrel)]; cbn; [done|].
    split; [done|]. apply Hids, (recounted_ids _ _ Hrel).
Qed.

End Generators.

(** X4: when every sequence is past the ids of its table, it still is
    after any sequence of requests; the sequence of [battle_ids] has not
    gone back, and an operative found afterwards with an id from before
    the requests is one that was there before: the id of a deleted
    operative is never given to a new one. *)
Theorem ids_never_reused (date_in : string → option Z) (env : nat → Env)
    (reqs : list (Route * Request)) (w : World) :
  generators_ahead (db w) →
  ∃ w', (serve date_in env (Running w) reqs).1 = Running w'
        ∧ generators_ahead (db w')
        ∧ battle_ids_id_seq (db w) ≤ battle_ids_id_seq (db w')
        ∧ (∀ r, r ∈ battle_ids (db w') →
                battle_ids.id r < battle_ids_id_seq (db w) →
                battle_ids.id r ∈ battle_ids.id <$> battle_ids (db w)).
Proof.
  intros Hg.
  apply (serve_preserves date_in env
           (λ s, generators_ahead s
                 ∧ battle_ids_id_seq (db w) ≤ battle_ids_id_seq s
                 ∧ (∀ r, r ∈ battle_ids s →
                         battle_ids.id r < battle_ids_id_seq (db w) →
                         battle_ids.id r ∈ battle_ids.id <$> battle_ids (db w)))).
  - intros q ps t s. apply exec_keeps_old_ids.
  - split; [done|]. split; [lia|].
    intros r Hr _. apply list_elem_of_fmap. eauto.
Qed.

Lemma generators_ahead_decide s :
  Forall (λ x, x < battle_ids_id_seq s) (battle_ids.id <$> battle_ids s)
  ∧ Forall (λ x, x < commendations_id_seq s)
      (commendations.id <$> commendations s)
  ∧ Forall (λ x, x < rank_changes_id_seq s) (rank_changes.id <$> rank_changes s)
  ∧ Forall (λ x, x < awards_catalog_id_seq s)
      (awards_catalog.id <$> awards_catalog s)
  ∧ Forall (λ x, x < awards_id_seq s) (awards.id <$> awards s) →
  generators_ahead s.
Proof.
  rewrite !Forall_forall. intros (H1 & H2 & H3 & H4 & H5).
  repeat split; intros r Hr;
    [apply H1|apply H2|apply H3|apply H4|apply H5];
    apply list_elem_of_fmap; eauto.
Qed.

Lemma ids_never_reused_witness :
  let reqs :=
    [ (DELETE_api_battle_id, request JUndefined [("id", "3")] []);
      (POST_api_battle, request JUndefined [] [("name", JStr "Kix")]) ] in
  generators_ahead (db squad)
  ∧ ∃ w', (serve iso_date quiet (Running squad) reqs).1 = Running w'
          ∧ generators_ahead (db w')
          ∧ battle_ids_id_seq (db squad) ≤ battle_ids_id_seq (db w')
          ∧ (∀ r, r ∈ battle_ids (db w') →
                  battle_ids.id r < battle_ids_id_seq (db squad) →
                  battle_ids.id r ∈ battle_ids.id <$> battle_ids (db squad)).
Proof.
  assert (H : generators_ahead (db squad)).
  { apply generators_ahead_decide.
    apply (bool_decide_unpack _). vm_compute. reflexivity. }
  split; [exact H|].
  exact (ids_never_reused iso_date quiet _ squad H).
Defined.

(** ** The stored count and the commendation rows *)

Section Counter.

Variable date_in : string → option Z.

Lemma filter_empty {A} (P : A → Prop) `{∀ x, Decision (P x)} (l : list A) :
  (∀ x, x ∈ l → ¬ P x) → filter P l = [].
Proof.
  induction l as [|x l IH]; intros Hl; [done|].
  rewrite filter_cons_False by (apply Hl; left).
  apply IH. intros y Hy. apply Hl. by right.
Qed.

Lemma filter_of_filter {A} (P Q : A → Prop) `{∀ x, Decision (P x)}
    `{∀ x, Decision (Q x)} (l : list A) :
  (∀ x, x ∈ l → P x → Q x) → filter P (filter Q l) = filter P l.
Proof.
  induction l as [|x l IH]; intros Hl; [done|].
  assert (IH' : filter P (filter Q l) = filter P l).
  { apply IH. intros y Hy. apply Hl. by right. }
  destruct (decide (Q x)) as [Hq|Hq].
  - rewrite (filter_cons_True Q) by done.
    destruct (decide (P x)).
    + rewrite !(filter_cons_True P) by done. by rewrite IH'.
    + rewrite !(filter_cons_False P) by done. done.
  - rewrite (filter_cons_False Q) by done.
    rewrite (filter_cons_False P); [done|].
    intros Hp. apply Hq, Hl; [left|done].
Qed.

Lemma counter_consistent_same s s' :
  battle_ids s' = battle_ids s → commendations s' = commendations s →
  counter_consistent s → counter_consistent s'.
Proof.
  unfold counter_consistent, commendations_of. intros -> ->. done.
Qed.

Lemma commendations_of_unknown s x :
  constraints_hold s → x ∉ battle_ids.id <$> battle_ids s →
  commendations_of s x = [].
Proof.
  intros Hs Hx. apply filter_empty. intros r Hr <-.
  by apply Hx, (commendations_battle_id_fkey _ Hs).
Qed.

Lemma counter_consistent_ids s table :
  Forall2 (λ r r', battle_ids.id r' = battle_ids.id r
                   ∧ battle_ids.commendations_count r'
                     = battle_ids.commendations_count r)
    (battle_ids s) table →
  counter_consistent s →
  counter_consistent (set_battle_ids s table (battle_ids_id_seq s)).
Proof.
  intros Hrel Hs r' Hr'. cbn in Hr'.
  apply list_elem_of_lookup in Hr' as [i Hi].
  destruct (Forall2_lookup_r _ _ _ _ _ Hrel Hi) as (r & Hr & Hid & Hcount).
  rewrite Hid, Hcount. apply Hs, list_elem_of_lookup. eauto.
Qed.

Lemma exec_keeps_counter q ps t s :
  q ≠ InsertCommendation → q ≠ UpdateCommendationsCount →
  constraints_hold s → counter_consistent s →
  counter_consistent (exec date_in q ps t s).1.
Proof.
  intros Hq1 Hq2 Hc Hs.
  destruct q; try done; try (by rewrite select_keeps by listed); cbn [exec].
  - destruct (insert_battle_id date_in ps t s) as [s' res] eqn:Hq.
    apply insert_battle_id_cases in Hq
      as [(e & n & -> & -> & Hn)|(r & -> & -> & Hid & Hfresh & Hcount & _)];
      cbn [fst]; [by eapply counter_consistent_same|].
    intros r' [Hr'| ->]%elem_of_snoc.
    + by apply Hs.
    + rewrite Hcount, Hid.
      change (commendations_of (set_battle_ids _ _ _) ?x)
        with (commendations_of s x).
      by rewrite commendations_of_unknown.
  - destruct (update_battle_id date_in ps s) as [s' res] eqn:Hq.
    apply update_battle_id_cases in Hq
      as [(e & -> & ->)|(table & changed & -> & -> & Hrel)]; cbn [fst]; [done|].
    apply counter_consistent_ids; [|done].
    eapply Forall2_impl; [done|]. by intros r r' (? & ? & _).
  - destruct (delete_battle_id ps s) as [s' res] eqn:Hq.
    apply delete_battle_id_cases in Hq
      as [(e & -> & ->)|(x & -> & Eb & Ec & _)]; cbn [fst]; [done|].
    intros r. rewrite Eb. intros [Hx Hr]%list_elem_of_filter.
    unfold commendations_of. rewrite Ec.
    rewrite filter_of_filter; [by apply Hs|].
    intros c _ Hown. apply negb_prop_intro. intros [Hgone _]%bool_decide_unpack.
    apply negb_prop_elim in Hx. apply Hx. unfold has_id.
    apply bool_decide_pack. by rewrite Hgone, Hown.
  - destruct (insert_awards_catalog ps s) as [s' res] eqn:Hq.
    apply insert_awards_catalog_cases in Hq
      as [(e & n & -> & -> & Hn)|(r & -> & -> & _)];
      by eapply counter_consistent_same.
  - destruct (insert_award ps t s) as [s' res] eqn:Hq.
    apply insert_award_cases in Hq
      as [(e & n & -> & -> & Hn)|(r & -> & -> & _)];
      by eapply counter_consistent_same.
  - destruct (insert_rank_change ps t s) as [s' res] eqn:Hq.
    apply insert_rank_change_cases in Hq
      as [(e & n & -> & -> & Hn)|(r & -> & -> & _)];
      by eapply counter_consistent_same.
Qed.

(** The counter [UPDATE] adds one to the count of the rows with the id and
    leaves the count of the others. *)
Lemma update_where_bump_rows i (rows : list battle_ids.row) :
  ∀ table changed,
    update_where (has_id i) bump_commendations_count rows = inr (table, changed) →
    Forall2 (λ r r', battle_ids.id r' = battle_ids.id r
                     ∧ battle_ids.commendations_count r'
                       = if has_id i r
                         then (λ v, v + 1) <$> battle_ids.commendations_count r
                         else battle_ids.commendations_count r)
      rows table.
Proof.
  induction rows as [|r rows IH]; intros table changed.
  - intros [= <- <-]. constructor.
  - cbn [update_where]. destruct (has_id i r) eqn:Hr.
    + destruct (bump_commendations_count r) as [e|r'] eqn:Hb; [done|].
      destruct (update_where _ _ rows) as [e|[tb ch]]; [done|].
      intros [= <- <-]. constructor; [|by eapply IH].
      rewrite Hr. unfold bump_commendations_count in Hb.
      destruct (battle_ids.commendations_count r) as [v|].
      * destruct (v + 1 <=? INT2_MAX); by simplify_eq.
      * by simplify_eq.
    + destruct (update_where _ _ rows) as [e|[tb ch]]; [done|].
      intros [= <- <-]. constructor; [|by eapply IH]. by rewrite Hr.
Qed.

End Counter.

Section CounterRoutes.

Variable date_in : string → option Z.
Variable env : nat → Env.

Lemma grant_keeps_counter req w res w' :
  post_api_battle_id_commendation date_in env req w = (Normal res, w') →
  status res = 200 →
  counter_consistent (db w) → counter_consistent (db w').
Proof.
  unfold_handlers.
  destruct (pool_query date_in env InsertCommendation _ w) as [[rows|err] w1] eqn:Hins;
    [|by intros [= <- <-]].
  destruct (pool_query date_in env UpdateCommendationsCount _ w1)
    as [[rows2|err] w2] eqn:Hupd; [|by intros [= <- <-]].
  intros [= <- <-] _ Hs.
  apply pool_query_normal in Hins as (_ & Hins & _).
  apply pool_query_normal in Hupd as (_ & Hupd & _).
  cbn [exec fmap list_fmap] in Hins, Hupd.
  destruct (insert_commendation_owner _ _ _ _ _ _ _ Hins) as (c & -> & Howner).
  apply insert_commendation_inr in Hins as (c' & [= <-] & Hdb1 & _).
  apply update_commendations_count_inr in Hupd as (i & table & changed & Hi & Hu & Hdb2).
  rewrite Howner in Hi. injection Hi as <-.
  rewrite Hdb1 in Hu. cbn in Hu. apply update_where_bump_rows in Hu.
  rewrite Hdb2, Hdb1. intros r' Hr'. cbn in Hr'.
  apply list_elem_of_lookup in Hr' as [k Hk].
  destruct (Forall2_lookup_r _ _ _ _ _ Hu Hk) as (r & Hr & Hid & Hcount).
  rewrite Hid, Hcount. unfold commendations_of. cbn.
  rewrite filter_app, length_app.
  assert (Hold := Hs r ltac:(apply list_elem_of_lookup; eauto)).
  unfold commendations_of in Hold. rewrite Hold.
  unfold has_id. destruct (decide (commendations.battle_id c = battle_ids.id r))
    as [Heq|Hne].
  - rewrite bool_decide_eq_true_2 by (by rewrite Heq).
    rewrite filter_cons_True by done. cbn. f_equal. lia.
  - rewrite bool_decide_eq_false_2 by (intros [= ?]; done).
    rewrite filter_cons_False by done. cbn. f_equal. lia.
Qed.

End CounterRoutes.

(** X5: when the constraints hold and the stored count of every operative
    is the number of its commendation rows, the same is true after a
    request to any route, whatever it carries and whether it fails or not,
    with one exception: a commendation grant that is not answered 200. *)
Theorem counter_kept (date_in : string → option Z) (env : nat → Env)
    (r : Route) (req : Request) (w : World) :
  constraints_hold (db w) →
  counter_consistent (db w) →
  (r = POST_api_battle_id_commendation →
   ∃ res, (handler date_in env r req w).1 = Normal res ∧ status res = 200) →
  counter_consistent (db (handler date_in env r req w).2).
Proof.
  intros Hc Hs Hok.
  assert (Hother : r ≠ POST_api_battle_id_commendation →
                   counter_consistent (db (handler date_in env r req w).2)).
  { intros Hr.
    apply (handler_preserves date_in env
             (λ s, constraints_hold s ∧ counter_consistent s) r); [|done].
    intros q Hq ps t s [Hc' Hs'].
    split; [by apply exec_keeps_constraints|].
    apply exec_keeps_counter; [..|done|done];
      intros ->; destruct r; cbn in Hq;
      repeat (apply elem_of_cons in Hq as [Hq|Hq]; [done|]);
      by apply elem_of_nil in Hq. }
  destruct r; try (by apply Hother).
  destruct (Hok eq_refl) as (res & Hres & H200). cbn [handler] in *.
  destruct (post_api_battle_id_commendation date_in env req w)
    as [out w'] eqn:Hh.
  cbn in Hres. subst out. by eapply grant_keeps_counter.
Qed.

Lemma counter_consistent_decide s :
  Forall (λ r, battle_ids.commendations_count r
               = Some (Z.of_nat (length (commendations_of s (battle_ids.id r)))))
    (battle_ids s) →
  counter_consistent s.
Proof. rewrite Forall_forall. done. Qed.

Lemma counter_kept_witness :
  let req := request JUndefined [("id", "2")] [("level", JNum 3)] in
  constraints_hold (db squad)
  ∧ counter_consistent (db squad)
  ∧ counter_consistent
      (db (handler iso_date quiet POST_api_battle_id_commendation req squad).2).
Proof.
  assert (Hc : constraints_hold (db squad)).
  { apply constraints_hold_decide.
    apply (bool_decide_unpack _). vm_compute. reflexivity. }
  assert (Hs : counter_consistent (db squad)).
  { apply counter_consistent_decide.
    apply (bool_decide_unpack _). vm_compute. reflexivity. }
  split; [exact Hc|]. split; [exact Hs|].
  apply (counter_kept iso_date quiet POST_api_battle_id_commendation _ squad Hc Hs).
  intros _. eexists. split; [vm_compute; reflexivity|reflexivity].
Defined.

(** ** Deleting an operative *)

Section Delete.

Variable date_in : string → option Z.
Variable env : nat → Env.

Lemma filter_same {A} (P Q : A → Prop) `{∀ x, Decision (P x)}
    `{∀ x, Decision (Q x)} (l : list A) :
  (∀ x, x ∈ l → P x ↔ Q x) → filter P l = filter Q l.
Proof.
  induction l as [|x l IH]; intros Hl; [done|].
  assert (IH' : filter P l = filter Q l).
  { apply IH. intros y Hy. apply Hl. by right. }
  destruct (decide (P x)) as [Hp|Hp].
  - rewrite (filter_cons_True P), (filter_cons_True Q), IH'; [done| |done].
    apply Hl; [left|done].
  - rewrite (filter_cons_False P), (filter_cons_False Q), IH'; [done| |done].
    intros Hq. apply Hp, Hl; [left|done].
Qed.

Lemma delete_answer req w x :
  fault (env (length (sent w))) = None →
  names req "id" x →
  ∃ s', delete_api_battle_id date_in env req w
        = (Normal {| status := 200; json := JsonSuccess true |},
           after w s' DeleteBattleId [param req "id"])
        ∧ battle_ids s'
          = filter (λ r, negb (has_id (Some x) r)) (battle_ids (db w))
        ∧ commendations s'
          = filter (λ r, negb (bool_decide
                                 (Some x = Some (commendations.battle_id r)
                                  ∧ commendations.battle_id r
                                    ∈ battle_ids.id <$> battle_ids (db w))))
              (commendations (db w))
        ∧ rank_changes s'
          = filter (λ r, negb (bool_decide
                                 (Some x = Some (rank_changes.battle_id r)
                                  ∧ rank_changes.battle_id r
                                    ∈ battle_ids.id <$> battle_ids (db w))))
              (rank_changes (db w))
        ∧ awards s'
          = filter (λ r, negb (bool_decide
                                 (Some x = Some (awards.battle_id r)
                                  ∧ awards.battle_id r
                                    ∈ battle_ids.id <$> battle_ids (db w))))
              (awards (db w))
        ∧ awards_catalog s' = awards_catalog (db w).
Proof.
  intros Hf Hid. pose proof (names_param _ _ _ Hid) as Hp.
  unfold_handlers. unfold pool_query. rewrite Hf. cbn [exec fmap list_fmap].
  unfold delete_battle_id. rewrite Hp. eexists. split; [reflexivity|]. done.
Qed.

End Delete.

(** X6: with the constraints holding, a delete-operative request whose
    statement reaches the store is answered 200 with [{ success: true }]
    whether or not the operative exists.  Afterwards the tables are the
    former ones without the operative and without the commendations, rank
    changes and awards that referenced it, every other row in its place;
    the catalog is untouched.  A second delete changes nothing more. *)
Theorem delete_removes_operative_and_dependents (date_in : string → option Z)
    (env : nat → Env) (req : Request) (w : World) (x : Z) :
  constraints_hold (db w) →
  fault (env (length (sent w))) = None →
  names req "id" x →
  ∃ w',
    delete_api_battle_id date_in env req w
    = (Normal {| status := 200; json := JsonSuccess true |}, w')
    ∧ battle_ids (db w')
      = filter (λ r, battle_ids.id r ≠ x) (battle_ids (db w))
    ∧ commendations (db w')
      = filter (λ r, commendations.battle_id r ≠ x) (commendations (db w))
    ∧ rank_changes (db w')
      = filter (λ r, rank_changes.battle_id r ≠ x) (rank_changes (db w))
    ∧ awards (db w')
      = filter (λ r, awards.battle_id r ≠ x) (awards (db w))
    ∧ awards_catalog (db w') = awards_catalog (db w)
    ∧ (x ∉ battle_ids.id <$> battle_ids (db w'))
    ∧ (fault (env (length (sent w'))) = None →
       db (delete_api_battle_id date_in env req w').2 = db w').
Proof.
  intros Hc Hf Hid.
  destruct (delete_answer date_in env req w x Hf Hid)
    as (s' & Hdel & Hb & Hcm & Hr & Ha & Hcat).
  eexists. split; [exact Hdel|]. cbn [db after].
  assert (Hb' : battle_ids s'
                = filter (λ r, battle_ids.id r ≠ x) (battle_ids (db w))).
  { rewrite Hb. apply filter_same. intros r _. unfold has_id.
    rewrite negb_True, bool_decide_spec. split.
    - intros Hn Heq. apply Hn. by rewrite Heq.
    - intros Hn [= Heq]. by apply Hn. }
  assert (Hdep : ∀ b, b ∈ battle_ids.id <$> battle_ids (db w) →
            negb (bool_decide
                    (Some x = Some b ∧ b ∈ battle_ids.id <$> battle_ids (db w)))
            ↔ b ≠ x).
  { intros b Hin. rewrite negb_True, bool_decide_spec. split.
    - intros Hn Heq. apply Hn. split; [by rewrite Heq|done].
    - intros Hn [[= Heq] _]. by apply Hn. }
  assert (Hgone : x ∉ battle_ids.id <$> battle_ids s').
  { rewrite Hb'. intros (r & -> & [Hn _]%list_elem_of_filter)%list_elem_of_fmap.
    by apply Hn. }
  split; [exact Hb'|].
  split. { rewrite Hcm. apply filter_same. intros r Hr'.
           apply Hdep, (commendations_battle_id_fkey _ Hc), Hr'. }
  split. { rewrite Hr. apply filter_same. intros r Hr'.
           apply Hdep, (rank_changes_battle_id_fkey _ Hc), Hr'. }
  split. { rewrite Ha. apply filter_same. intros r Hr'.
           apply Hdep, (awards_battle_id_fkey _ Hc), Hr'. }
  split; [exact Hcat|]. split; [exact Hgone|].
  intros Hf'.
  by rewrite (delete_missing date_in env req (after w s' DeleteBattleId _) x Hf' Hgone Hid).
Qed.

Lemma delete_removes_operative_and_dependents_witness :
  let req := request JUndefined [("id", "1")] [] in
  constraints_hold (db squad)
  ∧ ∃ w',
      delete_api_battle_id iso_date quiet req squad
      = (Normal {| status := 200; json := JsonSuccess true |}, w')
      ∧ battle_ids.name <$> battle_ids (db w') = ["Ana"; "Zed"]
      ∧ awards (db squad) ≠ []
      ∧ awards (db w') = [].
Proof.
  assert (Hc : constraints_hold (db squad)).
  { apply constraints_hold_decide.
    apply (bool_decide_unpack _). vm_compute. reflexivity. }
  split; [exact Hc|].
  destruct (delete_removes_operative_and_dependents iso_date quiet
              (request JUndefined [("id", "1")] []) squad 1 Hc eq_refl)
    as (w' & Hdel & Hb & _ & _ & Ha & _).
  { exists "1". split; reflexivity. }
  exists w'. split; [exact Hdel|]. rewrite Hb, Ha.
  split; [vm_compute; reflexivity|]. split; [|vm_compute; reflexivity].
  vm_compute. discriminate.
Defined.

(** ** Creating an operative and reading it back *)

Section CreateThenRead.

Variable date_in : string → option Z.
Variable env : nat → Env.

Lemma create_answered_200 req w res w' :
  post_api_battle date_in env req w = (Normal res, w') →
  status res = 200 →
  ∃ r, res = {| status := 200; json := JsonRow (Some (BattleRow r)) |}
       ∧ battle_ids (db w') = battle_ids (db w) ++ [r]
       ∧ battle_ids.id r = battle_ids_id_seq (db w)
       ∧ (battle_ids.id r ∉ battle_ids.id <$> battle_ids (db w))
       ∧ battle_ids.commendations_count r = Some 0
       ∧ battle_ids.created_at r = Some (now (env (length (sent w))))
       ∧ commendations (db w') = commendations (db w)
       ∧ rank_changes (db w') = rank_changes (db w)
       ∧ awards (db w') = awards (db w)
       ∧ awards_catalog (db w') = awards_catalog (db w).
Proof.
  unfold_handlers.
  destruct (pool_query date_in env InsertBattleId _ w) as [[rows|err] w1] eqn:Hins;
    [|by intros [= <- <-]].
  intros [= <- <-] _.
  apply pool_query_normal in Hins as (_ & Hins & _). cbn [exec] in Hins.
  apply insert_battle_id_cases in Hins
    as [(e & n & ? & _)|(r & [= ->] & -> & Hid & Hfresh & Hcount & Ht & _)];
    [done|].
  exists r. rewrite Hid. by repeat split.
Qed.

End CreateThenRead.

(** X7: a create-operative request answered 200 is answered with the row
    it stored, under an id no operative had.  A get-operative request for
    that id whose statement reaches the store is then answered 200 with the
    same row, and the list of operatives contains it. *)
Theorem created_operative_is_read_back (date_in : string → option Z)
    (env : nat → Env) (req : Request) (w w' : World) (res : Response Row) :
  post_api_battle date_in env req w = (Normal res, w') →
  status res = 200 →
  ∃ r,
    json res = JsonRow (Some (BattleRow r))
    ∧ (battle_ids.id r ∉ battle_ids.id <$> battle_ids (db w))
    ∧ (∀ req', names req' "id" (battle_ids.id r) →
               fault (env (length (sent w'))) = None →
               get_api_battle_id date_in env req' w'
               = (Normal res, after w' (db w') SelectBattleId [param req' "id"]))
    ∧ (∀ req', fault (env (length (sent w'))) = None →
               ∃ rows w'',
                 get_api_battle date_in env req' w'
                 = (Normal {| status := 200; json := JsonRows rows |}, w'')
                 ∧ BattleRow r ∈ rows).
Proof.
  intros Hpost H200.
  destruct (create_answered_200 date_in env req w res w' Hpost H200)
    as (r & -> & Hrows & Hid & Hfresh & _).
  exists r. split; [done|]. split; [done|]. split.
  - intros req' Hname Hf. unfold_handlers. unfold pool_query. rewrite Hf.
    cbn [exec fmap list_fmap]. unfold select_battle_id.
    rewrite (names_param _ _ _ Hname), Hrows, filter_app.
    rewrite (filter_none _ _ (has_id_missing _ _ Hfresh)).
    rewrite filter_cons_True by (unfold has_id; by rewrite bool_decide_eq_true_2).
    reflexivity.
  - intros req' Hf.
    destruct (list_operatives date_in env req' w' Hf) as (l & Hget & Hperm & _).
    eexists _, _. split; [exact Hget|].
    apply list_elem_of_fmap. exists r. split; [done|].
    rewrite Hperm, Hrows. apply elem_of_app. right. by left.
Qed.

Lemma created_operative_is_read_back_witness :
  let req := request JUndefined [] [("name", JStr "Kix"); ("rank", JStr "PFC")] in
  let out := post_api_battle iso_date quiet req squad in
  ∃ r,
    out.1 = Normal {| status := 200; json := JsonRow (Some (BattleRow r)) |}
    ∧ battle_ids.id r = 4
    ∧ get_api_battle_id iso_date quiet (request JUndefined [("id", "4")] []) out.2
      = (Normal {| status := 200; json := JsonRow (Some (BattleRow r)) |},
         after out.2 (db out.2) SelectBattleId [JStr "4"]).
Proof.
  intros req out.
  pose (res := match out.1 with
               | Normal res => res
               | Throw _ => {| status := 500; json := JsonRows [] |}
               end).
  assert (Hout : post_api_battle iso_date quiet req squad = (Normal res, out.2))
    by (vm_compute; reflexivity).
  assert (H200 : status res = 200) by (vm_compute; reflexivity).
  destruct (created_operative_is_read_back iso_date quiet req squad out.2 res
              Hout H200) as (r & Hjson & _ & Hget & _).
  assert (Hr : res = {| status := 200; json := JsonRow (Some (BattleRow r)) |}).
  { destruct res as [st js]. cbn in H200, Hjson. by subst. }
  assert (Hid : battle_ids.id r = 4).
  { assert (H4 : match json res with
                 | JsonRow (Some (BattleRow r)) => battle_ids.id r
                 | _ => 0
                 end = 4) by (vm_compute; reflexivity).
    rewrite Hjson in H4. exact H4. }
  exists r. split; [by rewrite <- Hr; vm_compute|]. split; [done|].
  rewrite <- Hr. apply (Hget (request JUndefined [("id", "4")] [])).
  - exists "4". split; [reflexivity|]. rewrite Hid. reflexivity.
  - vm_compute. reflexivity.
Defined.

(** ** Replacing an operative *)

Section Update.

Variable date_in : string → option Z.
Variable env : nat → Env.

Lemma update_where_total {A} (p : A → bool) f (g : A → A) (l : list A) :
  (∀ x, x ∈ l → p x = true → f x = inr (g x)) →
  update_where p f l
  = inr ((λ x, if p x then g x else x) <$> l, g <$> filter (λ x, p x) l).
Proof.
  induction l as [|x l IH]; intros Hf; [done|].
  cbn [update_where]. rewrite IH by (intros y Hy; apply Hf; by right).
  destruct (p x) eqn:Hp.
  - rewrite (Hf x (list_elem_of_here _ _) Hp).
    rewrite filter_cons_True by (by apply Is_true_true). cbn. by rewrite Hp.
  - rewrite filter_cons_False by (rewrite Hp; intros []). cbn. by rewrite Hp.
Qed.

Lemma one_row_has_id (l : list battle_ids.row) i old :
  NoDup (battle_ids.id <$> l) → l !! i = Some old →
  ∀ j r, l !! j = Some r → has_id (Some (battle_ids.id old)) r = true → j = i.
Proof.
  intros Hnd Hi j r Hj Hr. unfold has_id in Hr.
  apply bool_decide_eq_true in Hr. injection Hr as Hr.
  eapply NoDup_lookup; [exact Hnd| |].
  - rewrite list_lookup_fmap, Hj. cbn. by rewrite <- Hr.
  - by rewrite list_lookup_fmap, Hi.
Qed.

Lemma filter_has_id (l : list battle_ids.row) i old :
  NoDup (battle_ids.id <$> l) → l !! i = Some old →
  filter (λ r, has_id (Some (battle_ids.id old)) r) l = [old].
Proof.
  revert i. induction l as [|r l IH]; intros i Hnd Hi; [done|].
  rewrite fmap_cons in Hnd. apply NoDup_cons in Hnd as [Hr Hnd].
  destruct i as [|i]; cbn in Hi.
  - injection Hi as ->.
    rewrite filter_cons_True by (unfold has_id; by apply bool_decide_pack).
    f_equal. apply filter_none, has_id_missing, Hr.
  - rewrite filter_cons_False; [by eapply IH|].
    unfold has_id. intros [= Heq]%bool_decide_unpack.
    apply Hr. rewrite <- Heq. apply list_elem_of_fmap. exists old.
    split; [done|]. apply list_elem_of_lookup. eauto.
Qed.

Lemma replace_has_id (g : battle_ids.row → battle_ids.row)
    (l : list battle_ids.row) i old :
  NoDup (battle_ids.id <$> l) → l !! i = Some old →
  (λ r, if has_id (Some (battle_ids.id old)) r then g r else r) <$> l
  = <[i := g old]> l.
Proof.
  intros Hnd Hi. apply list_eq. intros j. rewrite list_lookup_fmap.
  destruct (decide (j = i)) as [->|Hne].
  - rewrite list_lookup_insert_eq by (by eapply lookup_lt_Some).
    rewrite Hi. cbn. unfold has_id. by rewrite bool_decide_eq_true_2.
  - rewrite list_lookup_insert_ne by done.
    destruct (l !! j) as [r|] eqn:Hj; [|done]. cbn.
    destruct (has_id (Some (battle_ids.id old)) r) eqn:Hr; [|done].
    by destruct Hne; eapply one_row_has_id.
Qed.

End Update.

(** The [UPDATE] of an existing operative: the row it writes and the
    database it leaves. *)
Lemma put_existing_operative (date_in : string → option Z)
    (env : nat → Env) (req : Request) (w : World) (i : nat)
    (old : battle_ids.row) (nm : string) (birth : option Z) :
  constraints_hold (db w) →
  battle_ids (db w) !! i = Some old →
  names req "id" (battle_ids.id old) →
  fault (env (length (sent w))) = None →
  prepareValue (field (body req) "name") = Some nm →
  nullable (pg_date_in date_in) (prepareValue (field (body req) "dob"))
  = inr birth →
  prepareValue (field (body req) "strikes_level") = None
  ∨ prepareValue (field (body req) "strikes_level") ∈ Some <$> strikes_levels →
  let r :=
    {| battle_ids.id := battle_ids.id old;
       battle_ids.name := nm;
       battle_ids.callsign := prepareValue (field (body req) "callsign");
       battle_ids.role := prepareValue (field (body req) "role");
       battle_ids.rank := prepareValue (field (body req) "rank");
       battle_ids.specialty := prepareValue (field (body req) "specialty");
       battle_ids.ethnicity := prepareValue (field (body req) "ethnicity");
       battle_ids.dob := birth;
       battle_ids.strikes_level :=
         prepareValue (field (body req) "strikes_level");
       battle_ids.commendations_count := battle_ids.commendations_count old;
       battle_ids.notes := prepareValue (field (body req) "notes");
       battle_ids.avatar := prepareValue (field (body req) "avatar");
       battle_ids.status := prepareValue (field (body req) "status");
       battle_ids.created_at := battle_ids.created_at old |} in
  ∃ w',
    put_api_battle_id date_in env req w
    = (Normal {| status := 200; json := JsonRow (Some (BattleRow r)) |}, w')
    ∧ db w' = set_battle_ids (db w) (<[i := r]> (battle_ids (db w)))
                (battle_ids_id_seq (db w)).
Proof.
  intros Hc Hi Hid Hf Hname Hdob Hlevel r.
  assert (Hcheck : check_in "battle_ids" "battle_ids_strikes_level_check"
                     strikes_levels
                     (prepareValue (field (body req) "strikes_level")) = inr tt).
  { destruct Hlevel as [->|Hl]; [done|by apply check_in_member]. }
  unfold_handlers. unfold pool_query. rewrite Hf.
  cbn [exec fmap list_fmap]. unfold update_battle_id.
  rewrite Hdob, (names_param _ _ _ Hid). cbn beta iota.
  rewrite Hname, Hcheck. cbn [not_null].
  erewrite (update_where_total _ _
              (λ r0, {| battle_ids.id := battle_ids.id r0;
                        battle_ids.commendations_count :=
                          battle_ids.commendations_count r0;
                        battle_ids.created_at := battle_ids.created_at r0 |}))
    by reflexivity.
  rewrite (filter_has_id _ _ _ (battle_ids_pkey _ Hc) Hi).
  rewrite (replace_has_id _ _ _ _ (battle_ids_pkey _ Hc) Hi).
  eexists. split; reflexivity.
Qed.

(** X8: an update-operative request for an existing operative, with a
    body of sendable values that has a name, a date of birth the store
    accepts and a strikes level that is absent or allowed, replaces the
    row in place and is answered 200 with the new row.  Every column takes
    the value of its body field and an omitted field becomes NULL: no
    default is applied, [strikes_level] and [status] included.  The id,
    the commendations count and the creation time are kept, and nothing
    else in the database changes. *)
Theorem update_replaces_operative (date_in : string → option Z)
    (env : nat → Env) (req : Request) (w : World) (i : nat)
    (old : battle_ids.row) (nm : string) (birth : option Z) :
  constraints_hold (db w) →
  battle_ids (db w) !! i = Some old →
  names req "id" (battle_ids.id old) →
  fault (env (length (sent w))) = None →
  sendable_body req = true →
  prepareValue (field (body req) "name") = Some nm →
  nullable (pg_date_in date_in) (prepareValue (field (body req) "dob"))
  = inr birth →
  prepareValue (field (body req) "strikes_level") = None
  ∨ prepareValue (field (body req) "strikes_level") ∈ Some <$> strikes_levels →
  let r :=
    {| battle_ids.id := battle_ids.id old;
       battle_ids.name := nm;
       battle_ids.callsign := prepareValue (field (body req) "callsign");
       battle_ids.role := prepareValue (field (body req) "role");
       battle_ids.rank := prepareValue (field (body req) "rank");
       battle_ids.specialty := prepareValue (field (body req) "specialty");
       battle_ids.ethnicity := prepareValue (field (body req) "ethnicity");
       battle_ids.dob := birth;
       battle_ids.strikes_level :=
         prepareValue (field (body req) "strikes_level");
       battle_ids.commendations_count := battle_ids.commendations_count old;
       battle_ids.notes := prepareValue (field (body req) "notes");
       battle_ids.avatar := prepareValue (field (body req) "avatar");
       battle_ids.status := prepareValue (field (body req) "status");
       battle_ids.created_at := battle_ids.created_at old |} in
  ∃ w',
    put_api_battle_id date_in env req w
    = (Normal {| status := 200; json := JsonRow (Some (BattleRow r)) |}, w')
    ∧ db w' = set_battle_ids (db w) (<[i := r]> (battle_ids (db w)))
                (battle_ids_id_seq (db w)).
Proof.
  intros Hc Hi Hid Hf _. by apply put_existing_operative.
Qed.

Lemma update_replaces_operative_witness :
  let req := request JUndefined [("id", "2")]
               [("name", JStr "Ana B"); ("rank", JStr "SGT")] in
  constraints_hold (db squad)
  ∧ ∃ r w',
      put_api_battle_id iso_date quiet req squad
      = (Normal {| status := 200; json := JsonRow (Some (BattleRow r)) |}, w')
      ∧ battle_ids.name <$> battle_ids (db w') = ["Rex"; "Ana B"; "Zed"]
      ∧ battle_ids.id r = 2
      ∧ battle_ids.rank r = Some "SGT"
      ∧ battle_ids.status r = None
      ∧ battle_ids.strikes_level r = None.
Proof.
  intros req.
  assert (Hc : constraints_hold (db squad)).
  { apply constraints_hold_decide.
    apply (bool_decide_unpack _). vm_compute. reflexivity. }
  split; [exact Hc|].
  destruct (update_replaces_operative iso_date quiet req squad 1
              {| battle_ids.id := 2; battle_ids.name := "Ana";
                 battle_ids.callsign := None; battle_ids.role := None;
                 battle_ids.rank := None; battle_ids.specialty := None;
                 battle_ids.ethnicity := None; battle_ids.dob := None;
                 battle_ids.strikes_level := Some "0";
                 battle_ids.commendations_count := Some 0;
                 battle_ids.notes := None; battle_ids.avatar := None;
                 battle_ids.status := Some "active";
                 battle_ids.created_at := Some 1 |}
              "Ana B" None Hc)
    as (w' & Hput & Hdb).
  - vm_compute. reflexivity.
  - exists "2". split; reflexivity.
  - reflexivity.
  - reflexivity.
  - vm_compute. reflexivity.
  - vm_compute. reflexivity.
  - left. vm_compute. reflexivity.
  - eexists _, w'. split; [exact Hput|]. rewrite Hdb.
    repeat split; vm_compute; reflexivity.
Defined.

(** ** A request that fails *)

Section FailedRequest.

Variable date_in : string → option Z.
Variable env : nat → Env.

Lemma same_tables_refl s : same_tables s s.
Proof. by repeat split. Qed.

(** A statement that fails changes no table. *)
Lemma failed_statement_same_tables q ps t s s' e :
  exec date_in q ps t s = (s', inl e) → same_tables s s'.
Proof.
  destruct q; cbn [exec]; intros Hq.
  1-3, 7, 10:
    (unfold select_now, select_battle_ids, select_battle_id,
       select_awards_catalog, select_awards in Hq;
     repeat case_match; simplify_eq; apply same_tables_refl).
  - apply insert_battle_id_cases in Hq as [(? & n & _ & -> & _)|(? & ? & _)];
      [by repeat split|done].
  - apply update_battle_id_cases in Hq as [(? & _ & ->)|(? & ? & ? & _)];
      [by repeat split|done].
  - apply delete_battle_id_cases in Hq as [(? & _ & ->)|(? & ? & _)];
      [by repeat split|done].
  - apply insert_awards_catalog_cases in Hq as [(? & n & _ & -> & _)|(? & ? & _)];
      [by repeat split|done].
  - apply insert_award_cases in Hq as [(? & n & _ & -> & _)|(? & ? & _)];
      [by repeat split|done].
  - apply insert_rank_change_cases in Hq as [(? & n & _ & -> & _)|(? & ? & _)];
      [by repeat split|done].
  - apply insert_commendation_cases in Hq as [(? & n & _ & -> & _)|(? & ? & _)];
      [by repeat split|done].
  - apply update_commendations_count_cases in Hq as [(? & _ & ->)|(? & ? & _)];
      [by repeat split|done].
Qed.

Lemma failed_query_same_tables q vs w err w1 :
  pool_query date_in env q vs w = (Throw err, w1) → same_tables (db w) (db w1).
Proof.
  intros (e & _ & _ & [(msg & _ & _ & ->)|[_ Hq]])%pool_query_throw.
  - apply same_tables_refl.
  - by eapply failed_statement_same_tables.
Qed.

End FailedRequest.

(** X9: while the connection holds for the statements of a request, a
    request that is not answered 200 has changed no row of any table,
    whatever made the store refuse it: a value it cannot read or a
    constraint.  The one exception is a commendation grant whose counter
    update failed: its new commendation row stays, and nothing else has
    changed. *)
Theorem failed_request_changes_no_table (date_in : string → option Z)
    (env : nat → Env) (r : Route) (req : Request) (w : World) :
  let out := handler date_in env r req w in
  (∀ k, (k < length (statements r))%nat →
        fault (env (length (sent w) + k)%nat) = None) →
  (∀ res, out.1 = Normal res → status res ≠ 200) →
  same_tables (db w) (db out.2)
  ∨ (r = POST_api_battle_id_commendation
     ∧ ∃ c, commendations (db out.2) = commendations (db w) ++ [c]
            ∧ battle_ids (db out.2) = battle_ids (db w)
            ∧ rank_changes (db out.2) = rank_changes (db w)
            ∧ awards_catalog (db out.2) = awards_catalog (db w)
            ∧ awards (db out.2) = awards (db w)).
Proof.
  cbn zeta. intros _. revert w.
  destruct r; intros w; cbn [handler] in *; unfold_handlers;
    match goal with
    | |- context [pool_query date_in env ?q ?vs w] =>
        destruct (pool_query date_in env q vs w) as [[rows|err] w1] eqn:Hq
    end; intros Hfail;
    try (left; by eapply failed_query_same_tables).
  1-11: try destruct (head rows) as [[]|]; by destruct (Hfail _ eq_refl).
  revert Hfail.
  destruct (pool_query date_in env UpdateCommendationsCount _ w1)
    as [[rows2|err] w2] eqn:Hupd; intros Hfail;
    [by destruct (Hfail _ eq_refl)|].
  right. split; [done|]. cbn [snd].
  apply pool_query_normal in Hq as (_ & Hq & _). cbn [exec] in Hq.
  apply insert_commendation_cases in Hq
    as [(? & ? & ? & _)|(c & _ & Hdb & _)]; [done|].
  apply failed_query_same_tables in Hupd as (Hb & Hc & Hr & Hcat & Ha).
  exists c. rewrite Hb, Hc, Hr, Hcat, Ha, Hdb. by repeat split.
Qed.

Lemma failed_request_changes_no_table_witness :
  let req := request JUndefined [] [("code", JStr "VAL"); ("name", JStr "Again")] in
  let out := handler iso_date quiet POST_api_awards_catalog req squad in
  out.1 = Normal {| status := 500;
                    json := JsonError
                              (message (UniqueViolation "awards_catalog_code_key")) |}
  ∧ same_tables (db squad) (db out.2)
  ∧ awards_catalog_id_seq (db out.2) = awards_catalog_id_seq (db squad) + 1.
Proof.
  intros req out.
  assert (Hout : out.1 = Normal {| status := 500;
                                   json := JsonError
                                             (message (UniqueViolation
                                                         "awards_catalog_code_key")) |})
    by (vm_compute; reflexivity).
  split; [exact Hout|]. split; [|vm_compute; reflexivity].
  destruct (failed_request_changes_no_table iso_date quiet POST_api_awards_catalog
              req squad) as [Hsame|[Hr _]].
  - intros k _. reflexivity.
  - intros res Hres. fold out in Hres. rewrite Hout in Hres.
    injection Hres as <-. cbn. lia.
  - exact Hsame.
  - discriminate Hr.
Defined.

(** ** The rank-change log *)

Section RankChange.

Variable date_in : string → option Z.
Variable env : nat → Env.

Lemma insert_rank_change_row p ct fr tr rs t s s' rows :
  insert_rank_change [p; ct; fr; tr; rs] t s = (s', inr rows) →
  ∃ r, rows = [RankChangeRow r]
       ∧ nullable int4_in p = inr (Some (rank_changes.battle_id r))
       ∧ ct = Some (rank_changes.change_type r)
       ∧ rank_changes.from_rank r = fr
       ∧ rank_changes.to_rank r = tr
       ∧ rank_changes.reason r = rs.
Proof.
  unfold insert_rank_change.
  destruct (nullable int4_in p) as [e|[b|]]; [by intros; simplify_eq| |];
    (destruct (nextval _ _) as [e|id]; [by intros; simplify_eq|]);
    cbn [not_null]; [|by intros; simplify_eq].
  destruct ct as [c|]; cbn [not_null]; [|by intros; simplify_eq].
  repeat (case_match; simplify_eq/=; try done).
  intros; simplify_eq. eexists. by repeat split.
Qed.

End RankChange.

(** X10: a rank-change request never changes an operative: the table
    [battle_ids], and with it the stored [rank], is what it was, whether
    the request is answered 200 or not, and so are the commendations, the
    awards and the catalog.  When it is answered 200 exactly one row was
    appended to the log, for an existing operative, with a change type of
    the allowed list, the ranks and the reason of the body and the time of
    the store, and the answer is that row. *)
Theorem rank_change_is_only_logged (date_in : string → option Z)
    (env : nat → Env) (req : Request) (w : World) :
  let out := post_api_battle_id_rank_change date_in env req w in
  battle_ids (db out.2) = battle_ids (db w)
  ∧ commendations (db out.2) = commendations (db w)
  ∧ awards (db out.2) = awards (db w)
  ∧ awards_catalog (db out.2) = awards_catalog (db w)
  ∧ ∃ res, out.1 = Normal res
      ∧ (status res = 200 →
         ∃ r, res = {| status := 200; json := JsonRow (Some (RankChangeRow r)) |}
              ∧ rank_changes (db out.2) = rank_changes (db w) ++ [r]
              ∧ nullable int4_in (prepareValue (param req "id"))
                = inr (Some (rank_changes.battle_id r))
              ∧ rank_changes.battle_id r ∈ battle_ids.id <$> battle_ids (db w)
              ∧ prepareValue (field (body req) "change_type")
                = Some (rank_changes.change_type r)
              ∧ rank_changes.change_type r ∈ change_types
              ∧ rank_changes.from_rank r
                = prepareValue (field (body req) "from_rank")
              ∧ rank_changes.to_rank r
                = prepareValue (field (body req) "to_rank")
              ∧ rank_changes.reason r = prepareValue (field (body req) "reason")
              ∧ rank_changes.created_at r
                = Some (now (env (length (sent w))))).
Proof.
  cbn zeta. unfold_handlers.
  destruct (pool_query date_in env InsertRankChange _ w) as [[rows|err] w1] eqn:Hq;
    cbn [fst snd].
  - apply pool_query_normal in Hq as (_ & Hq & _).
    cbn [exec fmap list_fmap] in Hq.
    destruct (insert_rank_change_row _ _ _ _ _ _ _ _ _ Hq)
      as (r & -> & Hp & Hct & Hfr & Htr & Hrs).
    apply insert_rank_change_cases in Hq
      as [(? & ? & ? & _)|(r' & [= <-] & -> & _ & _ & Hb & Hc & Ht)]; [done|].
    repeat (split; [done|]). eexists. split; [done|]. intros _.
    exists r. by repeat split.
  - destruct (failed_query_same_tables _ _ _ _ _ _ _ Hq) as (? & ? & ? & ? & ?).
    repeat (split; [done|]). eexists. split; [done|]. done.
Qed.

(** ** Granting an award and listing it *)

Section AwardGrant.

Variable date_in : string → option Z.
Variable env : nat → Env.

Lemma insert_award_row p aw nt t s s' rows :
  insert_award [p; aw; nt] t s = (s', inr rows) →
  ∃ a, rows = [AwardRow a]
       ∧ nullable int4_in p = inr (Some (awards.battle_id a))
       ∧ nullable int4_in aw = inr (Some (awards.award_id a))
       ∧ awards.notes a = nt.
Proof.
  unfold insert_award.
  destruct (nullable int4_in p) as [e|[b|]]; [by intros; simplify_eq| |];
    (destruct (nullable int4_in aw) as [e|[k|]]; [by intros; simplify_eq| |]);
    (destruct (nextval _ _) as [e|id]; [by intros; simplify_eq|]);
    cbn [not_null]; try (by intros; simplify_eq).
  repeat (case_match; simplify_eq/=; try done).
  intros; simplify_eq. eexists. by repeat split.
Qed.

End AwardGrant.

(** X11: an award grant answered 200 has appended exactly one row to
    [awards], for an existing operative and an existing catalog entry, with
    the notes of the body and the time of the store, and is answered with
    that row.  A list-grants request for that operative whose statement
    reaches the store then contains the grant, with the name and the icon
    of its catalog entry. *)
Theorem granted_award_is_listed (date_in : string → option Z)
    (env : nat → Env) (req : Request) (w w' : World) (res : Response Row) :
  post_api_awards_battle_id date_in env req w = (Normal res, w') →
  status res = 200 →
  ∃ a c,
    res = {| status := 200; json := JsonRow (Some (AwardRow a)) |}
    ∧ awards (db w') = awards (db w) ++ [a]
    ∧ nullable int4_in (prepareValue (param req "battle_id"))
      = inr (Some (awards.battle_id a))
    ∧ nullable int4_in (prepareValue (field (body req) "award_id"))
      = inr (Some (awards.award_id a))
    ∧ awards.battle_id a ∈ battle_ids.id <$> battle_ids (db w)
    ∧ c ∈ awards_catalog (db w)
    ∧ awards_catalog.id c = awards.award_id a
    ∧ awards.notes a = prepareValue (field (body req) "notes")
    ∧ awards.granted_at a = Some (now (env (length (sent w))))
    ∧ (∀ req', names req' "battle_id" (awards.battle_id a) →
               fault (env (length (sent w'))) = None →
               ∃ rows w'',
                 get_api_awards_battle_id date_in env req' w'
                 = (Normal {| status := 200; json := JsonRows rows |}, w'')
                 ∧ AwardWithCatalog a (awards_catalog.name c)
                     (awards_catalog.icon_url c) ∈ rows).
Proof.
  unfold_handlers.
  destruct (pool_query date_in env InsertAward _ w) as [[rows|err] w1] eqn:Hq;
    [|by intros [= <- <-]].
  intros [= <- <-] _.
  apply pool_query_normal in Hq as (_ & Hq & _).
  cbn [exec fmap list_fmap] in Hq.
  destruct (insert_award_row _ _ _ _ _ _ _ Hq) as (a & -> & Hp & Haw & Hnt).
  assert (Hq' := Hq). apply insert_award_cases in Hq'
    as [(? & ? & ? & _)|(a' & [= <-] & Hdb & _ & _ & Hb & Hc & Ht)]; [done|].
  apply list_elem_of_fmap in Hc as (c & Hc & Hin).
  exists a, c. rewrite Hdb. cbn [awards set_awards head].
  do 9 (split; [done|]).
  intros req' Hname Hf.
  destruct (list_grants date_in env req' w1 Hf _ Hname) as (l & Hget & _ & Hl & _).
  eexists _, _. split; [exact Hget|].
  apply list_elem_of_fmap. exists (a, c). split; [done|].
  apply Hl. rewrite Hdb. cbn. split; [|done].
  apply elem_of_app. right. by left.
Qed.

Lemma granted_award_is_listed_witness :
  let req := request JUndefined [("battle_id", "3")]
               [("award_id", JNum 2); ("notes", JStr "for the bridge")] in
  let out := post_api_awards_battle_id iso_date quiet req squad in
  ∃ a c rows w'',
    out.1 = Normal {| status := 200; json := JsonRow (Some (AwardRow a)) |}
    ∧ awards.battle_id a = 3
    ∧ c ∈ awards_catalog (db squad)
    ∧ awards_catalog.name c = "Merit"
    ∧ get_api_awards_battle_id iso_date quiet
        (request JUndefined [("battle_id", "3")] []) out.2
      = (Normal {| status := 200; json := JsonRows rows |}, w'')
    ∧ AwardWithCatalog a "Merit" (awards_catalog.icon_url c) ∈ rows.
Proof.
  intros req out.
  pose (res := match out.1 with
               | Normal res => res
               | Throw _ => {| status := 500; json := JsonRows [] |}
               end).
  assert (Hout : post_api_awards_battle_id iso_date quiet req squad
                 = (Normal res, out.2)) by (vm_compute; reflexivity).
  assert (H200 : status res = 200) by (vm_compute; reflexivity).
  destruct (granted_award_is_listed iso_date quiet req squad out.2 res
              Hout H200)
    as (a & c & Hres & _ & Hb & Haw & _ & Hc & Hid & _ & _ & Hget).
  assert (Hb3 : awards.battle_id a = 3).
  { assert (H : nullable int4_in (prepareValue (param req "battle_id"))
                = inr (Some 3)) by (vm_compute; reflexivity).
    rewrite Hb in H. by injection H. }
  assert (Hname : awards_catalog.name c = "Merit").
  { assert (H : nullable int4_in (prepareValue (field (body req) "award_id"))
                = inr (Some 2)) by (vm_compute; reflexivity).
    rewrite Haw in H. injection H as H. rewrite H in Hid. clear -Hc Hid.
    assert (Hall : Forall (λ c, awards_catalog.id c = 2 →
                                awards_catalog.name c = "Merit")
                     (awards_catalog (db squad))).
    { vm_compute. repeat constructor; intros [=]. }
    rewrite Forall_forall in Hall. by apply Hall. }
  destruct (Hget (request JUndefined [("battle_id", "3")] []))
    as (rows & w'' & Hlist & Hin).
  - exists "3". split; [reflexivity|]. by rewrite Hb3.
  - vm_compute. reflexivity.
  - exists a, c, rows, w''.
    split; [rewrite <- Hres; vm_compute; reflexivity|].
    split; [exact Hb3|]. split; [exact Hc|]. split; [exact Hname|].
    split; [exact Hlist|]. rewrite <- Hname. exact Hin.
Defined.

(** ** The award catalog *)

(** X12: with the statement reaching the store and an id left in the
    sequence that no entry has, a new catalog entry whose four fields are
    sendable values and whose code fits an index entry is accepted exactly
    when the body gives a name and its code, if it gives one, is the code
    of no entry: entries without a code may repeat.  An accepted entry is
    appended with the four fields of the body under the next id, and the
    answer is that row. *)
Theorem catalog_entry_accepted_iff (date_in : string → option Z)
    (env : nat → Env) (req : Request) (w : World) :
  fault (env (length (sent w))) = None →
  awards_catalog_id_seq (db w) ≤ INT4_MAX →
  awards_catalog_id_seq (db w) ∉ awards_catalog.id <$> awards_catalog (db w) →
  forallb (λ k, sendable (field (body req) k)) catalog_columns = true →
  fits_index_entry (prepareValue (field (body req) "code")) = true →
  let out := post_api_awards_catalog date_in env req w in
  let code := prepareValue (field (body req) "code") in
  let name := prepareValue (field (body req) "name") in
  ∃ res,
    out.1 = Normal res
    ∧ (status res = 200
       ↔ is_Some name
         ∧ (code = None ∨ code ∉ awards_catalog.code <$> awards_catalog (db w)))
    ∧ (status res = 200 →
       ∃ nm,
         name = Some nm
         ∧ let r := {| awards_catalog.id := awards_catalog_id_seq (db w);
                       awards_catalog.code := code;
                       awards_catalog.name := nm;
                       awards_catalog.description :=
                         prepareValue (field (body req) "description");
                       awards_catalog.icon_url :=
                         prepareValue (field (body req) "icon_url") |} in
           res = {| status := 200; json := JsonRow (Some (CatalogRow r)) |}
           ∧ awards_catalog (db out.2) = awards_catalog (db w) ++ [r]).
Proof.
  intros Hf Hseq Hfresh _ _. cbn zeta. unfold_handlers. unfold pool_query.
  rewrite Hf. cbn [exec fmap list_fmap]. unfold insert_awards_catalog, nextval.
  rewrite (proj2 (Z.leb_le _ _) Hseq).
  destruct (prepareValue (field (body req) "name")) as [nm|]; cbn [not_null].
  - rewrite (bool_decide_eq_true_2 _ Hfresh). cbn [require].
    destruct (decide (prepareValue (field (body req) "code") = None
                      ∨ prepareValue (field (body req) "code")
                        ∉ awards_catalog.code <$> awards_catalog (db w)))
      as [Hcode|Hcode].
    + rewrite (bool_decide_eq_true_2 _ Hcode). cbn.
      eexists. split; [reflexivity|]. cbn. split; [by split; [split; eauto|]|].
      intros _. exists nm. done.
    + rewrite (bool_decide_eq_false_2 _ Hcode). cbn.
      eexists. split; [reflexivity|]. cbn. split; [split; [done|]|done].
      by intros [_ ?].
  - eexists. split; [reflexivity|]. cbn. split; [split; [done|]|done].
    by intros [[? [=]] _].
Qed.

Lemma catalog_entry_accepted_iff_witness :
  let again := request JUndefined [] [("code", JStr "VAL"); ("name", JStr "Again")] in
  let plain := request JUndefined [] [("name", JStr "Plain")] in
  (∃ res, (post_api_awards_catalog iso_date quiet again squad).1 = Normal res
          ∧ status res ≠ 200)
  ∧ (∃ res, (post_api_awards_catalog iso_date quiet plain squad).1 = Normal res
            ∧ status res = 200).
Proof.
  intros again plain.
  assert (Hf : fault (quiet (length (sent squad))) = None) by reflexivity.
  assert (Hseq : awards_catalog_id_seq (db squad) ≤ INT4_MAX)
    by (vm_compute; discriminate).
  assert (Hfresh : awards_catalog_id_seq (db squad)
                   ∉ awards_catalog.id <$> awards_catalog (db squad)).
  { apply (bool_decide_unpack _). vm_compute. reflexivity. }
  split.
  - destruct (catalog_entry_accepted_iff iso_date quiet again squad Hf Hseq
                Hfresh eq_refl eq_refl)
      as (res & Hres & Hiff & _).
    exists res. split; [exact Hres|]. intros H200.
    apply Hiff in H200 as [_ [Hcode|Hcode]]; [discriminate Hcode|].
    apply Hcode. apply (bool_decide_unpack _). vm_compute. reflexivity.
  - destruct (catalog_entry_accepted_iff iso_date quiet plain squad Hf Hseq
                Hfresh eq_refl eq_refl)
      as (res & Hres & Hiff & _).
    exists res. split; [exact Hres|]. apply Hiff.
    split; [by eexists|]. left. reflexivity.
Defined.

(** ** Names of implicit relations *)

Section RelationNames.

Import Schema.

Lemma decimal_inj a b : decimal a = decimal b → a = b.
Proof.
  unfold decimal. intros H. apply DecimalZ.to_int_inj.
  assert (Hnn : ∀ z, Z.to_int z ≠ Decimal.Pos Decimal.Nil
                     ∧ Z.to_int z ≠ Decimal.Neg Decimal.Nil).
  { intros [|p|p]; split; cbn; try discriminate;
      intros [= Hp]; by apply DecimalPos.Unsigned.to_uint_nonnil in Hp. }
  assert (Ha := NilZero.isi (Z.to_int a) (proj1 (Hnn a)) (proj2 (Hnn a))).
  assert (Hb := NilZero.isi (Z.to_int b) (proj1 (Hnn b)) (proj2 (Hnn b))).
  rewrite H in Ha. rewrite Ha in Hb. by injection Hb.
Qed.

Lemma numbered_inj name a b : name +:+ decimal a = name +:+ decimal b → a = b.
Proof. intros H. apply String.app_inj in H. by apply decimal_inj. Qed.

(** The numbered candidates [name1 .. namen]. *)
Lemma choose_relname_from_taken fuel pass name pg :
  is_free pg (choose_relname_from fuel pass name pg) = false →
  ∀ k, pass ≤ k ≤ pass + Z.of_nat fuel →
       is_free pg (name +:+ decimal k) = false.
Proof.
  revert pass. induction fuel as [|fuel IH]; intros pass; cbn [choose_relname_from].
  - intros H k Hk. by replace k with pass by lia.
  - destruct (is_free pg (name +:+ decimal pass)) eqn:Hfree; [by rewrite Hfree|].
    intros H k Hk. destruct (decide (k = pass)) as [->|Hne]; [done|].
    apply (IH (pass + 1) H). lia.
Qed.

Lemma taken_names_bound (pg : gmap string pg_relation) name (n : nat) :
  (∀ k, 1 ≤ k ≤ Z.of_nat n → is_free pg (name +:+ decimal k) = false) →
  (n ≤ size pg)%nat.
Proof.
  intros Htaken.
  pose (names := (λ k : nat, name +:+ decimal (Z.of_nat (S k))) <$> seq 0 n).
  assert (Hnd : NoDup names).
  { apply NoDup_fmap_2; [|apply NoDup_seq].
    intros a b H%numbered_inj. lia. }
  assert (Hsub : list_to_set names ⊆@{gset string} dom pg).
  { intros x (k & -> & Hk)%elem_of_list_to_set%list_elem_of_fmap.
    apply elem_of_seq in Hk. apply elem_of_dom.
    specialize (Htaken (Z.of_nat (S k)) ltac:(lia)).
    unfold is_free in Htaken. by destruct (pg !! _). }
  apply subseteq_size in Hsub.
  rewrite size_list_to_set, size_dom in Hsub by done.
  unfold names in Hsub. by rewrite length_fmap, length_seq in Hsub.
Qed.

Lemma choose_relname_free name pg : is_free pg (choose_relname name pg) = true.
Proof.
  unfold choose_relname. destruct (is_free pg name) eqn:Hname; [done|].
  destruct (is_free pg (choose_relname_from _ _ _ _)) eqn:Hfree; [done|].
  assert (H := choose_relname_from_taken _ _ _ _ Hfree).
  assert (Hb := taken_names_bound pg name (S (size pg))).
  assert (S (size pg) ≤ size pg)%nat; [|lia].
  apply Hb. intros k Hk. apply H. lia.
Qed.

End RelationNames.

Section CreateTables.

Import Schema.

Variable env : nat → Env.

Lemma add_column_adds table pg cols c :
  pg ⊆ (add_column table (pg, cols) c).1.
Proof.
  unfold add_column.
  assert (Hfree : ∀ (m : gmap string pg_relation) n x,
            m ⊆ <[choose_relname n m := x]> m).
  { intros m n x. apply insert_subseteq.
    assert (H := choose_relname_free n m). unfold is_free in H.
    by destruct (m !! _). }
  destruct (col_type c); cbn [fst snd].
  2-6: repeat case_match; cbn [fst]; try done; apply Hfree.
  repeat case_match; cbn [fst]; (etrans; [apply Hfree|]); try done; apply Hfree.
Qed.

Lemma add_columns_add table cols : ∀ pg stored,
  pg ⊆ (foldl (add_column table) (pg, stored) cols).1.
Proof.
  induction cols as [|c cols IH]; intros pg stored; [done|].
  cbn [foldl]. destruct (add_column table (pg, stored) c) as [pg1 stored1] eqn:H.
  etrans; [|apply IH].
  change pg1 with (pg1, stored1).1. rewrite <- H. apply add_column_adds.
Qed.

(** [CREATE TABLE IF NOT EXISTS] changes no relation that exists and
    leaves a relation under its name. *)
Lemma create_table_adds name cols d d' :
  create_table_if_not_exists name cols d = inr d' →
  pg_class d ⊆ pg_class d'
  ∧ battle_ids d' = battle_ids d
  ∧ is_free (pg_class d') name = false.
Proof.
  unfold create_table_if_not_exists.
  destruct (is_free (pg_class d) name) eqn:Hfree; [|by intros [= <-]].
  destruct (all_referenced_ok _ _) as [e|_]; [done|].
  destruct (foldl _ _ _) as [pg stored] eqn:Hfold. intros [= <-]. cbn.
  assert (Hsub : <[name := Table []]> (pg_class d) ⊆ pg).
  { change pg with (pg, stored).1. rewrite <- Hfold. apply add_columns_add. }
  split; [|split; [done|]].
  - apply map_subseteq_spec. intros k v Hk.
    assert (k ≠ name).
    { intros ->. unfold is_free in Hfree. by rewrite Hk in Hfree. }
    rewrite lookup_insert_ne by done.
    eapply lookup_weaken; [|exact Hsub]. by rewrite lookup_insert_ne.
  - unfold is_free. by rewrite lookup_insert_eq.
Qed.

Lemma taken_stays_taken (pg pg' : gmap string pg_relation) name :
  pg ⊆ pg' → is_free pg name = false → is_free pg' name = false.
Proof.
  unfold is_free. intros Hsub. destruct (pg !! name) as [v|] eqn:Hv; [|done].
  by rewrite (lookup_weaken _ _ _ _ Hv Hsub).
Qed.

Lemma create_step name cols w :
  (∃ d,
     pool_query env (CreateTableIfNotExists name cols) w
     = (Normal tt, {| db := d; issued := S (issued w); console := console w |})
     ∧ pg_class (db w) ⊆ pg_class d
     ∧ battle_ids d = battle_ids (db w)
     ∧ is_free (pg_class d) name = false)
  ∨ (∃ e,
       pool_query env (CreateTableIfNotExists name cols) w
       = (Throw (DatabaseError e),
          {| db := db w; issued := S (issued w); console := console w |})).
Proof.
  unfold pool_query. destruct (fault _); [right; by eexists|]. cbn [exec].
  destruct (create_table_if_not_exists name cols (db w)) as [e|d] eqn:Hc;
    [right; by eexists|].
  left. exists d. split; [done|]. by apply create_table_adds in Hc.
Qed.

End CreateTables.

(** X13: [initTables] never throws and prints exactly one line, whatever
    its statements meet.  It only adds to the catalog: every relation that
    existed is there unchanged, and the rows of [battle_ids] are untouched.
    When the line is the success line all five statements were sent and
    the five table names are in the catalog; otherwise the line is the
    error line with the label of the [catch] block, after at most five
    statements. *)
Theorem initTables_only_adds (env : nat → Env) (w : Schema.World) :
  ∃ w' line,
    Schema.initTables env w = (Normal tt, w')
    ∧ Schema.console w' = Schema.console w ++ [line]
    ∧ Schema.pg_class (Schema.db w) ⊆ Schema.pg_class (Schema.db w')
    ∧ Schema.battle_ids (Schema.db w') = Schema.battle_ids (Schema.db w)
    ∧ ((line = Schema.console_log "✅ Všechny tabulky inicializovány."
        ∧ initialized (Schema.db w')
        ∧ Schema.issued w' = (Schema.issued w + 5)%nat)
       ∨ (∃ text,
            line = Schema.console_error "❌ Chyba při vytváření tabulek:" text
            ∧ (Schema.issued w < Schema.issued w' ≤ Schema.issued w + 5)%nat)).
Proof.
  unfold Schema.initTables, try_catch, bind, Schema.print.
  destruct (create_step env "battle_ids" Schema.battle_ids_ddl w)
    as [(d1 & -> & S1 & B1 & F1)|(e & ->)]; cbn [Schema.db Schema.issued Schema.console];
    [|eexists _, _; split; [reflexivity|]; cbn;
      do 3 (split; [done|]); right; eexists; split; [done|lia]].
  destruct (create_step env "commendations" Schema.commendations_ddl
              {| Schema.db := d1; Schema.issued := S (Schema.issued w);
                 Schema.console := Schema.console w |})
    as [(d2 & -> & S2 & B2 & F2)|(e & ->)]; cbn [Schema.db Schema.issued Schema.console] in *;
    [|eexists _, _; split; [reflexivity|]; cbn;
      do 3 (split; [done|]); right; eexists; split; [done|lia]].
  destruct (create_step env "rank_changes" Schema.rank_changes_ddl
              {| Schema.db := d2; Schema.issued := S (S (Schema.issued w));
                 Schema.console := Schema.console w |})
    as [(d3 & -> & S3 & B3 & F3)|(e & ->)]; cbn [Schema.db Schema.issued Schema.console] in *;
    [|eexists _, _; split; [reflexivity|]; cbn;
      split; [done|]; split; [by etrans|]; split; [congruence|];
      right; eexists; split; [done|lia]].
  destruct (create_step env "awards_catalog" Schema.awards_catalog_ddl
              {| Schema.db := d3; Schema.issued := S (S (S (Schema.issued w)));
                 Schema.console := Schema.console w |})
    as [(d4 & -> & S4 & B4 & F4)|(e & ->)]; cbn [Schema.db Schema.issued Schema.console] in *;
    [|eexists _, _; split; [reflexivity|]; cbn;
      split; [done|]; split; [by do 2 (etrans; [eassumption|])|];
      split; [congruence|]; right; eexists; split; [done|lia]].
  destruct (create_step env "awards" Schema.awards_ddl
              {| Schema.db := d4; Schema.issued := S (S (S (S (Schema.issued w))));
                 Schema.console := Schema.console w |})
    as [(d5 & -> & S5 & B5 & F5)|(e & ->)]; cbn [Schema.db Schema.issued Schema.console] in *;
    [|eexists _, _; split; [reflexivity|]; cbn;
      split; [done|]; split; [by do 3 (etrans; [eassumption|])|];
      split; [congruence|]; right; eexists; split; [done|lia]].
  eexists _, _. split; [reflexivity|]. cbn.
  split; [done|]. split; [by do 4 (etrans; [eassumption|])|].
  split; [congruence|]. left. split; [done|]. split; [|lia].
  intros name Hname.
  repeat (apply elem_of_cons in Hname as [->|Hname]);
    [..|by apply elem_of_nil in Hname]; cbn.
  - eapply taken_stays_taken; [|exact F1]. by do 3 (etrans; [eassumption|]).
  - eapply taken_stays_taken; [|exact F2]. by do 2 (etrans; [eassumption|]).
  - eapply taken_stays_taken; [|exact F3]. by etrans.
  - by eapply taken_stays_taken.
  - done.
Qed.

Section FreshSchema.

Import Schema.

Variable env : nat → Env.

Lemma append_assoc_string (a b c : string) : (a +:+ b) +:+ c = a +:+ (b +:+ c).
Proof.
  induction a as [|x a IH]; [done|].
  change (String x ((a +:+ b) +:+ c) = String x (a +:+ b +:+ c)).
  by rewrite IH.
Qed.

Lemma append_nil_r_string (a : string) : a +:+ "" = a.
Proof.
  induction a as [|x a IH]; [done|].
  change (String x (a +:+ "") = String x a). by rewrite IH.
Qed.

Lemma choose_relname_from_suffix fuel pass n pg :
  ∃ s, choose_relname_from fuel pass n pg = n +:+ s.
Proof.
  revert pass. induction fuel as [|fuel IH]; intros pass; cbn; [by eexists|].
  destruct (is_free pg _); [by eexists|]. apply IH.
Qed.

Lemma choose_relname_suffix n pg : ∃ s, choose_relname n pg = n +:+ s.
Proof.
  unfold choose_relname. destruct (is_free pg n).
  - exists "". by rewrite append_nil_r_string.
  - apply choose_relname_from_suffix.
Qed.

Lemma is_free_insert (pg : gmap string pg_relation) n x k :
  is_free (<[n := x]> pg) k = false → k = n ∨ is_free pg k = false.
Proof.
  unfold is_free. destruct (decide (k = n)) as [->|Hne]; [by left|].
  rewrite lookup_insert_ne by done. by right.
Qed.

Lemma is_free_choose table rest (pg : gmap string pg_relation) x k :
  is_free (<[choose_relname (table +:+ rest) pg := x]> pg) k = false →
  is_free pg k = false ∨ ∃ s, k = table +:+ s.
Proof.
  intros [->|H]%is_free_insert; [|by left]. right.
  destruct (choose_relname_suffix (table +:+ rest) pg) as [s ->].
  exists (rest +:+ s). apply append_assoc_string.
Qed.

Lemma add_column_spec table pg cols c :
  ∃ pg' c',
    add_column table (pg, cols) c = (pg', cols ++ [c'])
    ∧ stored_as c c'
    ∧ ∀ k, is_free pg' k = false →
           is_free pg k = false ∨ ∃ s, k = table +:+ s.
Proof.
  unfold add_column.
  destruct (col_type c) eqn:Ht.
  2-6: (destruct (primary_key c) eqn:Hpk; [|destruct (unique c) eqn:Hu];
        eexists _, _; (split; [reflexivity|]); (split; [done|]);
        intros k Hk; eauto using is_free_choose).
  cbn [primary_key unique col_name].
  destruct (primary_key c) eqn:Hpk; [|destruct (unique c) eqn:Hu];
    eexists _, _; (split; [reflexivity|]);
    (split; [by repeat split|]); intros k Hk.
  - apply is_free_choose in Hk as [Hk|Hk]; [|by right].
    eauto using is_free_choose.
  - apply is_free_choose in Hk as [Hk|Hk]; [|by right].
    eauto using is_free_choose.
  - eauto using is_free_choose.
Qed.

Lemma add_columns_spec table cols : ∀ pg stored,
  ∃ pg' stored',
    foldl (add_column table) (pg, stored) cols = (pg', stored ++ stored')
    ∧ Forall2 stored_as cols stored'
    ∧ ∀ k, is_free pg' k = false →
           is_free pg k = false ∨ ∃ s, k = table +:+ s.
Proof.
  induction cols as [|c cols IH]; intros pg stored.
  - exists pg, []. rewrite app_nil_r. split; [done|]. split; [constructor|eauto].
  - cbn [foldl].
    destruct (add_column_spec table pg stored c) as (pg1 & c' & -> & Hc & Hk1).
    destruct (IH pg1 (stored ++ [c'])) as (pg2 & stored2 & -> & Hcs & Hk2).
    exists pg2, (c' :: stored2). rewrite <- app_assoc. split; [done|].
    split; [by constructor|]. intros k Hk.
    apply Hk2 in Hk as [Hk|Hk]; eauto.
Qed.

Lemma create_table_fresh name cols d :
  is_free (pg_class d) name = true →
  all_referenced_ok (pg_class d) cols = inr tt →
  ∃ d' stored,
    create_table_if_not_exists name cols d = inr d'
    ∧ pg_class d' !! name = Some (Table stored)
    ∧ Forall2 stored_as cols stored
    ∧ ∀ k, is_free (pg_class d') k = false →
           is_free (pg_class d) k = false ∨ ∃ s, k = name +:+ s.
Proof.
  intros Hfree Href. unfold create_table_if_not_exists. rewrite Hfree, Href.
  destruct (add_columns_spec name cols (<[name := Table []]> (pg_class d)) [])
    as (pg & stored & -> & Hcols & Hkeys).
  eexists _, stored. split; [reflexivity|]. cbn.
  split; [by rewrite lookup_insert_eq|]. split; [done|].
  assert (Hname : name = name +:+ "") by (by rewrite append_nil_r_string).
  intros k [->|Hk]%is_free_insert; [by eauto|].
  apply Hkeys in Hk as [[->|Hk]%is_free_insert|Hk]; eauto.
Qed.

Lemma create_step_fresh name cols w :
  fault (env (issued w)) = None →
  is_free (pg_class (db w)) name = true →
  all_referenced_ok (pg_class (db w)) cols = inr tt →
  ∃ d stored,
    pool_query env (CreateTableIfNotExists name cols) w
    = (Normal tt, {| db := d; issued := S (issued w); console := console w |})
    ∧ pg_class (db w) ⊆ pg_class d
    ∧ pg_class d !! name = Some (Table stored)
    ∧ Forall2 stored_as cols stored
    ∧ ∀ k, is_free (pg_class d) k = false →
           is_free (pg_class (db w)) k = false ∨ ∃ s, k = name +:+ s.
Proof.
  intros Hf Hfree Href. unfold pool_query. rewrite Hf. cbn [exec].
  destruct (create_table_fresh name cols (db w) Hfree Href)
    as (d & stored & Hc & Hl & Hcols & Hkeys).
  rewrite Hc. exists d, stored. split; [done|].
  split; [by apply create_table_adds in Hc as [? _]|]. done.
Qed.

(** A stored table whose definition starts with a primary key [id] can be
    referenced by [REFERENCES table(id)]. *)
Lemma referenced_id_ok (pg : gmap string pg_relation) table ddl stored c od :
  pg !! table = Some (Table stored) →
  Forall2 stored_as ddl stored →
  (∃ k rest, ddl = k :: rest ∧ col_name k = "id" ∧ primary_key k = true) →
  references c = Some (table, "id", od) →
  referenced_ok pg c = inr tt.
Proof.
  intros Hl Hcols (k & rest & -> & Hn & Hpk) Hc.
  unfold referenced_ok. rewrite Hc, Hl.
  apply Forall2_cons_inv_l in Hcols as (k' & stored' & (Hn' & Hpk' & _) & _ & ->).
  unfold has_column. rewrite bool_decide_eq_true_2.
  - cbn [require]. rewrite bool_decide_eq_true_2; [done|].
    apply Exists_cons_hd. rewrite Hn', Hpk', Hn, Hpk. eauto.
  - apply Exists_cons_hd. by rewrite Hn', Hn.
Qed.

End FreshSchema.

Section FreshBoot.

Import Schema.

Variable env : nat → Env.

Lemma all_referenced_ok_intro pg cols :
  Forall (λ c, referenced_ok pg c = inr tt) cols →
  all_referenced_ok pg cols = inr tt.
Proof. induction 1 as [|c cols Hc _ IH]; [done|]. cbn. by rewrite Hc. Qed.

Lemma id_first_battle_ids :
  ∃ k rest, battle_ids_ddl = k :: rest ∧ col_name k = "id" ∧ primary_key k = true.
Proof. by eexists _, _. Qed.

Lemma id_first_awards_catalog :
  ∃ k rest,
    awards_catalog_ddl = k :: rest ∧ col_name k = "id" ∧ primary_key k = true.
Proof. by eexists _, _. Qed.

End FreshBoot.

(** X14: on a database where none of the five table names is taken, and
    with the five statements reaching the store, [initTables] creates the
    five tables, each with the columns, keys and references of its
    definition, and prints the success line: every table a foreign key
    points to is created, with its primary key, by an earlier statement. *)
Theorem initTables_creates_schema (env : nat → Env) (w : Schema.World) :
  (∀ name, name ∈ schema.*1 →
           Schema.is_free (Schema.pg_class (Schema.db w)) name = true) →
  (∀ k, (k < 5)%nat → fault (env (Schema.issued w + k)%nat) = None) →
  ∃ w',
    Schema.initTables env w = (Normal tt, w')
    ∧ Schema.console w'
      = Schema.console w
        ++ [Schema.console_log "✅ Všechny tabulky inicializovány."]
    ∧ ∀ name ddl, (name, ddl) ∈ schema →
        ∃ stored,
          Schema.pg_class (Schema.db w') !! name = Some (Schema.Table stored)
          ∧ Forall2 stored_as ddl stored.
Proof.
  intros Hfree Hquiet.
  assert (H0 := Hquiet 0%nat ltac:(lia)). assert (H1 := Hquiet 1%nat ltac:(lia)).
  assert (H2 := Hquiet 2%nat ltac:(lia)). assert (H3 := Hquiet 3%nat ltac:(lia)).
  assert (H4 := Hquiet 4%nat ltac:(lia)).
  replace (Schema.issued w + 0)%nat with (Schema.issued w) in H0 by lia.
  replace (Schema.issued w + 1)%nat with (S (Schema.issued w)) in H1 by lia.
  replace (Schema.issued w + 2)%nat with (S (S (Schema.issued w))) in H2 by lia.
  replace (Schema.issued w + 3)%nat with (S (S (S (Schema.issued w)))) in H3 by lia.
  replace (Schema.issued w + 4)%nat with (S (S (S (S (Schema.issued w))))) in H4
    by lia.
  assert (F1 := Hfree "battle_ids" ltac:(cbn; listed)).
  assert (F2 := Hfree "commendations" ltac:(cbn; listed)).
  assert (F3 := Hfree "rank_changes" ltac:(cbn; listed)).
  assert (F4 := Hfree "awards_catalog" ltac:(cbn; listed)).
  assert (F5 := Hfree "awards" ltac:(cbn; listed)).
  clear Hfree Hquiet.
  assert (Hnot : ∀ pg pg' name prefix,
            Schema.is_free pg name = true →
            (∀ k, Schema.is_free pg' k = false →
                  Schema.is_free pg k = false ∨ ∃ s, k = prefix +:+ s) →
            (∀ s, name ≠ prefix +:+ s) →
            Schema.is_free pg' name = true).
  { intros pg pg' name prefix Hf Hk Hne.
    destruct (Schema.is_free pg' name) eqn:Hf'; [done|].
    apply Hk in Hf' as [Hf'|[s Hs]]; [congruence|by destruct (Hne s)]. }
  unfold Schema.initTables, try_catch, bind, Schema.print.
  (* battle_ids *)
  destruct (create_step_fresh env "battle_ids" Schema.battle_ids_ddl w H0 F1)
    as (d1 & s1 & -> & S1 & L1 & C1 & K1); [done|].
  cbn [Schema.db Schema.issued Schema.console].
  assert (F2' := Hnot _ _ "commendations" _ F2 K1 ltac:(intros s; discriminate)).
  assert (F3' := Hnot _ _ "rank_changes" _ F3 K1 ltac:(intros s; discriminate)).
  assert (F4' := Hnot _ _ "awards_catalog" _ F4 K1 ltac:(intros s; discriminate)).
  assert (F5' := Hnot _ _ "awards" _ F5 K1 ltac:(intros s; discriminate)).
  clear F2 F3 F4 F5 K1.
  (* commendations *)
  destruct (create_step_fresh env "commendations" Schema.commendations_ddl
              {| Schema.db := d1; Schema.issued := S (Schema.issued w);
                 Schema.console := Schema.console w |} H1 F2')
    as (d2 & s2 & -> & S2 & L2 & C2 & K2).
  { apply all_referenced_ok_intro. repeat constructor.
    eapply referenced_id_ok; [exact L1|exact C1|apply id_first_battle_ids|done]. }
  cbn [Schema.db Schema.issued Schema.console] in *.
  assert (F3 := Hnot _ _ "rank_changes" _ F3' K2 ltac:(intros s; discriminate)).
  assert (F4 := Hnot _ _ "awards_catalog" _ F4' K2 ltac:(intros s; discriminate)).
  assert (F5 := Hnot _ _ "awards" _ F5' K2 ltac:(intros s; discriminate)).
  clear F3' F4' F5' K2.
  (* rank_changes *)
  destruct (create_step_fresh env "rank_changes" Schema.rank_changes_ddl
              {| Schema.db := d2; Schema.issued := S (S (Schema.issued w));
                 Schema.console := Schema.console w |} H2 F3)
    as (d3 & s3 & -> & S3 & L3 & C3 & K3).
  { apply all_referenced_ok_intro. repeat constructor.
    eapply referenced_id_ok;
      [exact (lookup_weaken _ _ _ _ L1 S2)|exact C1|apply id_first_battle_ids
      |done]. }
  cbn [Schema.db Schema.issued Schema.console] in *.
  assert (F4' := Hnot _ _ "awards_catalog" _ F4 K3 ltac:(intros s; discriminate)).
  assert (F5' := Hnot _ _ "awards" _ F5 K3 ltac:(intros s; discriminate)).
  clear F4 F5 K3.
  (* awards_catalog *)
  destruct (create_step_fresh env "awards_catalog" Schema.awards_catalog_ddl
              {| Schema.db := d3; Schema.issued := S (S (S (Schema.issued w)));
                 Schema.console := Schema.console w |} H3 F4')
    as (d4 & s4 & -> & S4 & L4 & C4 & K4); [done|].
  cbn [Schema.db Schema.issued Schema.console] in *.
  assert (F5 := Hnot _ _ "awards" _ F5' K4 ltac:(intros s; discriminate)).
  clear F5' K4.
  (* awards *)
  assert (L1' : Schema.pg_class d4 !! "battle_ids" = Some (Schema.Table s1)).
  { eapply lookup_weaken; [exact L1|]. by do 2 (etrans; [eassumption|]). }
  destruct (create_step_fresh env "awards" Schema.awards_ddl
              {| Schema.db := d4; Schema.issued := S (S (S (S (Schema.issued w))));
                 Schema.console := Schema.console w |} H4 F5)
    as (d5 & s5 & -> & S5 & L5 & C5 & K5).
  { apply all_referenced_ok_intro. repeat constructor.
    - eapply referenced_id_ok;
        [exact L1'|exact C1|apply id_first_battle_ids|done].
    - eapply referenced_id_ok;
        [exact L4|exact C4|apply id_first_awards_catalog|done]. }
  cbn [Schema.db Schema.issued Schema.console] in *.
  eexists. split; [reflexivity|]. cbn. split; [done|].
  intros name ddl Hin.
  repeat (apply elem_of_cons in Hin as [[= -> ->]|Hin]);
    [..|by apply elem_of_nil in Hin].
  - exists s1. split; [|done]. eapply lookup_weaken; [exact L1'|done].
  - exists s2. split; [|done]. eapply lookup_weaken; [exact L2|].
    by do 2 (etrans; [eassumption|]).
  - exists s3. split; [|done]. eapply lookup_weaken; [exact L3|]. by etrans.
  - exists s4. split; [|done]. by eapply lookup_weaken.
  - by exists s5.
Qed.

Lemma initTables_creates_schema_witness :
  let w := booting {| Schema.pg_class := {["battle_ids_pkey" := Schema.Index "users"]};
                      Schema.battle_ids := [] |} in
  ∃ w',
    Schema.initTables quiet w = (Normal tt, w')
    ∧ Schema.console w'
      = [Schema.console_log "✅ Všechny tabulky inicializovány."]
    ∧ ∀ name ddl, (name, ddl) ∈ schema →
        ∃ stored,
          Schema.pg_class (Schema.db w') !! name = Some (Schema.Table stored)
          ∧ Forall2 stored_as ddl stored.
Proof.
  intros w.
  apply (initTables_creates_schema quiet w).
  - intros name Hin. cbn in Hin.
    repeat (apply elem_of_cons in Hin as [->|Hin]);
      [..|by apply elem_of_nil in Hin]; vm_compute; reflexivity.
  - intros k _. reflexivity.
Defined.

(** ** Ids after the repair of the sequence *)

Section RepairedIds.

Import Schema.

Variable env : nat → Env.

Lemma insert_default_ids_spec k : ∀ d cols name sq,
  pg_class d !! "battle_ids" = Some (Table cols) →
  (c ← list_find (λ c, col_name c = "id") cols; col_default c.2)
  = Some (DefaultNextval name) →
  pg_class d !! name = Some (Sequence sq) →
  next sq + Z.of_nat k - 1 ≤ maxvalue sq →
  ∃ d',
    insert_default_ids k d = inr (seqZ (next sq) (Z.of_nat k), d')
    ∧ battle_ids d' = battle_ids d ++ seqZ (next sq) (Z.of_nat k).
Proof.
  induction k as [|k IH]; intros d cols name sq Ht Hdef Hsq Hmax.
  - exists d. cbn. by rewrite app_nil_r.
  - cbn [insert_default_ids]. unfold insert_default_id, id_default.
    rewrite Ht, Hdef. unfold nextval. rewrite Hsq. unfold require.
    replace (next sq <=? maxvalue sq) with true by lia.
    cbn [fst snd pg_class battle_ids].
    assert (Hname : name ≠ "battle_ids").
    { intros ->. by rewrite Ht in Hsq. }
    edestruct (IH {| pg_class := <[name := Sequence {| next := next sq + 1;
                                                       minvalue := minvalue sq;
                                                       maxvalue := maxvalue sq |}]>
                                   (pg_class d);
                     battle_ids := battle_ids d ++ [next sq] |}
                 cols name) as (d' & -> & Hd').
    + cbn. by rewrite lookup_insert_ne.
    + done.
    + cbn. by rewrite lookup_insert_eq.
    + cbn. lia.
    + exists d'. cbn [fst snd next] in *.
      replace (Z.of_nat (S k)) with (Z.succ (Z.of_nat k)) by lia.
      rewrite (seqZ_cons (next sq) (Z.succ (Z.of_nat k))) by lia.
      rewrite Z.pred_succ. replace (Z.succ (next sq)) with (next sq + 1) by lia.
      split; [done|]. rewrite Hd'. cbn. by rewrite <- app_assoc.
Qed.

End RepairedIds.

(** X15: after [ensureIdSequence] reached the store, any number of rows
    inserted without an id get the ids after the largest one, one by one,
    as long as they fit the column and the sequence: none of them is the
    id of a row that was there, and a table without duplicate ids stays
    without.  This holds when the repair created the sequence, and when it
    restarted an existing one that the default of [id] reads. *)
Theorem repaired_sequence_gives_fresh_ids (env : nat → Env)
    (w : Schema.World) (cols : list Schema.column) (k : nat) :
  let ids := Schema.battle_ids (Schema.db w) in
  let nxt := Schema.coalesce_max_id ids + 1 in
  let w' := (Schema.ensureIdSequence env w).2 in
  fault (env (Schema.issued w)) = None →
  Schema.pg_class (Schema.db w) !! "battle_ids" = Some (Schema.Table cols) →
  Schema.has_column cols "id" = true →
  1 ≤ nxt ≤ INT4_MAX →
  nxt + Z.of_nat k ≤ INT4_MAX + 1 →
  Schema.pg_class (Schema.db w) !! "battle_ids_id_seq" = None
  ∨ (∃ sq,
       Schema.pg_class (Schema.db w) !! "battle_ids_id_seq"
       = Some (Schema.Sequence sq)
       ∧ Schema.minvalue sq ≤ nxt ≤ Schema.maxvalue sq
       ∧ nxt + Z.of_nat k ≤ Schema.maxvalue sq + 1
       ∧ Schema.id_default (Schema.db w)
         = Some (Schema.DefaultNextval "battle_ids_id_seq")) →
  ∃ d,
    insert_default_ids k (Schema.db w') = inr (seqZ nxt (Z.of_nat k), d)
    ∧ Schema.battle_ids d = ids ++ seqZ nxt (Z.of_nat k)
    ∧ (∀ i, i ∈ seqZ nxt (Z.of_nat k) → i ∉ ids)
    ∧ (NoDup ids → NoDup (Schema.battle_ids d)).
Proof.
  intros ids nxt w' Hf Ht Hc Hlo Hhi Hseq.
  assert (Hfresh : ∀ i, i ∈ seqZ nxt (Z.of_nat k) → i ∉ ids).
  { intros i Hi%elem_of_seqZ Hin.
    apply coalesce_max_id_upper in Hin. unfold nxt, ids in *. lia. }
  assert (Hdb : ∃ d,
            insert_default_ids k (Schema.db w') = inr (seqZ nxt (Z.of_nat k), d)
            ∧ Schema.battle_ids d = ids ++ seqZ nxt (Z.of_nat k)).
  { unfold w', nxt, ids in *. rewrite ensureIdSequence_db, Hf.
    destruct Hseq as [Hnone|(sq & Hsq & Hb & Hmax & Hdef)].
    - rewrite (repair_creates _ cols Ht Hc) by (done || unfold INT8_MAX in *; lia).
      match goal with |- ∃ d, insert_default_ids _ ?d0 = _ ∧ _ => pose (d0' := d0) end.
      edestruct (insert_default_ids_spec k d0'
                   (Schema.set_default "id"
                      (Schema.DefaultNextval "battle_ids_id_seq") cols)
                   "battle_ids_id_seq"
                {| Schema.next := Schema.coalesce_max_id (Schema.battle_ids (Schema.db w)) + 1;
                   Schema.minvalue := 1;
                   Schema.maxvalue := INT8_MAX |}) as (d & Hins & Hd).
      + cbn. by rewrite lookup_insert_eq.
      + by apply find_default_set.
      + cbn. rewrite lookup_insert_ne by done. by rewrite lookup_insert_eq.
      + cbn. unfold INT8_MAX, INT4_MAX in *. lia.
      + exists d. split; [exact Hins|exact Hd].
    - unfold INT4_MIN in *.
      rewrite (repair_restarts _ cols sq Ht Hc) by (done || unfold INT4_MIN; lia).
      match goal with |- ∃ d, insert_default_ids _ ?d0 = _ ∧ _ => pose (d0' := d0) end.
      edestruct (insert_default_ids_spec k d0' cols "battle_ids_id_seq"
                {| Schema.next := Schema.coalesce_max_id (Schema.battle_ids (Schema.db w)) + 1;
                   Schema.minvalue := Schema.minvalue sq;
                   Schema.maxvalue := Schema.maxvalue sq |}) as (d & Hins & Hd).
      + cbn. by rewrite lookup_insert_ne.
      + unfold Schema.id_default in Hdef. by rewrite Ht in Hdef.
      + cbn. by rewrite lookup_insert_eq.
      + cbn. lia.
      + exists d. split; [exact Hins|exact Hd]. }
  destruct Hdb as (d & Hins & Hd). exists d.
  split; [done|]. split; [done|]. split; [done|].
  intros Hnd. rewrite Hd. apply NoDup_app. split; [done|].
  split; [|apply NoDup_seqZ]. intros i Hi Hi'. by apply (Hfresh i).
Qed.

Lemma repaired_sequence_gives_fresh_ids_witness :
  let w := booting (handmade [3; 7; 5]) in
  let w' := (Schema.ensureIdSequence quiet w).2 in
  ∃ d,
    insert_default_ids 3 (Schema.db w') = inr ([8; 9; 10], d)
    ∧ Schema.battle_ids d = [3; 7; 5; 8; 9; 10]
    ∧ NoDup (Schema.battle_ids d).
Proof.
  intros w w'.
  destruct (repaired_sequence_gives_fresh_ids quiet w
              [Schema.PRIMARY_KEY (Schema.col "id" Schema.INTEGER);
               Schema.NOT_NULL (Schema.col "name" Schema.TEXT)] 3)
    as (d & Hins & Hd & _ & Hnd).
  - reflexivity.
  - vm_compute. reflexivity.
  - vm_compute. reflexivity.
  - vm_compute. split; discriminate.
  - vm_compute. discriminate.
  - left. vm_compute. reflexivity.
  - exists d. split; [exact Hins|]. split; [exact Hd|].
    apply Hnd. apply (bool_decide_unpack _). vm_compute. reflexivity.
Defined.

(** ** The console of the legacy server *)

(** X16: a handler of the legacy server writes to the console exactly
    when its statement failed: one [console.error] with the label of its
    [catch] block and the error itself, which the answer does not carry
    (it has the fixed text of the route).  A request that succeeds prints
    nothing, and the health route sends no statement at all: it reports
    whether [DATABASE_URL] is set. *)
Theorem legacy_failures_are_logged (row : Type) (id : row → Z)
    (dml : Legacy.Stmt → list (option string) → list row
           → list row * (PgError + list row))
    (DATABASE_URL : JsVal) (env : nat → Env) (r : Legacy.Route)
    (req : Request) (w : Legacy.World row) :
  ∃ res w' new,
    Legacy.handler row id dml DATABASE_URL env r req w = (Normal res, w')
    ∧ Legacy.sent row w' = Legacy.sent row w ++ new
    ∧ match Legacy.first_failure new with
      | Some err =>
          Legacy.console row w'
          = Legacy.console row w ++ [(log_label r, DatabaseError err)]
          ∧ res = {| status := 500; json := JsonError (Legacy.error_text r) |}
      | None => Legacy.console row w' = Legacy.console row w
      end
    ∧ (r = Legacy.GET_root →
       new = []
       ∧ w' = w
       ∧ res = {| status := 200;
                  json := JsonStatus "✅ BattleIDs API running"
                            (truthy DATABASE_URL) |})
    ∧ (r ≠ Legacy.GET_root → length new = 1%nat).
Proof.
  destruct r; simpl;
    unfold Legacy.get_root, Legacy.get_api_battle, Legacy.post_api_battle,
      Legacy.put_api_battle_id, Legacy.delete_api_battle_id, try_catch, bind,
      res_json, res_status_json, ret, Legacy.console_error;
    repeat match goal with
           | |- context [Legacy.pool_query row id dml env ?q ?vs ?w] =>
               destruct (legacy_pool_query_cases row id dml env q vs w)
                 as [(? & ? & ->)|(? & ? & ->)]; cbn
           end.
  - exists {| status := 200;
              json := JsonStatus "✅ BattleIDs API running" (truthy DATABASE_URL) |},
      w, [].
    split; [reflexivity|]. split; [by rewrite app_nil_r|]. by repeat split.
  - do 3 eexists. split; [reflexivity|]. cbn. split; [reflexivity|]. by repeat split.
  - do 3 eexists. split; [reflexivity|]. cbn. split; [reflexivity|]. by repeat split.
  - do 3 eexists. split; [reflexivity|]. cbn. split; [reflexivity|]. by repeat split.
  - do 3 eexists. split; [reflexivity|]. cbn. split; [reflexivity|]. by repeat split.
  - do 3 eexists. split; [reflexivity|]. cbn. split; [reflexivity|]. by repeat split.
  - do 3 eexists. split; [reflexivity|]. cbn. split; [reflexivity|]. by repeat split.
  - do 3 eexists. split; [reflexivity|]. cbn. split; [reflexivity|]. by repeat split.
  - do 3 eexists. split; [reflexivity|]. cbn. split; [reflexivity|]. by repeat split.
Qed.

(** ** Reading one operative *)

(** X17: with the primary key holding, a get-operative request for the id
    of a stored operative, whose statement reaches the store, is answered
    200 with exactly that row, and the database is unchanged. *)
Theorem stored_operative_is_found (date_in : string → option Z)
    (env : nat → Env) (req : Request) (w : World) (i : nat)
    (r : battle_ids.row) :
  NoDup (battle_ids.id <$> battle_ids (db w)) →
  battle_ids (db w) !! i = Some r →
  names req "id" (battle_ids.id r) →
  fault (env (length (sent w))) = None →
  get_api_battle_id date_in env req w
  = (Normal {| status := 200; json := JsonRow (Some (BattleRow r)) |},
     after w (db w) SelectBattleId [param req "id"]).
Proof.
  intros Hnd Hi Hid Hf. unfold_handlers. unfold pool_query. rewrite Hf.
  cbn [exec fmap list_fmap]. unfold select_battle_id.
  rewrite (names_param _ _ _ Hid), (filter_has_id _ _ _ Hnd Hi). reflexivity.
Qed.

Lemma stored_operative_is_found_witness :
  let req := request JUndefined [("id", " 3")] [] in
  ∃ r,
    battle_ids.name r = "Zed"
    ∧ get_api_battle_id iso_date quiet req squad
      = (Normal {| status := 200; json := JsonRow (Some (BattleRow r)) |},
         after squad (db squad) SelectBattleId [param req "id"]).
Proof.
  intros req.
  pose (r := default (operative 0 "" 0) (battle_ids (db squad) !! 2%nat)).
  exists r. split; [vm_compute; reflexivity|].
  apply (stored_operative_is_found iso_date quiet req squad 2 r).
  - apply (bool_decide_unpack _). vm_compute. reflexivity.
  - vm_compute. reflexivity.
  - exists " 3". split; vm_compute; reflexivity.
  - reflexivity.
Defined.

(** ** Repeating an update *)

(** X18: an update-operative request that replaced a row, sent again,
    leaves the database as the first one left it, whether the second
    statement reaches the store or not. *)
Theorem update_is_idempotent (date_in : string → option Z)
    (env : nat → Env) (req : Request) (w : World) (i : nat)
    (old : battle_ids.row) (nm : string) (birth : option Z) :
  constraints_hold (db w) →
  battle_ids (db w) !! i = Some old →
  names req "id" (battle_ids.id old) →
  fault (env (length (sent w))) = None →
  prepareValue (field (body req) "name") = Some nm →
  nullable (pg_date_in date_in) (prepareValue (field (body req) "dob"))
  = inr birth →
  prepareValue (field (body req) "strikes_level") = None
  ∨ prepareValue (field (body req) "strikes_level") ∈ Some <$> strikes_levels →
  let w1 := (put_api_battle_id date_in env req w).2 in
  let w2 := (put_api_battle_id date_in env req w1).2 in
  db w2 = db w1.
Proof.
  intros Hc Hi Hid Hf Hname Hdob Hlevel w1 w2.
  destruct (put_existing_operative date_in env req w i old nm birth
              Hc Hi Hid Hf Hname Hdob Hlevel) as (w' & Hput & Hdb).
  match type of Hput with context [BattleRow ?r0] => set (r := r0) in * end.
  assert (Hw1 : w1 = w') by (unfold w1; by rewrite Hput).
  unfold w2. rewrite Hw1. clear w1 w2 Hw1.
  destruct (fault (env (length (sent w')))) as [msg|] eqn:Hf'.
  - unfold_handlers. unfold pool_query. by rewrite Hf'.
  - assert (Hc' : constraints_hold (db w')).
    { replace w' with (handler date_in env PUT_api_battle_id req w).2
        by (cbn [handler]; by rewrite Hput).
      apply (handler_preserves date_in env constraints_hold); [|done].
      intros q _ ps t s. apply exec_keeps_constraints. }
    assert (Hlen : (i < length (battle_ids (db w)))%nat)
      by (by eapply lookup_lt_Some).
    edestruct (put_existing_operative date_in env req w' i r nm birth Hc')
      as (w'' & Hput' & Hdb'); [..|rewrite Hput'; cbn [snd]; rewrite Hdb'].
    + rewrite Hdb. cbn [battle_ids set_battle_ids].
      by apply list_lookup_insert_eq.
    + done.
    + done.
    + done.
    + done.
    + done.
    + rewrite Hdb. cbn. by rewrite list_insert_insert_eq.
Qed.

Lemma update_is_idempotent_witness :
  let req := request JUndefined [("id", "2")]
               [("name", JStr "Ana B"); ("strikes_level", JStr "2")] in
  let w1 := (put_api_battle_id iso_date quiet req squad).2 in
  let w2 := (put_api_battle_id iso_date quiet req w1).2 in
  constraints_hold (db squad) ∧ db w1 ≠ db squad ∧ db w2 = db w1.
Proof.
  intros req w1 w2.
  assert (Hc : constraints_hold (db squad)).
  { apply constraints_hold_decide.
    apply (bool_decide_unpack _). vm_compute. reflexivity. }
  split; [exact Hc|]. split; [vm_compute; discriminate|].
  apply (update_is_idempotent iso_date quiet req squad 1
           {| battle_ids.id := 2; battle_ids.name := "Ana";
              battle_ids.callsign := None; battle_ids.role := None;
              battle_ids.rank := None; battle_ids.specialty := None;
              battle_ids.ethnicity := None; battle_ids.dob := None;
              battle_ids.strikes_level := Some "0";
              battle_ids.commendations_count := Some 0;
              battle_ids.notes := None; battle_ids.avatar := None;
              battle_ids.status := Some "active";
              battle_ids.created_at := Some 1 |}
           "Ana B" None Hc).
  - vm_compute. reflexivity.
  - exists "2". split; reflexivity.
  - reflexivity.
  - vm_compute. reflexivity.
  - vm_compute. reflexivity.
  - right. apply (bool_decide_unpack _). vm_compute. reflexivity.
Defined.
